(** * A nonogram solver: line inference, propagation and backtracking

    Shallow embedding of [solver.py]: [get_blocks], [generate_all_patterns],
    [determine_certain_by_range], [determine_certain_by_patterns],
    [determine_certain_cells], [is_valid_board],
    [solve_with_constraint_propagation], [solve_with_backtrack] and
    [NonogramUI.solve_puzzle].

    Python integers are [Z]; a cell is the integer [-1] (unknown), [1]
    (filled) or [0] (blank); a line is a [list Z]; a board is a list of rows.
    An index that Python would reject ([IndexError]) is an explicit error
    result.  The [debug_info] arguments only drive [print] and are left out.

    The rows of a board are distinct list objects, as [solve],
    [solve_puzzle] and the clones made by [solve_with_backtrack] build them,
    so the in-place updates of the propagation are updates of a value that
    is passed along.  [solve_with_backtrack] is the only function that is
    not a loop over a finite range; it takes the number of nested recursive
    calls it may make, and running out of them is a result of its own. *)

From Stdlib Require Import ZArith List Bool Lia PeanoNat.
Import ListNotations.

Open Scope Z_scope.

(** ** Python primitives *)

Module Py.

(** A computation either returns a value or raises [IndexError], the only
    exception the modelled functions can raise on integer lists. *)
Inductive exc (A : Type) : Type :=
| Ok (a : A)
| IndexError.

Arguments Ok {A} a.
Arguments IndexError {A}.

Definition bind {A B : Type} (m : exc A) (k : A -> exc B) : exc B :=
  match m with
  | Ok a => k a
  | IndexError => IndexError
  end.

(** [xs[i]] for an index taken from a [range] that starts at a
    non-negative bound. *)
Definition get {A : Type} (xs : list A) (i : nat) : exc A :=
  match nth_error xs i with
  | Some x => Ok x
  | None => IndexError
  end.

Fixpoint replace {A : Type} (xs : list A) (i : nat) (v : A) : list A :=
  match xs, i with
  | [], _ => []
  | _ :: tl, O => v :: tl
  | x :: tl, S j => x :: replace tl j v
  end.

(** [xs[i] = v] *)
Definition set {A : Type} (xs : list A) (i : nat) (v : A) : exc (list A) :=
  if (i <? length xs)%nat then Ok (replace xs i v) else IndexError.

(** [range(n)] and [range(lo, hi)] on integers; empty when [hi <= lo]. *)
Definition range (n : Z) : list nat := seq 0 (Z.to_nat n).

Definition range_from (lo hi : Z) : list Z :=
  map (fun k => lo + Z.of_nat k) (seq 0 (Z.to_nat (hi - lo))).

(** [[v] * n]; empty when [n <= 0]. *)
Definition times (v : Z) (n : Z) : list Z := repeat v (Z.to_nat n).

Definition sum (xs : list Z) : Z := fold_right Z.add 0 xs.

Definition len {A : Type} (xs : list A) : Z := Z.of_nat (length xs).

(** A [for] loop whose body threads a state and may raise. *)
Fixpoint for_each {I S : Type} (body : S -> I -> exc S) (items : list I) (s : S)
  : exc S :=
  match items with
  | [] => Ok s
  | i :: rest => bind (body s i) (for_each body rest)
  end.

(** A list comprehension whose element expression may raise. *)
Fixpoint comprehension {I A : Type} (f : I -> exc A) (items : list I)
  : exc (list A) :=
  match items with
  | [] => Ok []
  | i :: rest =>
      bind (f i) (fun a => bind (comprehension f rest) (fun tl => Ok (a :: tl)))
  end.

End Py.

Import Py.

Notation "x <- c1 ;; c2" := (Py.bind c1 (fun x => c2))
  (at level 61, c1 at next level, right associativity).
Notation "' pat <- c1 ;; c2" := (Py.bind c1 (fun x => match x with pat => c2 end))
  (at level 61, pat pattern, c1 at next level, right associativity).

(** ** Cells, lines, boards *)

Definition Unknown : Z := -1.
Definition Filled : Z := 1.
Definition Blank : Z := 0.

Definition line := list Z.
Definition board := list (list Z).
Definition clue := list Z.

(** [not hints or hints == [0]] *)
Definition no_blocks (hints : clue) : bool :=
  match hints with
  | [] => true
  | [b] => b =? 0
  | _ => false
  end.

(** ** get_blocks *)

(** The loop of [get_blocks] over the cells, on the pair
    [(blocks, current_block)]. *)
Fixpoint get_blocks_loop (cells : line) (blocks : list Z) (current_block : Z)
  : list Z * Z :=
  match cells with
  | [] => (blocks, current_block)
  | cell :: rest =>
      if cell =? 1 then get_blocks_loop rest blocks (current_block + 1)
      else if current_block >? 0
           then get_blocks_loop rest (blocks ++ [current_block]) 0
           else get_blocks_loop rest blocks current_block
  end.

Definition get_blocks (l : line) : list Z :=
  let '(blocks, current_block) := get_blocks_loop l [] 0 in
  let blocks := if current_block >? 0 then blocks ++ [current_block] else blocks in
  match blocks with
  | [] => [0]
  | _ => blocks
  end.

(** ** generate_all_patterns *)

(** [marked_state[i] != -1 and marked_state[i] != pattern[i]] *)
Definition conflict (marked_state pattern : line) (i : nat) : exc bool :=
  m <- get marked_state i ;;
  if m =? -1 then Ok false
  else p <- get pattern i ;; Ok (negb (m =? p)).

(** The compatibility loops of [backtrack]: [true] when no index of [idxs]
    conflicts; the loop stops at the first conflict. *)
Fixpoint compatible (marked_state pattern : line) (idxs : list nat) : exc bool :=
  match idxs with
  | [] => Ok true
  | i :: rest =>
      c <- conflict marked_state pattern i ;;
      if c then Ok false else compatible marked_state pattern rest
  end.

(** The [for start in range(...)] loop; [valid_patterns] grows in order. *)
Fixpoint for_starts (body : Z -> exc (list line)) (starts : list Z)
    (valid_patterns : list line) : exc (list line) :=
  match starts with
  | [] => Ok valid_patterns
  | start :: rest =>
      found <- body start ;;
      for_starts body rest (valid_patterns ++ found)
  end.

(** The nested function [backtrack(pos, block_idx, current_pattern)].  The
    argument [blocks] is [hints[block_idx:]], so [block_idx == len(hints)] is
    [blocks = []] and [block_idx < len(hints) - 1] is a non-empty tail.  The
    result is the list of patterns the call appends to [valid_patterns]. *)
Fixpoint backtrack (len : Z) (marked_state : line) (blocks : clue)
    (pos : Z) (current_pattern : line) : exc (list line) :=
  match blocks with
  | [] =>
      let pattern := current_pattern ++ times 0 (len - pos) in
      ok <- compatible marked_state pattern (range len) ;;
      Ok (if ok then [pattern] else [])
  | block_size :: later =>
      let space_needed := sum later + Py.len later in
      for_starts
        (fun start =>
           let new_pattern :=
             current_pattern ++ times 0 (start - pos) ++ times 1 block_size in
           valid <- compatible marked_state new_pattern
                      (seq 0 (length new_pattern)) ;;
           if valid then
             match later with
             | _ :: _ =>
                 backtrack len marked_state later (start + block_size + 1)
                   (new_pattern ++ [0])
             | [] =>
                 backtrack len marked_state later (start + block_size)
                   new_pattern
             end
           else Ok [])
        (range_from pos (len - block_size - space_needed + 1))
        []
  end.

(** [marked_state[i] not in (-1, 0)] for some [i] of the range, scanning in
    order. *)
Fixpoint has_filled (marked_state : line) (idxs : list nat) : exc bool :=
  match idxs with
  | [] => Ok false
  | i :: rest =>
      m <- get marked_state i ;;
      if (m =? -1) || (m =? 0) then has_filled marked_state rest else Ok true
  end.

Definition generate_all_patterns (hints : clue) (len : Z) (marked_state : line)
  : exc (list line) :=
  if no_blocks hints then
    let pattern := times 0 len in
    bad <- has_filled marked_state (range len) ;;
    Ok (if bad then [] else [pattern])
  else backtrack len marked_state hints 0 [].

(** ** The two line solvers and the dispatcher *)

(** The idiom shared by every marking loop of the line solvers:
    [if result[i] == -1: result[i] = v], where computing [v] may itself
    read lists and may decide to leave the cell alone. *)
Definition mark_unknown (decide : nat -> exc (option Z)) (result : line)
    (i : nat) : exc line :=
  x <- get result i ;;
  if x =? -1 then
    d <- decide i ;;
    match d with
    | Some v => set result i v
    | None => Ok result
    end
  else Ok result.

Definition always (v : Z) (_ : nat) : exc (option Z) := Ok (Some v).

(** [enumerate(hints)] *)
Definition enumerate (hints : clue) : list (nat * Z) :=
  combine (seq 0 (length hints)) hints.

Definition left_start (hints : clue) (block_idx : nat) : Z :=
  sum (firstn block_idx hints) + Z.of_nat block_idx.

Definition right_space (hints : clue) (block_idx : nat) : Z :=
  sum (skipn (S block_idx) hints) + Py.len (skipn (S block_idx) hints).

(** Body of the [for block_idx, block_size in enumerate(hints)] loop. *)
Definition range_block (hints : clue) (len : Z) (result : line)
    (blk : nat * Z) : exc line :=
  let '(block_idx, block_size) := blk in
  let right_start := len - block_size - right_space hints block_idx in
  let left_end := left_start hints block_idx + block_size - 1 in
  let certain_start := right_start in
  let certain_end := left_end in
  if certain_start <=? certain_end then
    for_each (mark_unknown (always 1))
      (map Z.to_nat
         (range_from (Z.max 0 certain_start) (Z.min len (certain_end + 1))))
      result
  else Ok result.

Definition determine_certain_by_range (hints : clue) (len : Z)
    (marked_state : line) : exc line :=
  let result := marked_state in
  if no_blocks hints then
    for_each (mark_unknown (always 0)) (range len) result
  else
    for_each (range_block hints len) (enumerate hints) result.

(** [all(pattern[i] == first_val for pattern in all_valid_patterns)] *)
Fixpoint all_agree (patterns : list line) (i : nat) (first_val : Z) : exc bool :=
  match patterns with
  | [] => Ok true
  | pattern :: rest =>
      v <- get pattern i ;;
      if v =? first_val then all_agree rest i first_val else Ok false
  end.

Definition agreed_value (all_valid_patterns : list line) (i : nat)
  : exc (option Z) :=
  first <- get all_valid_patterns 0 ;;
  first_val <- get first i ;;
  same <- all_agree all_valid_patterns i first_val ;;
  Ok (if same then Some first_val else None).

Definition determine_certain_by_patterns (hints : clue) (len : Z)
    (marked_state : line) : exc line :=
  let result := marked_state in
  if no_blocks hints then
    for_each (mark_unknown (always 0)) (range len) result
  else
    all_valid_patterns <- generate_all_patterns hints len marked_state ;;
    match all_valid_patterns with
    | [] => Ok result
    | _ => for_each (mark_unknown (agreed_value all_valid_patterns))
             (range len) result
    end.

(** [any(cell != -1 for cell in marked_state)] *)
Definition has_marked (marked_state : line) : bool :=
  existsb (fun cell => negb (cell =? -1)) marked_state.

Definition determine_certain_cells (hints : clue) (len : Z)
    (marked_state : line) : exc line :=
  if has_marked marked_state
  then determine_certain_by_patterns hints len marked_state
  else determine_certain_by_range hints len marked_state.

(** ** is_valid_board *)

(** [all(cell != -1 for cell in line)] *)
Definition all_determined (l : line) : bool :=
  forallb (fun cell => negb (cell =? -1)) l.

(** [len(board[0]) if num_rows > 0 else 0] *)
Definition row_width (b : board) : nat :=
  match b with
  | [] => 0%nat
  | row :: _ => length row
  end.

(** [[board[r][col] for r in range(num_rows)]] with [num_rows = len(board)] *)
Definition column (b : board) (col : nat) : exc line :=
  comprehension (fun row => get row col) b.

Definition list_eqb (xs ys : list Z) : bool :=
  if list_eq_dec Z.eq_dec xs ys then true else false.

(** The row loop of [is_valid_board]; [false] is the early [return False]. *)
Fixpoint rows_valid (b : board) (row_hints : list clue) (rs : list nat)
  : exc bool :=
  match rs with
  | [] => Ok true
  | r :: rest =>
      row_state <- get b r ;;
      if all_determined row_state then
        hint <- get row_hints r ;;
        if list_eqb (get_blocks row_state) hint
        then rows_valid b row_hints rest
        else Ok false
      else rows_valid b row_hints rest
  end.

Fixpoint cols_valid (b : board) (col_hints : list clue) (cs : list nat)
  : exc bool :=
  match cs with
  | [] => Ok true
  | col :: rest =>
      col_state <- column b col ;;
      if all_determined col_state then
        hint <- get col_hints col ;;
        if list_eqb (get_blocks col_state) hint
        then cols_valid b col_hints rest
        else Ok false
      else cols_valid b col_hints rest
  end.

Definition is_valid_board (b : board) (row_hints col_hints : list clue)
  : exc bool :=
  let num_rows := length b in
  let num_cols := row_width b in
  ok <- rows_valid b row_hints (seq 0 num_rows) ;;
  if ok then cols_valid b col_hints (seq 0 num_cols) else Ok false.

(** ** Propagation *)

(** [if board[r][col] != v: board[r][col] = v; changed = True], on the
    pair [(board, changed)]; [v] is read from the freshly solved line. *)
Definition write_cell (r col : nat) (new_state : line) (k : nat)
    (st : board * bool) : exc (board * bool) :=
  let '(b, changed) := st in
  row <- get b r ;;
  old <- get row col ;;
  v <- get new_state k ;;
  if old =? v then Ok st
  else
    row' <- set row col v ;;
    b' <- set b r row' ;;
    Ok (b', true).

(** One column of a column sweep. *)
Definition sweep_column (col_hints : list clue) (num_rows : nat)
    (st : board * bool) (col : nat) : exc (board * bool) :=
  col_state <- comprehension (fun r => row <- get (fst st) r ;; get row col)
                 (seq 0 num_rows) ;;
  hint <- get col_hints col ;;
  new_col_state <- determine_certain_cells hint (Z.of_nat num_rows) col_state ;;
  for_each (fun st r => write_cell r col new_col_state r st)
    (seq 0 num_rows) st.

(** One row of a row sweep. *)
Definition sweep_row (row_hints : list clue) (num_cols : nat)
    (st : board * bool) (r : nat) : exc (board * bool) :=
  row_state <- get (fst st) r ;;
  hint <- get row_hints r ;;
  new_row_state <- determine_certain_cells hint (Z.of_nat num_cols) row_state ;;
  for_each (fun st col => write_cell r col new_row_state col st)
    (seq 0 num_cols) st.

Definition sweep_columns (col_hints : list clue) (num_rows num_cols : nat)
    (st : board * bool) : exc (board * bool) :=
  for_each (sweep_column col_hints num_rows) (seq 0 num_cols) st.

Definition sweep_rows (row_hints : list clue) (num_rows num_cols : nat)
    (st : board * bool) : exc (board * bool) :=
  for_each (sweep_row row_hints num_cols) (seq 0 num_rows) st.

(** The body of the [while] loop of [solve_with_constraint_propagation]:
    [changed = False], then every column, then every row. *)
Definition propagation_pass (b : board) (row_hints col_hints : list clue)
  : exc (board * bool) :=
  let num_rows := length b in
  let num_cols := row_width b in
  st <- sweep_columns col_hints num_rows num_cols (b, false) ;;
  sweep_rows row_hints num_rows num_cols st.

Definition max_iterations : nat := 1000.

(** [while changed and iteration < max_iterations], with
    [remaining = max_iterations - iteration]. *)
Fixpoint propagation_loop (remaining : nat) (row_hints col_hints : list clue)
    (b : board) (changed : bool) : exc (board * bool) :=
  match remaining with
  | O => Ok (b, changed)
  | S k =>
      if changed then
        '(b', changed') <- propagation_pass b row_hints col_hints ;;
        propagation_loop k row_hints col_hints b' changed'
      else Ok (b, changed)
  end.

Definition solve_with_constraint_propagation (b : board)
    (row_hints col_hints : list clue) : exc board :=
  '(b', _) <- propagation_loop max_iterations row_hints col_hints b true ;;
  Ok b'.

(** ** Backtracking *)

(** The scan for the first unknown cell of one row. *)
Fixpoint first_unknown_in_row (row : line) (cs : list nat) : exc (option nat) :=
  match cs with
  | [] => Ok None
  | c :: rest =>
      x <- get row c ;;
      if x =? -1 then Ok (Some c) else first_unknown_in_row row rest
  end.

(** The row-major scan; the columns scanned are [range(num_cols)]. *)
Fixpoint first_unknown (b : board) (rs cs : list nat)
  : exc (option (nat * nat)) :=
  match rs with
  | [] => Ok None
  | r :: rest =>
      row <- get b r ;;
      found <- first_unknown_in_row row cs ;;
      match found with
      | Some c => Ok (Some (r, c))
      | None => first_unknown b rest cs
      end
  end.

(** [board_copy = [row[:] for row in board]; board_copy[r][c] = v] *)
Definition guess (b : board) (r c : nat) (v : Z) : exc board :=
  row <- get b r ;;
  row' <- set row c v ;;
  set b r row'.

(** What a call of [solve_with_backtrack] does. *)
Inductive outcome : Type :=
| Solved (b : board)      (* returns a board *)
| NoSolution              (* returns [None] *)
| Raised                  (* raises [IndexError] *)
| TooDeep.                (* needs more nested calls than allowed *)

(** [depth] bounds the number of nested recursive calls below this one. *)
Fixpoint solve_with_backtrack (depth : nat) (b : board)
    (row_hints col_hints : list clue) : outcome :=
  match solve_with_constraint_propagation b row_hints col_hints with
  | IndexError => Raised
  | Ok b =>
      let num_rows := length b in
      let num_cols := row_width b in
      match first_unknown b (seq 0 num_rows) (seq 0 num_cols) with
      | IndexError => Raised
      | Ok None =>
          match is_valid_board b row_hints col_hints with
          | IndexError => Raised
          | Ok true => Solved b
          | Ok false => NoSolution
          end
      | Ok (Some (unknown_row, unknown_col)) =>
          match depth with
          | O => TooDeep
          | S depth' =>
              match guess b unknown_row unknown_col 1 with
              | IndexError => Raised
              | Ok board_copy =>
                  match solve_with_backtrack depth' board_copy
                          row_hints col_hints with
                  | NoSolution =>
                      match guess b unknown_row unknown_col 0 with
                      | IndexError => Raised
                      | Ok board_copy =>
                          solve_with_backtrack depth' board_copy
                            row_hints col_hints
                      end
                  | result => result
                  end
              end
          end
      end
  end.

(** ** NonogramUI.solve_puzzle *)

(** [[[-1] * num_cols for _ in range(num_rows)]] *)
Definition fresh_board (num_rows num_cols : nat) : board :=
  repeat (repeat (-1) num_cols) num_rows.

(** One iteration of the loop of [solve_puzzle]: a column sweep when
    [iteration % 2 == 0], a row sweep otherwise. *)
Definition puzzle_iteration (row_hints col_hints : list clue)
    (num_rows num_cols : nat) (iteration : nat) (b : board)
  : exc (board * bool) :=
  if Nat.even iteration
  then sweep_columns col_hints num_rows num_cols (b, false)
  else sweep_rows row_hints num_rows num_cols (b, false).

(** The [for iteration in range(max_iterations)] loop with its [break], on
    the pair [(self.board, self.board_history)]. *)
Fixpoint puzzle_loop (row_hints col_hints : list clue)
    (num_rows num_cols : nat) (iterations : list nat)
    (b : board) (board_history : list board) : exc (board * list board) :=
  match iterations with
  | [] => Ok (b, board_history)
  | iteration :: rest =>
      '(b', changed) <- puzzle_iteration row_hints col_hints
                          num_rows num_cols iteration b ;;
      let board_history := board_history ++ [b'] in
      if changed
      then puzzle_loop row_hints col_hints num_rows num_cols rest
             b' board_history
      else Ok (b', board_history)
  end.

(** [solve_puzzle], entered with [self.board = None] and
    [self.board_history = []] as both callers leave them; the result is the
    pair of the two attributes afterwards. *)
Definition solve_puzzle (row_hints col_hints : list clue)
  : exc (option board * list board) :=
  match row_hints, col_hints with
  | [], _ | _, [] => Ok (None, [])
  | _, _ =>
      let num_rows := length row_hints in
      let num_cols := length col_hints in
      '(b, h) <- puzzle_loop row_hints col_hints num_rows num_cols
                   (seq 0 10) (fresh_board num_rows num_cols) [] ;;
      Ok (Some b, h)
  end.

(** ** NonogramUI.draw_board: the highlight of a cell *)

(** The flag [is_new_this_iteration] that [draw_board] computes for the
    cell at row [r] and column [c], from [self.board] and
    [self.board_history], before it picks the colours of that cell;
    [board_history[-2]] is the snapshot before the last one. *)
Definition is_new_this_iteration (b : board) (board_history : list board)
    (r c : nat) : exc bool :=
  row <- get b r ;;
  cell_value <- get row c ;;
  if (2 <=? length board_history)%nat then
    prev_board <- get board_history (length board_history - 2) ;;
    prev_row <- get prev_board r ;;
    prev_value <- get prev_row c ;;
    Ok ((prev_value =? -1) && negb (cell_value =? -1))
  else Ok false.

(** [solve] after [parse_input]; a fresh board of [num_rows * num_cols]
    unknown cells never needs more nested calls than it has cells. *)
Definition solve (row_hints col_hints : list clue) : outcome :=
  let num_rows := length row_hints in
  let num_cols := length col_hints in
  solve_with_backtrack (num_rows * num_cols)
    (fresh_board num_rows num_cols) row_hints col_hints.

(** ** Vocabulary of the properties *)

(** What a marking step leaves in an unknown cell. *)
Definition decided (d : option Z) : Z :=
  match d with
  | Some v => v
  | None => -1
  end.

(** [after] has the length of [before] and repeats each of its determined
    cells. *)
Definition keeps_determined (before after : line) : Prop :=
  length after = length before /\
  forall i x, nth_error before i = Some x -> x <> Unknown ->
              nth_error after i = Some x.

(** Position [i] lies in the interval
    [[rightmost start, leftmost start + block_size - 1]] of block [j]. *)
Definition block_range (hints : clue) (len : Z) (j : nat) (block_size : Z)
    (i : nat) : Prop :=
  len - block_size - right_space hints j <= Z.of_nat i
  /\ Z.of_nat i <= left_start hints j + block_size - 1.

Definition in_forced_range (hints : clue) (len : Z) (i : nat) : Prop :=
  exists j block_size,
    nth_error hints j = Some block_size /\ block_range hints len j block_size i.

(** [placed len blocks pos t]: [t] is a way to finish a line of length [len]
    from position [pos] on: each block of [blocks] in turn, at a start the
    loop of [backtrack] allows, one blank after each block but the last, and
    blanks to the end. *)
Fixpoint placed (len : Z) (blocks : clue) (pos : Z) (t : line) : Prop :=
  match blocks with
  | [] => t = times 0 (len - pos)
  | b :: later =>
      exists start t',
        pos <= start <= len - b - (sum later + Py.len later) /\
        t = times 0 (start - pos) ++ times 1 b
            ++ match later with [] => t' | _ :: _ => 0 :: t' end /\
        placed len later
          (match later with [] => start + b | _ :: _ => start + b + 1 end) t'
  end.

(** The two statements that end [get_blocks], on the state of its loop. *)
Definition finish (st : list Z * Z) : list Z :=
  let '(blocks, current_block) := st in
  if current_block >? 0 then blocks ++ [current_block] else blocks.

(** The puzzle invariant of a clue on a line of length [len]. *)
Definition feasible (hints : clue) (len : Z) : Prop :=
  sum hints + Py.len hints - 1 <= len.

(** The cell of a board at row [r] and column [c], when there is one. *)
Definition cell_at (b : board) (r c : nat) : option Z :=
  match nth_error b r with
  | Some row => nth_error row c
  | None => None
  end.

(** The lengths of the rows. *)
Definition shape (b : board) : list nat := map (@length Z) b.

(** A board is a matrix: every row has the width of the first one. *)
Definition is_matrix (b : board) : Prop :=
  Forall (fun n => n = hd 0%nat (shape b)) (shape b).

(** [after] has the shape of [before] and repeats each of its determined
    cells. *)
Definition board_keeps_determined (before after : board) : Prop :=
  shape after = shape before /\
  forall r c x, cell_at before r c = Some x -> x <> Unknown ->
                cell_at after r c = Some x.

Definition count_unknown_line (l : line) : nat := count_occ Z.eq_dec l Unknown.

Definition count_unknown (b : board) : nat :=
  list_sum (map count_unknown_line b).

(** A pass that reports no change returns the state it was given. *)
Definition quiet_is_unchanged (st st' : board * bool) : Prop :=
  snd st' = false -> st' = st.

(** [snapshots b its history]: the snapshots of [history] are the boards
    after the successive iterations [its] of the loop of [solve_puzzle]
    started on [b], one snapshot per iteration, and every iteration but the
    last recorded one changed a cell. *)
Fixpoint snapshots (row_hints col_hints : list clue) (num_rows num_cols : nat)
    (b : board) (its : list nat) (history : list board) {struct history}
  : Prop :=
  match history, its with
  | [], _ => True
  | snap :: later, it :: its' =>
      exists changed,
        puzzle_iteration row_hints col_hints num_rows num_cols it b
        = Ok (snap, changed) /\
        (later <> [] -> changed = true) /\
        snapshots row_hints col_hints num_rows num_cols snap its' later
  | _ :: _, [] => False
  end.

(** A cell of a finished line: Filled or Blank. *)
Definition binary (v : Z) : Prop := v = Filled \/ v = Blank.

(** [p] completes the line state [ms] under the clue [hints]: it has the
    declared length, only Filled and Blank cells, the determined cells of
    [ms], and the blocks of the clue (no block for [[0]] and for the empty
    clue, which the code treats alike). *)
Definition is_completion (hints : clue) (len : Z) (ms p : line) : Prop :=
  Py.len p = len /\
  Forall binary p /\
  (forall i x, nth_error ms i = Some x -> x <> Unknown ->
               nth_error p i = Some x) /\
  get_blocks p = if no_blocks hints then [0] else hints.

(** [s] solves the puzzle: it holds only Filled and Blank cells, and every
    row and every column has the blocks of its clue. *)
Definition solves (row_hints col_hints : list clue) (s : board) : Prop :=
  (forall r c x, cell_at s r c = Some x -> binary x) /\
  (forall r row, nth_error s r = Some row ->
                 nth_error row_hints r = Some (get_blocks row)) /\
  (forall c, (c < row_width s)%nat ->
             exists col, column s c = Ok col /\
                         nth_error col_hints c = Some (get_blocks col)).

(** The clues that the functions read for a board exist and hold no
    negative length. *)
Definition clues_fit (b : board) (row_hints col_hints : list clue) : Prop :=
  (forall r, (r < length b)%nat ->
             exists h, nth_error row_hints r = Some h /\
                       Forall (fun x => 0 <= x) h) /\
  (forall c, (c < row_width b)%nat ->
             exists h, nth_error col_hints c = Some h /\
                       Forall (fun x => 0 <= x) h).



(** From [st] to [st'] determined cells are kept, and the flag [changed]
    is either as it was or set with at least one more cell determined. *)
Definition progress (st st' : board * bool) : Prop :=
  board_keeps_determined (fst st) (fst st') /\
  (snd st' = snd st \/
   (snd st' = true /\
    (count_unknown (fst st') < count_unknown (fst st))%nat)).

(** Position [(r', c')] comes before [(r, c)] in row-major order. *)
Definition before (r' c' r c : nat) : Prop :=
  (r' < r)%nat \/ (r' = r /\ (c' < c)%nat).

(** [s] is at least [t] in row-major order with Filled above Blank: the
    boards are equal, or at the first cell where they differ [s] is Filled
    and [t] is Blank. *)
Definition row_major_ge (s t : board) : Prop :=
  s = t \/
  exists r c,
    cell_at s r c = Some Filled /\ cell_at t r c = Some Blank /\
    forall r' c', before r' c' r c -> cell_at s r' c' = cell_at t r' c'.

(** * Properties *)

Example range_clue3_len5 :
  determine_certain_by_range [3] 5 [-1; -1; -1; -1; -1]
  = Ok [-1; -1; 1; -1; -1].
Proof. reflexivity. Qed.

Example patterns_clue3_len5 :
  generate_all_patterns [3] 5 [-1; -1; -1; -1; -1]
  = Ok [[1; 1; 1; 0; 0]; [0; 1; 1; 1; 0]; [0; 0; 1; 1; 1]].
Proof. reflexivity. Qed.

Example patterns_clue_1_2_len5_marked :
  determine_certain_by_patterns [1; 2] 5 [-1; 0; -1; -1; -1]
  = Ok [1; 0; -1; 1; -1].
Proof. reflexivity. Qed.

Example solve_3x3_full :
  solve [[3]; [3]; [3]] [[3]; [3]; [3]]
  = Solved [[1; 1; 1]; [1; 1; 1]; [1; 1; 1]].
Proof. vm_compute. reflexivity. Qed.

Example solve_1x2_clue3 : solve [[3]] [[0]; [0]] = NoSolution.
Proof. vm_compute. reflexivity. Qed.

Example solve_3x3_ones :
  solve [[1]; [1]; [1]] [[1]; [1]; [1]]
  = Solved [[1; 0; 0]; [0; 1; 0]; [0; 0; 1]].
Proof. vm_compute. reflexivity. Qed.

(** ** The error monad and list updates *)

Lemma bind_ok {A B : Type} (m : exc A) (k : A -> exc B) (b : B) :
  Py.bind m k = Ok b -> exists a, m = Ok a /\ k a = Ok b.
Proof. destruct m as [a|]; simpl; [eauto | discriminate]. Qed.

Ltac inv_bind :=
  repeat match goal with
         | H : Py.bind ?m _ = Ok _ |- _ =>
             let a := fresh "a" in
             let Hm := fresh "Hm" in
             let Hk := fresh "Hk" in
             destruct (bind_ok _ _ _ H) as (a & Hm & Hk); clear H
         | H : Ok _ = Ok _ |- _ => injection H as H; try subst
         | H : IndexError = Ok _ |- _ => discriminate H
         end.

Lemma get_ok {A : Type} (xs : list A) (i : nat) (x : A) :
  get xs i = Ok x <-> nth_error xs i = Some x.
Proof.
  unfold get. destruct (nth_error xs i); split; intro H;
    try discriminate; injection H as ->; reflexivity.
Qed.

Lemma get_in_range {A : Type} (xs : list A) (i : nat) :
  (i < length xs)%nat -> exists x, get xs i = Ok x.
Proof.
  intro H. unfold get. destruct (nth_error xs i) eqn:E; eauto.
  apply nth_error_None in E. lia.
Qed.

Lemma get_lt {A : Type} (xs : list A) (i : nat) (x : A) :
  get xs i = Ok x -> (i < length xs)%nat.
Proof.
  intro H. apply get_ok in H. apply nth_error_Some. congruence.
Qed.

Lemma length_replace {A : Type} (xs : list A) (i : nat) (v : A) :
  length (replace xs i v) = length xs.
Proof.
  revert i. induction xs as [|x xs IH]; intros [|i]; simpl; auto.
Qed.

Lemma nth_error_replace_eq {A : Type} (xs : list A) (i : nat) (v : A) :
  (i < length xs)%nat -> nth_error (replace xs i v) i = Some v.
Proof.
  revert i. induction xs as [|x xs IH]; intros [|i] H; simpl in *;
    try lia; auto. apply IH. lia.
Qed.

Lemma nth_error_replace_neq {A : Type} (xs : list A) (i k : nat) (v : A) :
  k <> i -> nth_error (replace xs i v) k = nth_error xs k.
Proof.
  revert i k. induction xs as [|x xs IH]; intros [|i] [|k] H; simpl;
    try reflexivity; try congruence. apply IH. congruence.
Qed.

Lemma replace_same {A : Type} (xs : list A) (i : nat) (v : A) :
  nth_error xs i = Some v -> replace xs i v = xs.
Proof.
  revert i. induction xs as [|x xs IH]; intros [|i] H; simpl in *;
    try discriminate.
  - congruence.
  - f_equal. auto.
Qed.

Lemma set_ok {A : Type} (xs ys : list A) (i : nat) (v : A) :
  set xs i v = Ok ys -> ys = replace xs i v /\ (i < length xs)%nat.
Proof.
  unfold set. destruct (i <? length xs)%nat eqn:E; intro H; inv_bind.
  split; [reflexivity | now apply Nat.ltb_lt].
Qed.

Lemma set_in_range {A : Type} (xs : list A) (i : nat) (v : A) :
  (i < length xs)%nat -> set xs i v = Ok (replace xs i v).
Proof.
  intro H. unfold set. apply Nat.ltb_lt in H. now rewrite H.
Qed.

Lemma for_each_app {I S : Type} (body : S -> I -> exc S) (xs ys : list I) (s : S) :
  for_each body (xs ++ ys) s = Py.bind (for_each body xs s) (for_each body ys).
Proof.
  revert s. induction xs as [|x xs IH]; intro s; simpl.
  - reflexivity.
  - destruct (body s x); simpl; auto.
Qed.

(** A property of the state that every step keeps is kept by the loop. *)
Lemma for_each_invariant {I S : Type} (body : S -> I -> exc S) (R : S -> S -> Prop) :
  (forall s, R s s) ->
  (forall s1 s2 s3, R s1 s2 -> R s2 s3 -> R s1 s3) ->
  forall items,
  (forall s i s', In i items -> body s i = Ok s' -> R s s') ->
  forall s s', for_each body items s = Ok s' -> R s s'.
Proof.
  intros Hrefl Htrans items. induction items as [|i items IH];
    intros Hstep s s' H; simpl in H.
  - inv_bind. apply Hrefl.
  - inv_bind. apply Htrans with a.
    + apply (Hstep s i a); simpl; auto.
    + apply IH; auto. intros. eapply Hstep; simpl; eauto.
Qed.

(** ** The marking loops *)

Lemma mark_unknown_spec decide (res res' : line) (i : nat) :
  mark_unknown decide res i = Ok res' ->
  length res' = length res /\
  (forall k, k <> i -> nth_error res' k = nth_error res k) /\
  exists x, nth_error res i = Some x /\
    ((x <> -1 /\ res' = res) \/
     (x = -1 /\ exists d, decide i = Ok d /\ nth_error res' i = Some (decided d))).
Proof.
  unfold mark_unknown. intro H. inv_bind.
  pose proof (get_lt _ _ _ Hm) as Hlt. apply get_ok in Hm.
  destruct (a =? -1) eqn:E.
  - apply Z.eqb_eq in E. subst a. inv_bind. destruct a as [v|].
    + apply set_ok in Hk0 as [-> _]. rewrite length_replace.
      split; [reflexivity|]. split.
      * intros k Hk. now apply nth_error_replace_neq.
      * exists (-1). split; [assumption|]. right. split; [reflexivity|].
        exists (Some v). split; [assumption|]. now apply nth_error_replace_eq.
    + inv_bind. split; [reflexivity|]. split; [reflexivity|].
      exists (-1). split; [assumption|]. right. split; [reflexivity|].
      exists None. split; assumption.
  - apply Z.eqb_neq in E. inv_bind. split; [reflexivity|].
    split; [reflexivity|]. exists a. split; [assumption|]. now left.
Qed.

Lemma mark_loop_spec decide (idxs : list nat) :
  forall res res' : line,
  for_each (mark_unknown decide) idxs res = Ok res' ->
  length res' = length res /\
  (forall k, In k idxs -> (k < length res)%nat) /\
  forall k x, nth_error res k = Some x ->
    (x <> -1 -> nth_error res' k = Some x) /\
    (~ In k idxs -> nth_error res' k = Some x) /\
    (x = -1 -> In k idxs ->
     exists d, decide k = Ok d /\ nth_error res' k = Some (decided d)).
Proof.
  induction idxs as [|i idxs IH]; intros res res' H; simpl in H.
  - inv_bind. split; [reflexivity|]. split; [intros k []|].
    intros k x Hx. repeat split; auto. intros _ [].
  - inv_bind. apply mark_unknown_spec in Hm as (Hlen & Hother & x0 & Hx0 & Hcase).
    apply IH in Hk as (Hlen' & Hrange & Hpt).
    split; [congruence|]. split.
    { intros k [<-|Hin].
      - apply nth_error_Some. congruence.
      - rewrite <- Hlen. auto. }
    intros k x Hx.
    destruct (Nat.eq_dec k i) as [->|Hne].
    + assert (x0 = x) by congruence. subst x0.
      destruct Hcase as [[Hx1 ->]|[-> (d & Hd & Hset)]].
      * destruct (Hpt i x Hx) as (P1 & P2 & P3).
        split; [auto|]. split; [intro Hn; apply P2; simpl in Hn; tauto|].
        intros ->. congruence.
      * split; [congruence|]. split; [simpl; tauto|].
        intros _ _. destruct (Hpt i (decided d) Hset) as (P1 & P2 & P3).
        destruct (Z.eq_dec (decided d) (-1)) as [Eq|Neq].
        -- destruct (in_dec Nat.eq_dec i idxs) as [Hin|Hnin].
           ++ destruct (P3 Eq Hin) as (d' & Hd' & Hres).
              exists d'. split; assumption.
           ++ exists d. split; [assumption|auto].
        -- exists d. split; [assumption|auto].
    + rewrite <- Hother in Hx by assumption.
      destruct (Hpt k x Hx) as (P1 & P2 & P3).
      split; [auto|]. split.
      * intro Hn. apply P2. simpl in Hn. tauto.
      * intros Hu [Heq|Hin]; [congruence|auto].
Qed.

Lemma mark_loop_total decide (idxs : list nat) :
  forall res : line,
  (forall k, In k idxs -> (k < length res)%nat) ->
  (forall k, In k idxs -> exists d, decide k = Ok d) ->
  exists res', for_each (mark_unknown decide) idxs res = Ok res'.
Proof.
  induction idxs as [|i idxs IH]; intros res Hr Hd; simpl.
  - eauto.
  - assert (exists r1, mark_unknown decide res i = Ok r1) as (r1 & H1).
    { unfold mark_unknown.
      destruct (get_in_range res i) as (x & ->); [apply Hr; simpl; auto|].
      simpl. destruct (x =? -1); [|eauto].
      destruct (Hd i) as (d & ->); [simpl; auto|]. simpl.
      destruct d; [|eauto]. rewrite set_in_range; [eauto|].
      apply Hr; simpl; auto. }
    rewrite H1. simpl. apply IH.
    + intros k Hk. apply mark_unknown_spec in H1 as (-> & _). apply Hr; simpl; auto.
    + intros k Hk. apply Hd; simpl; auto.
Qed.

(** ** Ranges *)

Lemma in_range (n : Z) (i : nat) : In i (range n) <-> Z.of_nat i < n.
Proof. unfold range. rewrite in_seq. lia. Qed.

Lemma in_range_from (lo hi z : Z) : In z (range_from lo hi) <-> lo <= z < hi.
Proof.
  unfold range_from. rewrite in_map_iff. split.
  - intros (k & <- & Hk). apply in_seq in Hk. lia.
  - intro H. exists (Z.to_nat (z - lo)). split; [lia|]. apply in_seq. lia.
Qed.

Lemma in_clipped_range (lo hi : Z) (i : nat) :
  0 <= lo ->
  In i (map Z.to_nat (range_from lo hi)) <-> lo <= Z.of_nat i < hi.
Proof.
  intro Hlo. rewrite in_map_iff. split.
  - intros (z & <- & Hz). apply in_range_from in Hz. lia.
  - intro H. exists (Z.of_nat i). split; [lia|]. now apply in_range_from.
Qed.

Lemma in_enumerate (hints : clue) (j : nat) (b : Z) :
  In (j, b) (enumerate hints) <-> nth_error hints j = Some b.
Proof.
  assert (G : forall s, In (j, b) (combine (seq s (length hints)) hints) <->
                        (s <= j)%nat /\ nth_error hints (j - s) = Some b).
  { induction hints as [|h hints IH]; intro s; simpl.
    - split; [intros []|]. intros [_ H]. destruct (j - s)%nat; discriminate.
    - rewrite IH. split.
      + intros [H|[H1 H2]].
        * injection H as <- <-. rewrite Nat.sub_diag. auto.
        * split; [lia|]. replace (j - s)%nat with (S (j - S s)) by lia. exact H2.
      + intros [H1 H2]. destruct (Nat.eq_dec s j) as [->|Hne].
        * rewrite Nat.sub_diag in H2. left. simpl in H2. congruence.
        * right. split; [lia|].
          replace (j - s)%nat with (S (j - S s)) in H2 by lia. exact H2. }
  unfold enumerate. rewrite (G 0%nat), Nat.sub_0_r. split; [tauto|].
  intro H. split; [lia|exact H].
Qed.

(** ** The range method, cell by cell *)

Lemma nth_error_len (l : line) (i : nat) (x : Z) :
  nth_error l i = Some x -> Z.of_nat i < Py.len l.
Proof.
  intro H. assert (i < length l)%nat by (apply nth_error_Some; congruence).
  unfold Py.len. lia.
Qed.

Lemma always_decides (v : Z) (k : nat) (d : option Z) :
  always v k = Ok d -> decided d = v.
Proof. unfold always. intro H. inv_bind. reflexivity. Qed.

Lemma range_block_spec (hints : clue) (len : Z) (res res' : line) (blk : nat * Z) :
  range_block hints len res blk = Ok res' ->
  Py.len res = len ->
  length res' = length res /\
  forall i x, nth_error res i = Some x ->
    (x <> -1 -> nth_error res' i = Some x) /\
    (x = -1 -> block_range hints len (fst blk) (snd blk) i ->
     nth_error res' i = Some 1) /\
    (x = -1 -> ~ block_range hints len (fst blk) (snd blk) i ->
     nth_error res' i = Some (-1)).
Proof.
  destruct blk as [j b]. unfold range_block, block_range. simpl.
  intros H Hlen.
  destruct (len - b - right_space hints j <=? left_start hints j + b - 1) eqn:E.
  - apply Z.leb_le in E.
    apply mark_loop_spec in H as (Hl & _ & Hpt).
    split; [assumption|]. intros i x Hx.
    destruct (Hpt i x Hx) as (P1 & P2 & P3).
    pose proof (nth_error_len _ _ _ Hx) as Hi. rewrite Hlen in Hi.
    split; [assumption|]. split.
    + intros Hu Hin. destruct (P3 Hu) as (d & Hd & Hr).
      * apply in_clipped_range; lia.
      * apply always_decides in Hd. now rewrite Hd in Hr.
    + intros Hu Hout. subst x. apply P2. intro Hin.
      apply in_clipped_range in Hin; lia.
  - apply Z.leb_gt in E. inv_bind. split; [reflexivity|].
    intros i x Hx. split; [auto|]. split; [lia|]. intros -> _. assumption.
Qed.

Lemma range_block_total (hints : clue) (len : Z) (res : line) (blk : nat * Z) :
  Py.len res = len -> exists res', range_block hints len res blk = Ok res'.
Proof.
  intro Hlen. destruct blk as [j b]. unfold range_block.
  destruct (_ <=? _); [|eauto].
  apply mark_loop_total.
  - intros k Hk. apply in_clipped_range in Hk; [|lia].
    unfold Py.len in Hlen. lia.
  - intros. unfold always. eauto.
Qed.

Lemma range_blocks_spec (hints : clue) (len : Z) (blks : list (nat * Z)) :
  forall res res' : line,
  for_each (range_block hints len) blks res = Ok res' ->
  Py.len res = len ->
  length res' = length res /\
  forall i x, nth_error res i = Some x ->
    (x <> -1 -> nth_error res' i = Some x) /\
    (x = -1 ->
     (exists j b, In (j, b) blks /\ block_range hints len j b i) ->
     nth_error res' i = Some 1) /\
    (x = -1 ->
     ~ (exists j b, In (j, b) blks /\ block_range hints len j b i) ->
     nth_error res' i = Some (-1)).
Proof.
  induction blks as [|blk blks IH]; intros res res' H Hlen; simpl in H.
  - inv_bind. split; [reflexivity|]. intros i x Hx.
    split; [auto|]. split.
    + intros _ (j & b & [] & _).
    + intros -> _. assumption.
  - inv_bind.
    apply range_block_spec in Hm as (Hl1 & Hp1); [|assumption].
    apply IH in Hk as (Hl2 & Hp2); [|unfold Py.len in *; congruence].
    split; [congruence|]. intros i x Hx.
    destruct (Hp1 i x Hx) as (A1 & A2 & A3).
    split; [|split].
    + intro Hd. destruct (Hp2 i x (A1 Hd)) as (B1 & _). auto.
    + intros Hu (j & b & [Heq|Hin] & Hr).
      * subst blk. simpl in *.
        destruct (Hp2 i 1 (A2 Hu Hr)) as (B1 & _). apply B1. discriminate.
      * destruct blk as [j0 b0]. simpl in *.
        assert (D : block_range hints len j0 b0 i \/ ~ block_range hints len j0 b0 i)
          by (unfold block_range; lia).
        destruct D as [D|D].
        -- destruct (Hp2 i 1 (A2 Hu D)) as (B1 & _). apply B1. discriminate.
        -- destruct (Hp2 i (-1) (A3 Hu D)) as (_ & B2 & _).
           apply B2; [reflexivity|]. exists j, b. auto.
    + intros Hu Hnone. destruct blk as [j0 b0]. simpl in *.
      assert (D : ~ block_range hints len j0 b0 i).
      { intro D. apply Hnone. exists j0, b0. auto. }
      destruct (Hp2 i (-1) (A3 Hu D)) as (_ & _ & B3).
      apply B3; [reflexivity|].
      intros (j & b & Hin & Hr). apply Hnone. exists j, b. auto.
Qed.

Lemma range_blocks_total (hints : clue) (len : Z) (blks : list (nat * Z)) :
  forall res : line,
  Py.len res = len ->
  exists res', for_each (range_block hints len) blks res = Ok res'.
Proof.
  induction blks as [|blk blks IH]; intros res Hlen; simpl; [eauto|].
  destruct (range_block_total hints len res blk Hlen) as (r1 & H1).
  rewrite H1. simpl. apply IH.
  apply range_block_spec in H1 as (Hl & _); [|assumption].
  unfold Py.len in *. congruence.
Qed.

(** Marking every unknown cell of a whole line with [v]. *)
Lemma mark_all_spec (v : Z) (len : Z) (ms : line) :
  Py.len ms = len ->
  exists res, for_each (mark_unknown (always v)) (range len) ms = Ok res /\
    length res = length ms /\
    forall i x, nth_error ms i = Some x ->
      nth_error res i = Some (if x =? -1 then v else x).
Proof.
  intro Hlen.
  destruct (mark_loop_total (always v) (range len) ms) as (res & H).
  - intros k Hk. apply in_range in Hk. unfold Py.len in Hlen. lia.
  - intros. unfold always. eauto.
  - exists res. split; [assumption|].
    apply mark_loop_spec in H as (Hl & _ & Hpt). split; [assumption|].
    intros i x Hx. destruct (Hpt i x Hx) as (P1 & P2 & P3).
    destruct (x =? -1) eqn:E.
    + apply Z.eqb_eq in E. destruct (P3 E) as (d & Hd & Hr).
      * apply in_range. rewrite <- Hlen. eapply nth_error_len; eauto.
      * apply always_decides in Hd. now rewrite Hd in Hr.
    + apply Z.eqb_neq in E. auto.
Qed.

(** ** Determined cells are kept by the line solvers *)

Lemma keeps_determined_refl (l : line) : keeps_determined l l.
Proof. split; auto. Qed.

Lemma keeps_determined_trans (l1 l2 l3 : line) :
  keeps_determined l1 l2 -> keeps_determined l2 l3 -> keeps_determined l1 l3.
Proof.
  intros [L1 H1] [L2 H2]. split; [congruence|].
  intros i x Hx Hd. apply H2; auto.
Qed.

Lemma mark_loop_keeps decide (idxs : list nat) (res res' : line) :
  for_each (mark_unknown decide) idxs res = Ok res' -> keeps_determined res res'.
Proof.
  intro H. apply mark_loop_spec in H as (Hl & _ & Hpt). split; [assumption|].
  intros i x Hx Hd. destruct (Hpt i x Hx) as (P1 & _). apply P1. exact Hd.
Qed.

Lemma range_block_keeps (hints : clue) (len : Z) (res res' : line) blk :
  range_block hints len res blk = Ok res' -> keeps_determined res res'.
Proof.
  destruct blk as [j b]. unfold range_block.
  destruct (_ <=? _).
  - apply mark_loop_keeps.
  - intro H. inv_bind. apply keeps_determined_refl.
Qed.

Lemma by_range_keeps (hints : clue) (len : Z) (ms res : line) :
  determine_certain_by_range hints len ms = Ok res -> keeps_determined ms res.
Proof.
  unfold determine_certain_by_range. destruct (no_blocks hints).
  - apply mark_loop_keeps.
  - apply for_each_invariant with (R := keeps_determined).
    + apply keeps_determined_refl.
    + apply keeps_determined_trans.
    + intros s i s' _. apply range_block_keeps.
Qed.

Lemma by_patterns_keeps (hints : clue) (len : Z) (ms res : line) :
  determine_certain_by_patterns hints len ms = Ok res -> keeps_determined ms res.
Proof.
  unfold determine_certain_by_patterns. destruct (no_blocks hints).
  - apply mark_loop_keeps.
  - intro H. inv_bind. destruct a as [|p ps].
    + inv_bind. apply keeps_determined_refl.
    + eapply mark_loop_keeps; eauto.
Qed.

Lemma cells_keeps (hints : clue) (len : Z) (ms res : line) :
  determine_certain_cells hints len ms = Ok res -> keeps_determined ms res.
Proof.
  unfold determine_certain_cells. destruct (has_marked ms).
  - apply by_patterns_keeps.
  - apply by_range_keeps.
Qed.

(** ** The pattern enumerator: what [backtrack] returns *)

Lemma len_app (xs ys : line) : Py.len (xs ++ ys) = Py.len xs + Py.len ys.
Proof. unfold Py.len. rewrite length_app. lia. Qed.

Lemma len_times (v n : Z) : Py.len (times v n) = Z.max 0 n.
Proof. unfold Py.len, times. rewrite repeat_length. lia. Qed.

Lemma nth_error_times (v n : Z) (k : nat) :
  Z.of_nat k < n -> nth_error (times v n) k = Some v.
Proof.
  intro H. unfold times.
  assert (Hk : (k < Z.to_nat n)%nat) by lia.
  clear H. revert k Hk. induction (Z.to_nat n) as [|m IH]; intros k Hk.
  - lia.
  - destruct k; simpl; [reflexivity|]. apply IH. lia.
Qed.

Lemma Forall_times (P : Z -> Prop) (v n : Z) : P v -> Forall P (times v n).
Proof.
  intro H. unfold times. induction (Z.to_nat n); simpl; constructor; auto.
Qed.

Lemma nth_error_skip (xs ys : line) (k : nat) :
  nth_error (xs ++ ys) (length xs + k) = nth_error ys k.
Proof. induction xs; simpl; auto. Qed.

Lemma sum_nonneg (l : clue) : Forall (fun b => 0 <= b) l -> 0 <= sum l.
Proof. induction 1; simpl; lia. Qed.

Lemma for_starts_in body (starts : list Z) :
  forall acc res,
  for_starts body starts acc = Ok res ->
  forall p, In p res <->
            In p acc \/
            exists s found, In s starts /\ body s = Ok found /\ In p found.
Proof.
  induction starts as [|s starts IH]; intros acc res H p; simpl in H.
  - inv_bind. split; [auto|]. intros [H|(s & f & [] & _)]. exact H.
  - inv_bind. rewrite (IH _ _ Hk p), in_app_iff. split.
    + intros [[H|H]|(s' & f & Hs & Hb & Hp)]; auto.
      * right. exists s, a. simpl. auto.
      * right. exists s', f. simpl. auto.
    + intros [H|(s' & f & [<-|Hs] & Hb & Hp)]; auto.
      * left. right. congruence.
      * right. exists s', f. auto.
Qed.

Lemma for_starts_total body (starts : list Z) :
  forall acc,
  (forall s, In s starts -> exists found, body s = Ok found) ->
  exists res, for_starts body starts acc = Ok res.
Proof.
  induction starts as [|s starts IH]; intros acc H; simpl; [eauto|].
  destruct (H s) as (f & ->); [simpl; auto|]. simpl.
  apply IH. intros. apply H. simpl. auto.
Qed.

Lemma compatible_true (ms p : line) (idxs : list nat) :
  compatible ms p idxs = Ok true ->
  forall i, In i idxs ->
  exists m, nth_error ms i = Some m /\ (m = -1 \/ nth_error p i = Some m).
Proof.
  induction idxs as [|k idxs IH]; intros H i Hi; simpl in *; [tauto|].
  inv_bind. destruct a; [inv_bind; discriminate|].
  destruct Hi as [<-|Hi]; [|auto].
  unfold conflict in Hm. inv_bind. apply get_ok in Hm0. exists a. split; [assumption|].
  destruct (a =? -1) eqn:E.
  - left. now apply Z.eqb_eq.
  - inv_bind. right. apply get_ok in Hm.
    destruct (a =? a0) eqn:E2; [|discriminate].
    apply Z.eqb_eq in E2. congruence.
Qed.

Lemma compatible_total (ms p : line) (idxs : list nat) :
  (forall i, In i idxs -> (i < length ms)%nat /\ (i < length p)%nat) ->
  exists ok, compatible ms p idxs = Ok ok.
Proof.
  induction idxs as [|k idxs IH]; intro H; simpl; [eauto|].
  destruct (H k) as [H1 H2]; [simpl; auto|].
  unfold conflict.
  destruct (get_in_range ms k H1) as (m & ->).
  destruct (get_in_range p k H2) as (x & ->). simpl.
  destruct (m =? -1); simpl.
  - apply IH. intros. apply H. simpl. auto.
  - destruct (negb (m =? x)); [eauto|].
    apply IH. intros. apply H. simpl. auto.
Qed.

Lemma compatible_unknown (ms p : line) (idxs : list nat) :
  Forall (fun c => c = -1) ms ->
  (forall i, In i idxs -> (i < length ms)%nat) ->
  compatible ms p idxs = Ok true.
Proof.
  intros Hu. induction idxs as [|k idxs IH]; intro H; simpl; [reflexivity|].
  unfold conflict. destruct (get_in_range ms k) as (m & Hm); [apply H; simpl; auto|].
  rewrite Hm. simpl. apply get_ok in Hm. apply nth_error_In in Hm.
  rewrite Forall_forall in Hu. rewrite (Hu m Hm). simpl.
  apply IH. intros. apply H. simpl. auto.
Qed.

Lemma backtrack_sound (len : Z) (ms : line) (blocks : clue) :
  forall pos cur res,
  backtrack len ms blocks pos cur = Ok res ->
  forall p, In p res ->
  exists t, p = cur ++ t /\ placed len blocks pos t /\
            compatible ms p (range len) = Ok true.
Proof.
  induction blocks as [|b later IH]; intros pos cur res H p Hp; simpl in H.
  - inv_bind. destruct a; simpl in Hp; [|tauto].
    destruct Hp as [<-|[]]. exists (times 0 (len - pos)). simpl. auto.
  - apply (for_starts_in _ _ _ _ H) in Hp as [[]|(s & found & Hs & Hb & Hp)].
    apply in_range_from in Hs. inv_bind. destruct a; [|inv_bind; destruct Hp].
    destruct later as [|b' later'].
    + apply (IH _ _ _ Hk) in Hp as (t & -> & Hpl & Hc).
      exists (times 0 (s - pos) ++ times 1 b ++ t). split.
      * now rewrite <- !app_assoc.
      * split; [|assumption]. exists s, t. repeat split; auto; lia.
    + apply (IH _ _ _ Hk) in Hp as (t & -> & Hpl & Hc).
      exists (times 0 (s - pos) ++ times 1 b ++ 0 :: t). split.
      * now rewrite <- !app_assoc.
      * split; [|assumption]. exists s, t. repeat split; auto; lia.
Qed.

Lemma placed_length (len : Z) (blocks : clue) :
  forall pos t,
  Forall (fun b => 0 <= b) blocks -> pos <= len ->
  placed len blocks pos t -> Py.len t = len - pos.
Proof.
  induction blocks as [|b later IH]; intros pos t Hnn Hpos Hpl; simpl in Hpl.
  - subst t. rewrite len_times. lia.
  - destruct Hpl as (s & t' & Hs & -> & Hpl).
    pose proof (Forall_inv Hnn) as Hb. pose proof (Forall_inv_tail Hnn) as Hl.
    pose proof (sum_nonneg _ Hl) as Hsum. cbv beta in Hb.
    rewrite !len_app, !len_times.
    destruct later as [|b' later'].
    + apply IH in Hpl; [|assumption|simpl in Hs; unfold Py.len in Hs; simpl in Hs; lia].
      rewrite Hpl. lia.
    + apply IH in Hpl; [|assumption|].
      * change (0 :: t') with ([0] ++ t'). rewrite len_app, Hpl.
        unfold Py.len at 1. simpl length.
        unfold Py.len in Hs. simpl length in Hs. lia.
      * unfold Py.len in Hs. simpl length in Hs. lia.
Qed.

Lemma placed_values (len : Z) (blocks : clue) :
  forall pos t,
  placed len blocks pos t -> Forall (fun v => v = Filled \/ v = Blank) t.
Proof.
  induction blocks as [|b later IH]; intros pos t Hpl; simpl in Hpl.
  - subst t. apply Forall_times. now right.
  - destruct Hpl as (s & t' & Hs & -> & Hpl). apply IH in Hpl.
    apply Forall_app. split; [apply Forall_times; now right|].
    apply Forall_app. split; [apply Forall_times; now left|].
    destruct later; [assumption|]. constructor; [now right|assumption].
Qed.

(** ** [get_blocks] on a placement *)

Lemma get_blocks_finish (l : line) :
  get_blocks l = match finish (get_blocks_loop l [] 0) with
                 | [] => [0]
                 | bs => bs
                 end.
Proof.
  unfold get_blocks, finish. destruct (get_blocks_loop l [] 0) as [bs c].
  destruct (if c >? 0 then bs ++ [c] else bs); reflexivity.
Qed.

Lemma loop_blanks (n : Z) (t : line) (acc : list Z) :
  get_blocks_loop (times 0 n ++ t) acc 0 = get_blocks_loop t acc 0.
Proof.
  unfold times. induction (Z.to_nat n) as [|m IH]; simpl; auto.
Qed.

Lemma loop_filled (n : Z) (t : line) (acc : list Z) (c : Z) :
  0 <= n ->
  get_blocks_loop (times 1 n ++ t) acc c = get_blocks_loop t acc (c + n).
Proof.
  intro Hn. unfold times.
  replace (c + n) with (c + Z.of_nat (Z.to_nat n)) by lia.
  clear Hn. generalize (Z.to_nat n) as m. intro m. revert c.
  induction m as [|m IH]; intro c; simpl get_blocks_loop.
  - f_equal. simpl. lia.
  - rewrite IH. f_equal. lia.
Qed.

Lemma loop_blanks_after (n : Z) (acc : list Z) (c : Z) :
  0 < c -> finish (get_blocks_loop (times 0 n) acc c) = acc ++ [c].
Proof.
  intro Hc. unfold times. destruct (Z.to_nat n) as [|m]; simpl.
  - destruct (c >? 0) eqn:E; [reflexivity|lia].
  - destruct (c >? 0) eqn:E; [|lia].
    pose proof (loop_blanks (Z.of_nat m) [] (acc ++ [c])) as H.
    unfold times in H. rewrite app_nil_r, Nat2Z.id in H. rewrite H. reflexivity.
Qed.

Lemma placed_blocks (len : Z) (blocks : clue) :
  forall pos t acc,
  Forall (fun b => 0 < b) blocks ->
  placed len blocks pos t ->
  finish (get_blocks_loop t acc 0) = acc ++ blocks.
Proof.
  induction blocks as [|b later IH]; intros pos t acc Hpos Hpl; simpl in Hpl.
  - subst t. rewrite <- (app_nil_r (times 0 (len - pos))), loop_blanks.
    simpl. now rewrite app_nil_r.
  - destruct Hpl as (s & t' & Hs & -> & Hpl).
    pose proof (Forall_inv Hpos) as Hb. pose proof (Forall_inv_tail Hpos) as Hl.
    cbv beta in Hb.
    rewrite loop_blanks, loop_filled by lia. rewrite Z.add_0_l.
    destruct later as [|b' later'].
    + simpl in Hpl. subst t'. now apply loop_blanks_after.
    + simpl get_blocks_loop. destruct (b >? 0) eqn:E; [|lia].
      rewrite (IH _ _ _ Hl Hpl). now rewrite <- app_assoc.
Qed.

(** ** Every placement covers the forced interval of every block *)

Lemma placed_covers (len : Z) (blocks : clue) :
  forall pos t,
  Forall (fun b => 0 <= b) blocks ->
  placed len blocks pos t ->
  forall j b (i : Z),
  nth_error blocks j = Some b ->
  len - b - (sum (skipn (S j) blocks) + Py.len (skipn (S j) blocks)) <= i ->
  i <= pos + sum (firstn j blocks) + Z.of_nat j + b - 1 ->
  pos <= i /\ nth_error t (Z.to_nat (i - pos)) = Some 1.
Proof.
  induction blocks as [|b0 later IH]; intros pos t Hnn Hpl j b i Hj Hlo Hhi.
  - destruct j; discriminate.
  - simpl in Hpl. destruct Hpl as (s & t' & Hs & -> & Hpl).
    pose proof (Forall_inv Hnn) as Hb0. pose proof (Forall_inv_tail Hnn) as Hl.
    cbv beta in Hb0.
    destruct j as [|j].
    + simpl in Hj. injection Hj as ->. simpl in Hlo, Hhi.
      split; [lia|].
      replace (Z.to_nat (i - pos))
        with (length (times 0 (s - pos)) + Z.to_nat (i - s))%nat.
      * rewrite nth_error_skip, nth_error_app1.
        -- apply nth_error_times. lia.
        -- unfold times. rewrite repeat_length. lia.
      * unfold times. rewrite repeat_length. lia.
    + simpl in Hj. destruct later as [|b' later']; [destruct j; discriminate|].
      cbn [skipn] in Hlo. cbn [firstn sum fold_right] in Hhi.
      destruct (IH _ _ Hl Hpl j b i Hj) as [Hge Hnth].
      * exact Hlo.
      * unfold sum. lia.
      * split; [lia|].
        replace (Z.to_nat (i - pos))
          with (length (times 0 (s - pos))
                + (length (times 1 b0) + S (Z.to_nat (i - (s + b0 + 1)))))%nat.
        -- rewrite nth_error_skip, nth_error_skip. simpl. exact Hnth.
        -- unfold times. rewrite !repeat_length. lia.
Qed.

(** ** The enumerator raises nothing on a line of the declared length *)

Lemma backtrack_total (len : Z) (ms : line) (blocks : clue) :
  Py.len ms = len ->
  Forall (fun b => 0 <= b) blocks ->
  forall pos cur, Py.len cur = pos ->
  exists res, backtrack len ms blocks pos cur = Ok res.
Proof.
  intros Hms. induction blocks as [|b later IH]; intros Hnn pos cur Hcur; simpl.
  - destruct (compatible_total ms (cur ++ times 0 (len - pos)) (range len))
      as (ok & ->); [|simpl; eauto].
    intros i Hi. apply in_range in Hi.
    rewrite length_app. unfold times. rewrite repeat_length.
    unfold Py.len in *. lia.
  - pose proof (Forall_inv Hnn) as Hb. pose proof (Forall_inv_tail Hnn) as Hl.
    pose proof (sum_nonneg _ Hl) as Hsum. cbv beta in Hb.
    apply for_starts_total. intros s Hs. apply in_range_from in Hs.
    assert (Hlen : Py.len (cur ++ times 0 (s - pos) ++ times 1 b) = s + b).
    { rewrite !len_app, !len_times. lia. }
    destruct (compatible_total ms (cur ++ times 0 (s - pos) ++ times 1 b)
                (seq 0 (length (cur ++ times 0 (s - pos) ++ times 1 b))))
      as (ok & ->).
    { intros i Hi. apply in_seq in Hi. unfold Py.len in *. lia. }
    simpl. destruct ok; [|eauto].
    destruct later as [|b' later'].
    + apply IH; assumption.
    + apply IH; [assumption|]. rewrite len_app, Hlen. reflexivity.
Qed.

Lemma backtrack_unknown_nonempty (len : Z) (ms : line) (blocks : clue) :
  Py.len ms = len ->
  Forall (fun c => c = -1) ms ->
  Forall (fun b => 0 <= b) blocks ->
  forall pos cur, Py.len cur = pos ->
  blocks = [] \/ pos + sum blocks + Py.len blocks - 1 <= len ->
  exists res p, backtrack len ms blocks pos cur = Ok res /\ In p res.
Proof.
  intros Hms Hu. induction blocks as [|b later IH];
    intros Hnn pos cur Hcur Hroom.
  - simpl. rewrite compatible_unknown; [| assumption |].
    + simpl. eexists. eexists. split; [reflexivity|]. simpl. auto.
    + intros i Hi. apply in_range in Hi. unfold Py.len in Hms. lia.
  - destruct Hroom as [Hroom|Hroom]; [discriminate|].
    destruct (backtrack_total len ms (b :: later) Hms Hnn pos cur Hcur)
      as (res & Hres).
    pose proof (Forall_inv Hnn) as Hb. pose proof (Forall_inv_tail Hnn) as Hl.
    pose proof (sum_nonneg _ Hl) as Hsum. cbv beta in Hb.
    assert (Hlen : Py.len (cur ++ times 0 (pos - pos) ++ times 1 b) = pos + b).
    { rewrite !len_app, !len_times. lia. }
    cbn [sum fold_right] in Hroom. fold (sum later) in Hroom.
    unfold Py.len in Hroom. simpl length in Hroom.
    assert (Hrec : exists found p,
      match later with
      | _ :: _ => backtrack len ms later (pos + b + 1)
                    ((cur ++ times 0 (pos - pos) ++ times 1 b) ++ [0])
      | [] => backtrack len ms later (pos + b)
                (cur ++ times 0 (pos - pos) ++ times 1 b)
      end = Ok found /\ In p found).
    { destruct later as [|b' later'].
      - apply IH; auto.
      - apply IH; auto.
        + rewrite len_app, Hlen. reflexivity.
        + right. unfold Py.len. lia. }
    destruct Hrec as (found & p & Hfound & Hp).
    exists res, p. split; [assumption|].
    simpl in Hres. apply (for_starts_in _ _ _ _ Hres). right.
    exists pos, found. split; [|split; [|assumption]].
    + apply in_range_from. unfold Py.len. lia.
    + rewrite compatible_unknown; [simpl; exact Hfound| assumption |].
      intros i Hi. apply in_seq in Hi. unfold Py.len in *. lia.
Qed.

(** A compatible pattern repeats each determined cell of the line state. *)
Lemma compatible_agrees (ms p : line) (len : Z) :
  compatible ms p (range len) = Ok true ->
  Py.len ms = len ->
  forall i x, nth_error ms i = Some x -> x <> Unknown -> nth_error p i = Some x.
Proof.
  intros Hc Hlen i x Hx Hd.
  destruct (compatible_true _ _ _ Hc i) as (m & Hm & Hcase).
  - apply in_range. rewrite <- Hlen. eapply nth_error_len; eauto.
  - assert (m = x) by congruence. subst m. destruct Hcase; [contradiction|assumption].
Qed.

Lemma has_filled_false (ms : line) (idxs : list nat) :
  has_filled ms idxs = Ok false ->
  forall i, In i idxs -> nth_error ms i = Some (-1) \/ nth_error ms i = Some 0.
Proof.
  induction idxs as [|k idxs IH]; intros H i Hi; simpl in *; [tauto|].
  inv_bind. apply get_ok in Hm.
  destruct ((a =? -1) || (a =? 0)) eqn:E; [|inv_bind; discriminate].
  destruct Hi as [<-|Hi]; [|auto].
  apply orb_true_iff in E as [E|E]; apply Z.eqb_eq in E; subst a; auto.
Qed.

Lemma has_filled_total (ms : line) (idxs : list nat) :
  (forall i, In i idxs -> (i < length ms)%nat) ->
  exists bad, has_filled ms idxs = Ok bad.
Proof.
  induction idxs as [|k idxs IH]; intro H; simpl; [eauto|].
  destruct (get_in_range ms k) as (m & ->); [apply H; simpl; auto|]. simpl.
  destruct ((m =? -1) || (m =? 0)); [|eauto].
  apply IH. intros. apply H. simpl. auto.
Qed.

Lemma get_blocks_blank (n : Z) : get_blocks (times 0 n) = [0].
Proof.
  rewrite get_blocks_finish.
  rewrite <- (app_nil_r (times 0 n)), loop_blanks. reflexivity.
Qed.

(** What [generate_all_patterns] returns, for a clue of non-negative
    lengths on a line state of the declared length. *)
Lemma generate_all_patterns_sound (hints : clue) (len : Z) (ms : line) :
  Py.len ms = len ->
  Forall (fun b => 0 <= b) hints ->
  exists pats, generate_all_patterns hints len ms = Ok pats /\
    forall p, In p pats ->
      Py.len p = len /\
      Forall (fun v => v = Filled \/ v = Blank) p /\
      (forall i x, nth_error ms i = Some x -> x <> Unknown ->
                   nth_error p i = Some x) /\
      (if no_blocks hints then p = times 0 len else placed len hints 0 p).
Proof.
  intros Hlen Hnn. unfold generate_all_patterns.
  assert (H0 : 0 <= len) by (unfold Py.len in Hlen; lia).
  destruct (no_blocks hints) eqn:Hz.
  - destruct (has_filled_total ms (range len)) as (bad & Hbad).
    { intros i Hi. apply in_range in Hi. unfold Py.len in Hlen. lia. }
    rewrite Hbad. simpl. eexists. split; [reflexivity|].
    intros p Hp. destruct bad; [destruct Hp|]. destruct Hp as [<-|[]].
    split; [rewrite len_times; lia|].
    split; [apply Forall_times; now right|].
    split; [|reflexivity].
    intros i x Hx Hd. unfold Unknown in Hd.
    destruct (has_filled_false _ _ Hbad i) as [E|E].
    + apply in_range. rewrite <- Hlen. eapply nth_error_len; eauto.
    + congruence.
    + rewrite nth_error_times; [congruence|].
      rewrite <- Hlen. eapply nth_error_len; eauto.
  - destruct (backtrack_total len ms hints Hlen Hnn 0 []) as (pats & Hpats);
      [reflexivity|].
    exists pats. split; [assumption|]. intros p Hp.
    destruct (backtrack_sound _ _ _ _ _ _ Hpats p Hp) as (t & -> & Hpl & Hc).
    simpl in *. split.
    + rewrite (placed_length _ _ _ _ Hnn H0 Hpl). lia.
    + split; [eapply placed_values; eauto|].
      split; [|auto]. eapply compatible_agrees; eauto.
Qed.

(** ** Agreement of all patterns at a position *)

Lemma all_agree_same (pats : list line) (i : nat) (v : Z) :
  (forall p, In p pats -> nth_error p i = Some v) ->
  all_agree pats i v = Ok true.
Proof.
  induction pats as [|p pats IH]; intro H; simpl; [reflexivity|].
  assert (Hp : get p i = Ok v) by (apply get_ok, H; simpl; auto).
  rewrite Hp. simpl. rewrite Z.eqb_refl. apply IH. intros. apply H. simpl. auto.
Qed.

Lemma all_agree_total (pats : list line) (i : nat) (v : Z) :
  (forall p, In p pats -> (i < length p)%nat) ->
  exists same, all_agree pats i v = Ok same.
Proof.
  induction pats as [|p pats IH]; intro H; simpl; [eauto|].
  destruct (get_in_range p i) as (x & ->); [apply H; simpl; auto|]. simpl.
  destruct (x =? v); [|eauto]. apply IH. intros. apply H. simpl. auto.
Qed.

Lemma agreed_value_total (pats : list line) (i : nat) :
  pats <> [] ->
  (forall p, In p pats -> (i < length p)%nat) ->
  exists d, agreed_value pats i = Ok d.
Proof.
  intros Hne H. unfold agreed_value. destruct pats as [|p0 ps]; [congruence|].
  change (get (p0 :: ps) 0) with (Ok p0). cbn [Py.bind].
  destruct (get_in_range p0 i) as (x & ->); [apply H; simpl; auto|].
  cbn [Py.bind].
  destruct (all_agree_total (p0 :: ps) i x H) as (same & ->). cbn [Py.bind]. eauto.
Qed.

Lemma agreed_value_same (pats : list line) (i : nat) (v : Z) :
  pats <> [] ->
  (forall p, In p pats -> nth_error p i = Some v) ->
  agreed_value pats i = Ok (Some v).
Proof.
  intros Hne H. unfold agreed_value. destruct pats as [|p0 ps]; [congruence|].
  change (get (p0 :: ps) 0) with (Ok p0). cbn [Py.bind].
  assert (Hp : get p0 i = Ok v) by (apply get_ok, H; simpl; auto).
  rewrite Hp. cbn [Py.bind]. rewrite (all_agree_same _ _ _ H). reflexivity.
Qed.

Lemma nth_error_unknown_line (n i : nat) (x : Z) :
  nth_error (repeat Unknown n) i = Some x -> x = Unknown.
Proof. intro H. apply nth_error_In in H. now apply repeat_spec in H. Qed.

Lemma unknown_line_all (n : nat) : Forall (fun c => c = -1) (repeat Unknown n).
Proof. apply Forall_forall. intros x H. now apply repeat_spec in H. Qed.

Lemma positive_nonneg (hints : clue) :
  Forall (fun b => 0 < b) hints -> Forall (fun b => 0 <= b) hints.
Proof. apply Forall_impl. intros. lia. Qed.

Lemma no_blocks_nonneg (hints : clue) :
  no_blocks hints = true -> Forall (fun b => 0 <= b) hints.
Proof.
  destruct hints as [|b [|b' tl]]; simpl; intro H; try discriminate.
  - constructor.
  - apply Z.eqb_eq in H. subst b. repeat constructor. lia.
Qed.

Lemma in_forced_range_dec (hints : clue) (len : Z) (i : nat) :
  in_forced_range hints len i \/ ~ in_forced_range hints len i.
Proof.
  destruct (Exists_dec
              (fun blk => block_range hints len (fst blk) (snd blk) i)
              (enumerate hints)) as [E|E].
  - intros [j b]. unfold block_range. simpl.
    destruct (Z_le_dec (len - b - right_space hints j) (Z.of_nat i));
      destruct (Z_le_dec (Z.of_nat i) (left_start hints j + b - 1));
      [left; auto | right; tauto ..].
  - left. apply Exists_exists in E as ([j b] & Hin & Hr).
    exists j, b. split; [now apply in_enumerate|assumption].
  - right. intros (j & b & Hj & Hr). apply E. apply Exists_exists.
    exists (j, b). split; [now apply in_enumerate|assumption].
Qed.

(** The range method on a line of the declared length, cell by cell. *)
Lemma by_range_cells (hints : clue) (len : Z) (ms : line) :
  Py.len ms = len ->
  exists res, determine_certain_by_range hints len ms = Ok res /\
    length res = length ms /\
    forall i x, nth_error ms i = Some x ->
      (x <> Unknown -> nth_error res i = Some x) /\
      (x = Unknown -> no_blocks hints = true -> nth_error res i = Some Blank) /\
      (x = Unknown -> no_blocks hints = false ->
       in_forced_range hints len i -> nth_error res i = Some Filled) /\
      (x = Unknown -> no_blocks hints = false ->
       ~ in_forced_range hints len i -> nth_error res i = Some Unknown).
Proof.
  intro Hlen. unfold determine_certain_by_range.
  destruct (no_blocks hints) eqn:Hz.
  - destruct (mark_all_spec 0 len ms Hlen) as (res & Hres & Hl & Hpt).
    exists res. split; [assumption|]. split; [assumption|].
    intros i x Hx. rewrite (Hpt i x Hx). unfold Unknown.
    repeat split; try discriminate.
    + intro Hd. apply Z.eqb_neq in Hd. now rewrite Hd.
    + intros -> _. reflexivity.
  - destruct (range_blocks_total hints len (enumerate hints) ms Hlen)
      as (res & Hres).
    exists res. split; [assumption|].
    apply range_blocks_spec in Hres as (Hl & Hpt); [|assumption].
    split; [assumption|]. intros i x Hx.
    destruct (Hpt i x Hx) as (P1 & P2 & P3).
    repeat split; try discriminate; auto.
    + intros Hu _ (j & b & Hj & Hr). apply P2; [assumption|].
      exists j, b. split; [now apply in_enumerate|assumption].
    + intros Hu _ Hout. apply P3; [assumption|].
      intros (j & b & Hj & Hr). apply Hout. exists j, b.
      split; [now apply in_enumerate|assumption].
Qed.

(** * The line solvers *)

(** C10: for a clue of positive block lengths, or the clue [[0]] or the
    empty clue, and a line state of the declared length,
    [generate_all_patterns] raises no error and every pattern it returns has
    exactly that length, holds only Filled and Blank cells, repeats every
    determined cell of the line state, and has [get_blocks] equal to the
    clue ([[0]] for the clue [[0]] and for the empty clue). *)
Theorem generate_all_patterns_correct (hints : clue) (len : Z) (ms : line) :
  Py.len ms = len ->
  no_blocks hints = true \/ Forall (fun b => 0 < b) hints ->
  exists pats, generate_all_patterns hints len ms = Ok pats /\
    forall p, In p pats ->
      Py.len p = len /\
      Forall (fun v => v = Filled \/ v = Blank) p /\
      (forall i x, nth_error ms i = Some x -> x <> Unknown ->
                   nth_error p i = Some x) /\
      get_blocks p = if no_blocks hints then [0] else hints.
Proof.
  intros Hlen Hclue.
  assert (Hnn : Forall (fun b => 0 <= b) hints).
  { destruct Hclue; [now apply no_blocks_nonneg | now apply positive_nonneg]. }
  destruct (generate_all_patterns_sound hints len ms Hlen Hnn) as (pats & Hg & Hp).
  exists pats. split; [assumption|]. intros p Hin.
  destruct (Hp p Hin) as (H1 & H2 & H3 & H4).
  repeat split; try assumption.
  destruct (no_blocks hints) eqn:Hz.
  - subst p. apply get_blocks_blank.
  - destruct Hclue as [Hc|Hc]; [discriminate|].
    rewrite get_blocks_finish, (placed_blocks len hints 0 p [] Hc H4). simpl.
    destruct hints; [discriminate|reflexivity].
Qed.

Lemma generate_all_patterns_correct_witness :
  exists pats, generate_all_patterns [1; 2] 5 [-1; 0; -1; -1; -1] = Ok pats /\
    forall p, In p pats ->
      Py.len p = 5 /\
      Forall (fun v => v = Filled \/ v = Blank) p /\
      (forall i x, nth_error [-1; 0; -1; -1; -1] i = Some x -> x <> Unknown ->
                   nth_error p i = Some x) /\
      get_blocks p = [1; 2].
Proof.
  apply (generate_all_patterns_correct [1; 2] 5 [-1; 0; -1; -1; -1]).
  - reflexivity.
  - right. repeat constructor.
Defined.

(** C4, as the code has it: on a line state of the declared length
    [determine_certain_by_range] raises no error for any clue, feasible or
    not, keeps every determined cell, turns every Unknown cell into Blank
    when the clue is [[0]] (or empty), and otherwise turns an Unknown cell
    into Filled exactly when it lies in the interval
    [[rightmost start, leftmost start + b - 1]] of some block, leaving the
    other Unknown cells Unknown. *)
Theorem determine_certain_by_range_rule (hints : clue) (len : Z) (ms : line) :
  Py.len ms = len ->
  exists res, determine_certain_by_range hints len ms = Ok res /\
    length res = length ms /\
    forall i x, nth_error ms i = Some x ->
      (x <> Unknown -> nth_error res i = Some x) /\
      (x = Unknown -> no_blocks hints = true -> nth_error res i = Some Blank) /\
      (x = Unknown -> no_blocks hints = false ->
       in_forced_range hints len i -> nth_error res i = Some Filled) /\
      (x = Unknown -> no_blocks hints = false ->
       ~ in_forced_range hints len i -> nth_error res i = Some Unknown).
Proof. exact (by_range_cells hints len ms). Qed.

Lemma determine_certain_by_range_rule_witness :
  exists res, determine_certain_by_range [3] 5 [-1; -1; -1; -1; -1] = Ok res /\
    length res = 5%nat /\
    forall i x, nth_error [-1; -1; -1; -1; -1] i = Some x ->
      (x <> Unknown -> nth_error res i = Some x) /\
      (x = Unknown -> no_blocks [3] = true -> nth_error res i = Some Blank) /\
      (x = Unknown -> no_blocks [3] = false ->
       in_forced_range [3] 5 i -> nth_error res i = Some Filled) /\
      (x = Unknown -> no_blocks [3] = false ->
       ~ in_forced_range [3] 5 i -> nth_error res i = Some Unknown).
Proof.
  apply (determine_certain_by_range_rule [3] 5 [-1; -1; -1; -1; -1]).
  reflexivity.
Defined.

(** C4 as stated fails: the clue [[3]] is infeasible on a line of length 2,
    and the range method still forces both cells to Filled. *)
Lemma range_forces_cells_on_infeasible_clue :
  ~ feasible [3] 2 /\
  determine_certain_by_range [3] 2 [Unknown; Unknown] = Ok [Filled; Filled].
Proof.
  split; [unfold feasible; simpl; lia | reflexivity].
Qed.

Lemma has_marked_iff (ms : line) :
  has_marked ms = true <-> exists cell, In cell ms /\ cell <> Unknown.
Proof.
  unfold has_marked. rewrite existsb_exists. split.
  - intros (c & Hin & Hc). exists c. split; [assumption|].
    apply negb_true_iff, Z.eqb_neq in Hc. exact Hc.
  - intros (c & Hin & Hc). exists c. split; [assumption|].
    apply negb_true_iff, Z.eqb_neq. exact Hc.
Qed.

(** C5: when the line state has a cell that is not Unknown the test of the
    dispatcher holds and the dispatcher is the pattern method; when every
    cell is Unknown the test fails and the dispatcher is the range method.
    This is so for every clue and length, and the function takes no row or
    column argument. *)
Theorem determine_certain_cells_selects (hints : clue) (len : Z) (ms : line) :
  ((exists cell, In cell ms /\ cell <> Unknown) ->
   has_marked ms = true /\
   determine_certain_cells hints len ms
   = determine_certain_by_patterns hints len ms) /\
  ((forall cell, In cell ms -> cell = Unknown) ->
   has_marked ms = false /\
   determine_certain_cells hints len ms
   = determine_certain_by_range hints len ms).
Proof.
  unfold determine_certain_cells. split.
  - intro H. apply has_marked_iff in H. rewrite H. auto.
  - intro H. destruct (has_marked ms) eqn:E; [|auto].
    apply has_marked_iff in E as (c & Hin & Hc). now apply H in Hin.
Qed.

Lemma determine_certain_cells_selects_witness :
  (has_marked [-1; 0; -1] = true /\
   determine_certain_cells [1] 3 [-1; 0; -1]
   = determine_certain_by_patterns [1] 3 [-1; 0; -1]) /\
  (has_marked [-1; -1; -1] = false /\
   determine_certain_cells [1] 3 [-1; -1; -1]
   = determine_certain_by_range [1] 3 [-1; -1; -1]).
Proof.
  split.
  - apply (determine_certain_cells_selects [1] 3 [-1; 0; -1]).
    exists 0. split; [simpl; auto | discriminate].
  - apply (determine_certain_cells_selects [1] 3 [-1; -1; -1]).
    intros cell [<-|[<-|[<-|[]]]]; reflexivity.
Defined.

(** C6, as the code has it: for a clue other than [[0]] and the empty clue,
    when [generate_all_patterns] returns no pattern
    [determine_certain_by_patterns] returns the line as it was; for the clue
    [[0]] and the empty clue it does not consult the enumeration and turns
    every Unknown cell of a line of the declared length into Blank. *)
Theorem determine_certain_by_patterns_no_pattern (hints : clue) (len : Z)
    (ms : line) :
  (no_blocks hints = false ->
   generate_all_patterns hints len ms = Ok [] ->
   determine_certain_by_patterns hints len ms = Ok ms) /\
  (no_blocks hints = true -> Py.len ms = len ->
   exists res, determine_certain_by_patterns hints len ms = Ok res /\
     length res = length ms /\
     forall i x, nth_error ms i = Some x ->
       nth_error res i = Some (if x =? Unknown then Blank else x)).
Proof.
  unfold determine_certain_by_patterns. split.
  - intros -> ->. reflexivity.
  - intros -> Hlen. apply mark_all_spec. exact Hlen.
Qed.

Lemma determine_certain_by_patterns_no_pattern_witness :
  determine_certain_by_patterns [2] 3 [0; -1; 0] = Ok [0; -1; 0] /\
  exists res, determine_certain_by_patterns [0] 2 [1; -1] = Ok res /\
     length res = 2%nat /\
     forall i x, nth_error [1; -1] i = Some x ->
       nth_error res i = Some (if x =? Unknown then Blank else x).
Proof.
  split.
  - apply (determine_certain_by_patterns_no_pattern [2] 3 [0; -1; 0]);
      reflexivity.
  - apply (determine_certain_by_patterns_no_pattern [0] 2 [1; -1]);
      reflexivity.
Defined.

(** C6 as stated fails: with the clue [[0]] and a Filled cell the
    enumeration is empty, yet the Unknown cell of the line becomes Blank. *)
Lemma patterns_changes_line_without_pattern :
  generate_all_patterns [0] 2 [Filled; Unknown] = Ok [] /\
  determine_certain_by_patterns [0] 2 [Filled; Unknown] = Ok [Filled; Blank] /\
  [Filled; Blank] <> [Filled; Unknown].
Proof.
  repeat split; discriminate.
Qed.

(** C3, as the code has it: for a feasible clue of non-negative block
    lengths and a line of [n] Unknown cells, neither method raises an error
    and every cell the range method determines is set to the same value by
    the pattern method. *)
Theorem range_within_patterns (hints : clue) (n : nat) :
  Forall (fun b => 0 <= b) hints ->
  feasible hints (Z.of_nat n) ->
  exists r p,
    determine_certain_by_range hints (Z.of_nat n) (repeat Unknown n) = Ok r /\
    determine_certain_by_patterns hints (Z.of_nat n) (repeat Unknown n) = Ok p /\
    forall i v, nth_error r i = Some v -> v <> Unknown -> nth_error p i = Some v.
Proof.
  intros Hnn Hfeas.
  set (len := Z.of_nat n). set (ms := repeat Unknown n).
  assert (Hlen : Py.len ms = len).
  { unfold Py.len, ms. now rewrite repeat_length. }
  destruct (by_range_cells hints len ms Hlen) as (r & Hr & Hrl & Hrp).
  exists r. unfold determine_certain_by_patterns.
  pose proof Hr as Hr'. unfold determine_certain_by_range in Hr'.
  destruct (no_blocks hints) eqn:Hz.
  - exists r. repeat split; auto.
  - destruct (generate_all_patterns_sound hints len ms Hlen Hnn)
      as (pats & Hg & Hsound).
    rewrite Hg. cbn [Py.bind]. rewrite Hz in Hsound.
    assert (Hne : pats <> []).
    { unfold generate_all_patterns in Hg. rewrite Hz in Hg.
      destruct (backtrack_unknown_nonempty len ms hints Hlen
                  (unknown_line_all n) Hnn 0 [] eq_refl)
        as (res & q & Hres & Hq).
      - right. unfold feasible in Hfeas. fold len in Hfeas. lia.
      - intros ->. rewrite Hres in Hg. inv_bind. destruct Hq. }
    destruct (mark_loop_total (agreed_value pats) (range len) ms) as (p & Hp).
    { intros k Hk. apply in_range in Hk. unfold Py.len in Hlen. lia. }
    { intros k Hk. apply in_range in Hk. apply agreed_value_total; [assumption|].
      intros q Hq. destruct (Hsound q Hq) as (Hql & _).
      unfold Py.len in Hql. lia. }
    exists p. split; [assumption|]. split.
    { destruct pats; [congruence|exact Hp]. }
    intros i v Hv Hd.
    assert (Hi : (i < length ms)%nat).
    { rewrite <- Hrl. apply nth_error_Some. congruence. }
    destruct (nth_error ms i) as [x|] eqn:Hx; [|apply nth_error_None in Hx; lia].
    pose proof (nth_error_unknown_line _ _ _ Hx) as ->.
    destruct (Hrp i Unknown Hx) as (_ & _ & R1 & R2).
    assert (D : in_forced_range hints len i).
    { destruct (in_forced_range_dec hints len i) as [C|C]; [assumption|].
      rewrite (R2 eq_refl eq_refl C) in Hv. congruence. }
    rewrite (R1 eq_refl eq_refl D) in Hv. injection Hv as <-.
    apply mark_loop_spec in Hp as (_ & _ & Hpt).
    destruct (Hpt i Unknown Hx) as (_ & _ & P3).
    destruct P3 as (d & Hd' & Hres); [reflexivity| |].
    { apply in_range. unfold Py.len in Hlen. lia. }
    rewrite Hres. f_equal.
    rewrite agreed_value_same with (v := Filled) in Hd'; [|assumption|].
    { inv_bind. reflexivity. }
    intros q Hq. destruct (Hsound q Hq) as (_ & _ & _ & Hpl).
    destruct D as (j & b & Hj & Hlo & Hhi).
    destruct (placed_covers len hints 0 q Hnn Hpl j b (Z.of_nat i) Hj) as [_ Hn].
    + exact Hlo.
    + unfold left_start in Hhi. lia.
    + rewrite Z.sub_0_r, Nat2Z.id in Hn. exact Hn.
Qed.

Lemma range_within_patterns_witness :
  exists r p,
    determine_certain_by_range [2; 1] 5 (repeat Unknown 5) = Ok r /\
    determine_certain_by_patterns [2; 1] 5 (repeat Unknown 5) = Ok p /\
    forall i v, nth_error r i = Some v -> v <> Unknown -> nth_error p i = Some v.
Proof.
  apply (range_within_patterns [2; 1] 5).
  - repeat constructor; lia.
  - unfold feasible. simpl. lia.
Defined.

(** C3 as stated fails: on two Unknown cells the range method sets both to
    Filled for the clue [[3]], and the pattern method sets neither. *)
Lemma range_forces_what_patterns_leave :
  determine_certain_by_range [3] 2 [Unknown; Unknown] = Ok [Filled; Filled] /\
  determine_certain_by_patterns [3] 2 [Unknown; Unknown]
  = Ok [Unknown; Unknown].
Proof. split; reflexivity. Qed.

(** * Propagation and search *)

(** ** Boards: cells, shapes and the write-back loops *)

Lemma map_replace {A B : Type} (f : A -> B) (xs : list A) (i : nat) (y : A) :
  map f (replace xs i y) = replace (map f xs) i (f y).
Proof.
  revert i. induction xs as [|x xs IH]; intros [|i]; simpl; auto.
  now rewrite IH.
Qed.

Lemma shape_replace_row (b : board) (r : nat) (row row' : line) :
  nth_error b r = Some row -> length row' = length row ->
  shape (replace b r row') = shape b.
Proof.
  intros Hr Hl. unfold shape. rewrite map_replace. apply replace_same.
  rewrite nth_error_map, Hr. simpl. congruence.
Qed.

Lemma cell_at_replace_row (b : board) (r c : nat) (row' : line) :
  (r < length b)%nat -> cell_at (replace b r row') r c = nth_error row' c.
Proof.
  intro H. unfold cell_at. now rewrite nth_error_replace_eq.
Qed.

Lemma cell_at_replace_other (b : board) (r r' c : nat) (row' : line) :
  r' <> r -> cell_at (replace b r row') r' c = cell_at b r' c.
Proof.
  intro H. unfold cell_at. now rewrite nth_error_replace_neq.
Qed.

Lemma board_keeps_refl (b : board) : board_keeps_determined b b.
Proof. split; auto. Qed.

Lemma board_keeps_trans (b1 b2 b3 : board) :
  board_keeps_determined b1 b2 -> board_keeps_determined b2 b3 ->
  board_keeps_determined b1 b3.
Proof.
  intros [S1 H1] [S2 H2]. split; [congruence|].
  intros r c x Hx Hd. apply H2; auto.
Qed.

Lemma write_cell_spec (r col : nat) (news : line) (k : nat) (b : board)
    (ch : bool) (st' : board * bool) :
  write_cell r col news k (b, ch) = Ok st' ->
  exists old v,
    cell_at b r col = Some old /\ nth_error news k = Some v /\
    shape (fst st') = shape b /\
    cell_at (fst st') r col = Some v /\
    (forall r' c', r' <> r \/ c' <> col ->
                   cell_at (fst st') r' c' = cell_at b r' c') /\
    (old = v -> st' = (b, ch)) /\
    (old <> v -> snd st' = true).
Proof.
  unfold write_cell. intro H. inv_bind.
  rename a into row, a0 into old, a1 into v.
  pose proof (get_lt _ _ _ Hm) as Hr. pose proof (get_lt _ _ _ Hm0) as Hc.
  apply get_ok in Hm, Hm0, Hm1.
  assert (Hcell : cell_at b r col = Some old) by (unfold cell_at; now rewrite Hm).
  exists old, v. split; [assumption|]. split; [assumption|].
  destruct (old =? v) eqn:E.
  - apply Z.eqb_eq in E. inv_bind. simpl. repeat split; auto; congruence.
  - apply Z.eqb_neq in E. inv_bind.
    apply set_ok in Hm2 as [-> _]. apply set_ok in Hm3 as [-> _]. simpl.
    split; [apply shape_replace_row with row; auto using length_replace|].
    split; [rewrite cell_at_replace_row by assumption;
            now apply nth_error_replace_eq|].
    split; [|split; [contradiction|reflexivity]].
    intros r' c' Hne. destruct (Nat.eq_dec r' r) as [->|Hr'].
    + rewrite cell_at_replace_row by assumption.
      rewrite nth_error_replace_neq by tauto.
      unfold cell_at. now rewrite Hm.
    + now apply cell_at_replace_other.
Qed.

Lemma write_loop_keeps (fr fc : nat -> nat) (news : line) (b0 : board)
    (items : list nat) :
  (forall i k, fr i = fr k -> fc i = fc k -> i = k) ->
  (forall i x v, In i items -> cell_at b0 (fr i) (fc i) = Some x ->
                 x <> Unknown -> nth_error news i = Some v -> v = x) ->
  forall st st',
  for_each (fun st i => write_cell (fr i) (fc i) news i st) items st = Ok st' ->
  (forall i, cell_at (fst st) (fr i) (fc i) = cell_at b0 (fr i) (fc i) \/
             cell_at (fst st) (fr i) (fc i) = nth_error news i) ->
  board_keeps_determined (fst st) (fst st').
Proof.
  intros Hinj. induction items as [|k items IH]; intros Hnews st st' H Hinv;
    simpl in H.
  - inv_bind. apply board_keeps_refl.
  - inv_bind. rename a into st1. destruct st as [b ch].
    apply write_cell_spec in Hm
      as (old & v & Hold & Hv & Hshape & Hnew & Hother & Hsame & _).
    simpl in Hinv.
    assert (Hstep : old = v \/ old = Unknown).
    { destruct (Z.eq_dec old Unknown) as [|Hd]; [now right|left].
      destruct (Hinv k) as [E|E].
      - symmetry. apply (Hnews k old v); simpl; auto. congruence.
      - congruence. }
    apply board_keeps_trans with (fst st1).
    + simpl. split; [assumption|]. intros r c x Hx Hd.
      destruct (Nat.eq_dec r (fr k)) as [->|Hr];
        [destruct (Nat.eq_dec c (fc k)) as [->|Hc]|].
      * destruct Hstep as [E|E]; [|congruence].
        rewrite (Hsame E). exact Hx.
      * rewrite Hother by auto. exact Hx.
      * rewrite Hother by auto. exact Hx.
    + apply IH; [|assumption|].
      * intros. eapply Hnews; simpl; eauto.
      * intro i.
        destruct (Nat.eq_dec (fr i) (fr k)) as [Er|Er];
          [destruct (Nat.eq_dec (fc i) (fc k)) as [Ec|Ec]|].
        -- rewrite (Hinj i k Er Ec). right. congruence.
        -- rewrite Hother by auto. apply Hinv.
        -- rewrite Hother by auto. apply Hinv.
Qed.

Lemma write_loop_quiet (fr fc : nat -> nat) (news : line) (items : list nat) :
  forall st st',
  for_each (fun st i => write_cell (fr i) (fc i) news i st) items st = Ok st' ->
  quiet_is_unchanged st st'.
Proof.
  apply for_each_invariant.
  - intros s _. reflexivity.
  - intros s1 s2 s3 H12 H23 Hq. specialize (H23 Hq). subst s3. auto.
  - intros [b ch] i s' _ H Hq.
    apply write_cell_spec in H as (old & v & _ & _ & _ & _ & _ & Hsame & Hdiff).
    destruct (Z.eq_dec old v) as [E|E]; [auto|].
    rewrite (Hdiff E) in Hq. discriminate.
Qed.

Lemma comprehension_spec {I A : Type} (f : I -> exc A) (items : list I) :
  forall l, comprehension f items = Ok l ->
  length l = length items /\
  forall k i, nth_error items k = Some i ->
              exists a, f i = Ok a /\ nth_error l k = Some a.
Proof.
  induction items as [|i items IH]; intros l H; simpl in H.
  - inv_bind. split; [reflexivity|]. intros [|k] j Hj; discriminate.
  - inv_bind. destruct (IH _ Hm0) as (Hl & Hpt). split; [simpl; congruence|].
    intros [|k] j Hj; simpl in *.
    + injection Hj as <-. eauto.
    + auto.
Qed.

Lemma nth_error_seq0 (n i : nat) :
  (i < n)%nat -> nth_error (seq 0 n) i = Some i.
Proof.
  intro H. rewrite (nth_error_nth' _ 0%nat) by (now rewrite length_seq).
  now rewrite seq_nth.
Qed.

Lemma sweep_column_keeps (col_hints : list clue) (num_rows : nat)
    (st st' : board * bool) (col : nat) :
  sweep_column col_hints num_rows st col = Ok st' ->
  board_keeps_determined (fst st) (fst st').
Proof.
  unfold sweep_column. intro H. inv_bind.
  rename a into col_state, a1 into news.
  apply cells_keeps in Hm1 as [_ Hkeep].
  apply comprehension_spec in Hm as [_ Hcol].
  apply (write_loop_keeps (fun i => i) (fun _ => col) news (fst st)
           (seq 0 num_rows)); [auto | | exact Hk | auto].
  intros i x v Hi Hx Hd Hv. apply in_seq in Hi.
  destruct (Hcol i i) as (y & Hy & Hnth); [apply nth_error_seq0; lia|].
  clear Hk. inv_bind. apply get_ok in Hm, Hk.
  unfold cell_at in Hx. rewrite Hm in Hx.
  assert (y = x) by congruence. subst y.
  rewrite (Hkeep i x Hnth Hd) in Hv. congruence.
Qed.

Lemma sweep_row_keeps (row_hints : list clue) (num_cols : nat)
    (st st' : board * bool) (r : nat) :
  sweep_row row_hints num_cols st r = Ok st' ->
  board_keeps_determined (fst st) (fst st').
Proof.
  unfold sweep_row. intro H. inv_bind.
  rename a into row_state, a1 into news.
  apply cells_keeps in Hm1 as [_ Hkeep]. apply get_ok in Hm.
  apply (write_loop_keeps (fun _ => r) (fun c => c) news (fst st)
           (seq 0 num_cols)); [auto | | exact Hk | auto].
  intros c x v _ Hx Hd Hv.
  unfold cell_at in Hx. rewrite Hm in Hx.
  rewrite (Hkeep c x Hx Hd) in Hv. congruence.
Qed.

Lemma sweep_column_quiet (col_hints : list clue) (num_rows : nat)
    (st st' : board * bool) (col : nat) :
  sweep_column col_hints num_rows st col = Ok st' -> quiet_is_unchanged st st'.
Proof.
  unfold sweep_column. intro H. inv_bind.
  now apply (write_loop_quiet (fun i => i) (fun _ => col)) in Hk.
Qed.

Lemma sweep_row_quiet (row_hints : list clue) (num_cols : nat)
    (st st' : board * bool) (r : nat) :
  sweep_row row_hints num_cols st r = Ok st' -> quiet_is_unchanged st st'.
Proof.
  unfold sweep_row. intro H. inv_bind.
  now apply (write_loop_quiet (fun _ => r) (fun c => c)) in Hk.
Qed.

(** ** Sweeps, passes and the propagation loop *)

Lemma sweep_columns_keeps (col_hints : list clue) (num_rows num_cols : nat)
    (st st' : board * bool) :
  sweep_columns col_hints num_rows num_cols st = Ok st' ->
  board_keeps_determined (fst st) (fst st').
Proof.
  unfold sweep_columns.
  apply (for_each_invariant _
           (fun s s' => board_keeps_determined (fst s) (fst s'))).
  - intro s. apply board_keeps_refl.
  - intros s1 s2 s3. apply board_keeps_trans.
  - intros s i s' _. apply sweep_column_keeps.
Qed.

Lemma sweep_rows_keeps (row_hints : list clue) (num_rows num_cols : nat)
    (st st' : board * bool) :
  sweep_rows row_hints num_rows num_cols st = Ok st' ->
  board_keeps_determined (fst st) (fst st').
Proof.
  unfold sweep_rows.
  apply (for_each_invariant _
           (fun s s' => board_keeps_determined (fst s) (fst s'))).
  - intro s. apply board_keeps_refl.
  - intros s1 s2 s3. apply board_keeps_trans.
  - intros s i s' _. apply sweep_row_keeps.
Qed.

Lemma quiet_refl (st : board * bool) : quiet_is_unchanged st st.
Proof. intro. reflexivity. Qed.

Lemma quiet_trans (s1 s2 s3 : board * bool) :
  quiet_is_unchanged s1 s2 -> quiet_is_unchanged s2 s3 ->
  quiet_is_unchanged s1 s3.
Proof. intros H12 H23 Hq. specialize (H23 Hq). subst s3. auto. Qed.

Lemma sweep_columns_quiet (col_hints : list clue) (num_rows num_cols : nat)
    (st st' : board * bool) :
  sweep_columns col_hints num_rows num_cols st = Ok st' ->
  quiet_is_unchanged st st'.
Proof.
  unfold sweep_columns. apply for_each_invariant.
  - apply quiet_refl.
  - apply quiet_trans.
  - intros s i s' _. apply sweep_column_quiet.
Qed.

Lemma sweep_rows_quiet (row_hints : list clue) (num_rows num_cols : nat)
    (st st' : board * bool) :
  sweep_rows row_hints num_rows num_cols st = Ok st' ->
  quiet_is_unchanged st st'.
Proof.
  unfold sweep_rows. apply for_each_invariant.
  - apply quiet_refl.
  - apply quiet_trans.
  - intros s i s' _. apply sweep_row_quiet.
Qed.

Lemma propagation_pass_keeps (b b' : board) (row_hints col_hints : list clue)
    (changed : bool) :
  propagation_pass b row_hints col_hints = Ok (b', changed) ->
  board_keeps_determined b b'.
Proof.
  unfold propagation_pass. intro H. inv_bind.
  apply sweep_columns_keeps in Hm. apply sweep_rows_keeps in Hk.
  exact (board_keeps_trans _ _ _ Hm Hk).
Qed.

Lemma propagation_pass_quiet (b b' : board) (row_hints col_hints : list clue) :
  propagation_pass b row_hints col_hints = Ok (b', false) -> b' = b.
Proof.
  unfold propagation_pass. intro H. inv_bind.
  apply sweep_columns_quiet in Hm. apply sweep_rows_quiet in Hk.
  pose proof (quiet_trans _ _ _ Hm Hk eq_refl) as E. congruence.
Qed.

Lemma propagation_loop_keeps (row_hints col_hints : list clue) (n : nat) :
  forall b changed b' changed',
  propagation_loop n row_hints col_hints b changed = Ok (b', changed') ->
  board_keeps_determined b b'.
Proof.
  induction n as [|n IH]; intros b changed b' changed' H; simpl in H.
  - inv_bind. apply board_keeps_refl.
  - destruct changed; [|inv_bind; apply board_keeps_refl].
    inv_bind. destruct a as [b1 c1].
    apply propagation_pass_keeps in Hm. apply IH in Hk.
    exact (board_keeps_trans _ _ _ Hm Hk).
Qed.

Lemma propagation_keeps (b b' : board) (row_hints col_hints : list clue) :
  solve_with_constraint_propagation b row_hints col_hints = Ok b' ->
  board_keeps_determined b b'.
Proof.
  unfold solve_with_constraint_propagation. intro H. inv_bind.
  destruct a as [b1 c1]. inv_bind. eapply propagation_loop_keeps; eauto.
Qed.

(** A loop that ends on an unchanged pass ends on a board that one more
    pass leaves as it is. *)
Lemma propagation_loop_fixpoint (row_hints col_hints : list clue) (n : nat) :
  forall b b',
  propagation_loop n row_hints col_hints b true = Ok (b', false) ->
  propagation_pass b' row_hints col_hints = Ok (b', false).
Proof.
  induction n as [|n IH]; intros b b' H; simpl in H.
  - inv_bind. discriminate.
  - inv_bind. destruct a as [b1 c1]. destruct c1.
    + eapply IH; eauto.
    + assert (E : (b1, false) = (b', false)).
      { destruct n; simpl in Hk; inv_bind; reflexivity. }
      injection E as <-.
      pose proof (propagation_pass_quiet _ _ _ _ Hm) as ->. exact Hm.
Qed.

(** ** Counting unknown cells *)

Lemma keeps_determined_tail (x y : Z) (l l' : line) :
  keeps_determined (x :: l) (y :: l') ->
  (x = Unknown \/ y = x) /\ keeps_determined l l'.
Proof.
  intros [Hl Hp]. split.
  - destruct (Z.eq_dec x Unknown) as [|Hd]; [now left|right].
    specialize (Hp 0%nat x eq_refl Hd). simpl in Hp. congruence.
  - split; [simpl in Hl; congruence|].
    intros i v Hv Hd. apply (Hp (S i) v Hv Hd).
Qed.

Lemma count_unknown_line_keeps (l : line) :
  forall l', keeps_determined l l' ->
  (count_unknown_line l' <= count_unknown_line l)%nat.
Proof.
  unfold count_unknown_line.
  induction l as [|x l IH]; intros [|y l'] H.
  - auto.
  - destruct H as [Hl _]. discriminate.
  - destruct H as [Hl _]. discriminate.
  - apply keeps_determined_tail in H as [Hxy Hk]. specialize (IH _ Hk).
    simpl. destruct (Z.eq_dec x Unknown), (Z.eq_dec y Unknown); lia.
Qed.

Lemma board_keeps_tail (row row' : line) (b b' : board) :
  board_keeps_determined (row :: b) (row' :: b') ->
  keeps_determined row row' /\ board_keeps_determined b b'.
Proof.
  intros [Hs Hp]. unfold shape in Hs. simpl in Hs. injection Hs as Hl Hs.
  split; split; auto.
  - intros i x Hx Hd. apply (Hp 0%nat i x Hx Hd).
  - intros r c x Hx Hd. apply (Hp (S r) c x Hx Hd).
Qed.

Lemma count_unknown_keeps (b : board) :
  forall b', board_keeps_determined b b' ->
  (count_unknown b' <= count_unknown b)%nat.
Proof.
  unfold count_unknown.
  induction b as [|row b IH]; intros [|row' b'] H.
  - auto.
  - destruct H as [Hs _]. discriminate.
  - destruct H as [Hs _]. discriminate.
  - apply board_keeps_tail in H as [Hr Hb]. specialize (IH _ Hb).
    apply count_unknown_line_keeps in Hr. simpl. lia.
Qed.

Lemma count_unknown_line_replace (l : line) :
  forall c v, nth_error l c = Some Unknown -> v <> Unknown ->
  S (count_unknown_line (replace l c v)) = count_unknown_line l.
Proof.
  unfold count_unknown_line.
  induction l as [|x l IH]; intros [|c] v Hc Hv; simpl in *; try discriminate.
  - injection Hc as ->. destruct (Z.eq_dec Unknown Unknown); [|congruence].
    destruct (Z.eq_dec v Unknown); [contradiction|reflexivity].
  - specialize (IH c v Hc Hv). destruct (Z.eq_dec x Unknown); lia.
Qed.

Lemma count_unknown_replace (b : board) :
  forall r row row',
  nth_error b r = Some row ->
  S (count_unknown_line row') = count_unknown_line row ->
  S (count_unknown (replace b r row')) = count_unknown b.
Proof.
  unfold count_unknown.
  induction b as [|x b IH]; intros [|r] row row' Hr Hc; simpl in *;
    try discriminate.
  - injection Hr as ->. lia.
  - specialize (IH r row row' Hr Hc). lia.
Qed.

Lemma guess_spec (b b' : board) (r c : nat) (v : Z) :
  guess b r c v = Ok b' ->
  shape b' = shape b /\
  (cell_at b r c = Some Unknown -> v <> Unknown ->
   S (count_unknown b') = count_unknown b).
Proof.
  unfold guess. intro H. inv_bind.
  apply get_ok in Hm. apply set_ok in Hm0 as [-> Hc].
  apply set_ok in Hk0 as [-> Hr].
  split.
  - apply shape_replace_row with a; auto using length_replace.
  - intros Hcell Hv. unfold cell_at in Hcell. rewrite Hm in Hcell.
    apply count_unknown_replace with a; [assumption|].
    now apply count_unknown_line_replace.
Qed.

Lemma guess_total (b : board) (r c : nat) (v x : Z) :
  cell_at b r c = Some x -> exists b', guess b r c v = Ok b'.
Proof.
  unfold cell_at, guess. intro H.
  destruct (nth_error b r) as [row|] eqn:Hr; [|discriminate].
  assert (Hget : get b r = Ok row) by now apply get_ok.
  rewrite Hget. simpl.
  rewrite set_in_range by (apply nth_error_Some; congruence). simpl.
  rewrite set_in_range by (apply nth_error_Some; congruence). eauto.
Qed.

Lemma first_unknown_in_row_spec (row : line) (cs : list nat) :
  forall found, first_unknown_in_row row cs = Ok found ->
  match found with
  | Some c => nth_error row c = Some Unknown
  | None => forall c, In c cs ->
                      exists x, nth_error row c = Some x /\ x <> Unknown
  end.
Proof.
  induction cs as [|c cs IH]; intros found H; simpl in H.
  - inv_bind. intros c [].
  - inv_bind. apply get_ok in Hm. destruct (a =? -1) eqn:E.
    + apply Z.eqb_eq in E. inv_bind. unfold Unknown. congruence.
    + apply Z.eqb_neq in E. specialize (IH _ Hk). destruct found; [assumption|].
      intros c' [<-|Hin]; eauto.
Qed.

Lemma first_unknown_spec (b : board) (rs cs : list nat) :
  forall found, first_unknown b rs cs = Ok found ->
  match found with
  | Some (r, c) => cell_at b r c = Some Unknown
  | None => forall r c, In r rs -> In c cs ->
                        exists x, cell_at b r c = Some x /\ x <> Unknown
  end.
Proof.
  induction rs as [|r rs IH]; intros found H; simpl in H.
  - inv_bind. intros r c [].
  - inv_bind. apply get_ok in Hm.
    apply first_unknown_in_row_spec in Hm0. destruct a0 as [c|].
    + inv_bind. unfold cell_at. now rewrite Hm.
    + specialize (IH _ Hk0). destruct found as [[r' c']|]; [assumption|].
      intros r' c' [<-|Hin] Hc; [|auto].
      unfold cell_at. rewrite Hm. auto.
Qed.

Lemma count_unknown_line_pos (l : line) (c : nat) :
  nth_error l c = Some Unknown -> (0 < count_unknown_line l)%nat.
Proof.
  intro H. apply nth_error_In in H. unfold count_unknown_line.
  now apply count_occ_In.
Qed.

Lemma count_unknown_pos (b : board) (r c : nat) :
  cell_at b r c = Some Unknown -> (0 < count_unknown b)%nat.
Proof.
  unfold cell_at, count_unknown.
  revert r. induction b as [|row b IH]; intros [|r] H; simpl in *;
    try discriminate.
  - apply count_unknown_line_pos in H. lia.
  - specialize (IH r H). lia.
Qed.

(** ** The backtracking search, one call at a time *)

Lemma solve_with_backtrack_unfold (depth : nat) (b : board)
    (row_hints col_hints : list clue) :
  solve_with_backtrack depth b row_hints col_hints =
  match solve_with_constraint_propagation b row_hints col_hints with
  | IndexError => Raised
  | Ok b =>
      match first_unknown b (seq 0 (length b)) (seq 0 (row_width b)) with
      | IndexError => Raised
      | Ok None =>
          match is_valid_board b row_hints col_hints with
          | IndexError => Raised
          | Ok true => Solved b
          | Ok false => NoSolution
          end
      | Ok (Some (unknown_row, unknown_col)) =>
          match depth with
          | O => TooDeep
          | S depth' =>
              match guess b unknown_row unknown_col 1 with
              | IndexError => Raised
              | Ok board_copy =>
                  match solve_with_backtrack depth' board_copy
                          row_hints col_hints with
                  | NoSolution =>
                      match guess b unknown_row unknown_col 0 with
                      | IndexError => Raised
                      | Ok board_copy =>
                          solve_with_backtrack depth' board_copy
                            row_hints col_hints
                      end
                  | result => result
                  end
              end
          end
      end
  end.
Proof. destruct depth; reflexivity. Qed.

Lemma solve_with_backtrack_depth (row_hints col_hints : list clue) (depth : nat) :
  forall b, (count_unknown b <= depth)%nat ->
  solve_with_backtrack depth b row_hints col_hints <> TooDeep.
Proof.
  induction depth as [|d IH]; intros b Hc; rewrite solve_with_backtrack_unfold;
    destruct (solve_with_constraint_propagation b row_hints col_hints)
      as [b1|] eqn:Hp; try discriminate;
    apply propagation_keeps, count_unknown_keeps in Hp;
    destruct (first_unknown b1 (seq 0 (length b1)) (seq 0 (row_width b1)))
      as [[[r c]|]|] eqn:Hf; try discriminate;
    try (destruct (is_valid_board b1 row_hints col_hints) as [[|]|];
         discriminate);
    apply first_unknown_spec in Hf.
  - apply count_unknown_pos in Hf. lia.
  - destruct (guess b1 r c 1) as [bc|] eqn:Hg1; [|discriminate].
    apply guess_spec in Hg1 as [_ Hg1].
    specialize (Hg1 Hf ltac:(discriminate)).
    pose proof (IH bc ltac:(lia)) as H1.
    destruct (solve_with_backtrack d bc row_hints col_hints);
      try discriminate; [|contradiction].
    destruct (guess b1 r c 0) as [bc0|] eqn:Hg0; [|discriminate].
    apply guess_spec in Hg0 as [_ Hg0].
    specialize (Hg0 Hf ltac:(discriminate)).
    apply IH. lia.
Qed.

(** Allowing one more nested call does not change what a call that stayed
    within its allowance does. *)
Lemma solve_with_backtrack_deeper (row_hints col_hints : list clue) (depth : nat) :
  forall b,
  solve_with_backtrack depth b row_hints col_hints <> TooDeep ->
  solve_with_backtrack (S depth) b row_hints col_hints
  = solve_with_backtrack depth b row_hints col_hints.
Proof.
  induction depth as [|d IH]; intros b H;
    rewrite (solve_with_backtrack_unfold (S _));
    rewrite solve_with_backtrack_unfold in H;
    rewrite (solve_with_backtrack_unfold _ b);
    destruct (solve_with_constraint_propagation b row_hints col_hints)
      as [b1|]; try reflexivity;
    destruct (first_unknown b1 (seq 0 (length b1)) (seq 0 (row_width b1)))
      as [[[r c]|]|]; try reflexivity.
  - contradiction.
  - destruct (guess b1 r c 1) as [bc|]; [|reflexivity].
    destruct (solve_with_backtrack d bc row_hints col_hints) eqn:E1;
      try (rewrite IH; rewrite E1; [reflexivity|discriminate]).
    + rewrite IH; rewrite E1; [|discriminate].
      destruct (guess b1 r c 0) as [bc0|]; [|reflexivity].
      apply IH. exact H.
    + contradiction.
Qed.

Lemma solve_with_backtrack_enough (row_hints col_hints : list clue) (b : board)
    (depth : nat) :
  (count_unknown b <= depth)%nat ->
  solve_with_backtrack depth b row_hints col_hints
  = solve_with_backtrack (count_unknown b) b row_hints col_hints.
Proof.
  induction 1 as [|d Hle IH]; [reflexivity|].
  rewrite <- IH. apply solve_with_backtrack_deeper.
  now apply solve_with_backtrack_depth.
Qed.

Lemma row_width_shape (b : board) : row_width b = hd 0%nat (shape b).
Proof. destruct b; reflexivity. Qed.

Lemma count_unknown_cells (b : board) :
  (count_unknown b <= list_sum (shape b))%nat.
Proof.
  unfold count_unknown, shape, count_unknown_line.
  induction b as [|row b IH]; simpl; [lia|].
  pose proof (count_occ_bound Z.eq_dec Unknown row). lia.
Qed.

Lemma matrix_cells (b : board) :
  is_matrix b -> list_sum (shape b) = (length b * row_width b)%nat.
Proof.
  unfold is_matrix. rewrite row_width_shape.
  replace (length b) with (length (shape b)) by apply length_map.
  generalize (hd 0%nat (shape b)) as w. intro w.
  induction 1 as [|n l Hn _ IH]; simpl; [reflexivity|]. subst n. lia.
Qed.

(** C7: [solve_with_backtrack] ends on every input with at most as many
    nested recursive calls as the board it is given has Unknown cells: with
    that allowance, or any larger one, the call never asks for a deeper
    call, and a larger allowance does not change what it returns.  The
    number of Unknown cells is at most the number of cells, which is R*C on
    an R x C board. *)
Theorem solve_with_backtrack_terminates (depth : nat) (b : board)
    (row_hints col_hints : list clue) :
  (count_unknown b <= depth)%nat ->
  solve_with_backtrack depth b row_hints col_hints <> TooDeep /\
  solve_with_backtrack depth b row_hints col_hints
  = solve_with_backtrack (count_unknown b) b row_hints col_hints /\
  (count_unknown b <= list_sum (shape b))%nat /\
  (is_matrix b -> list_sum (shape b) = (length b * row_width b)%nat).
Proof.
  intro H. split; [now apply solve_with_backtrack_depth|].
  split; [now apply solve_with_backtrack_enough|].
  split; [apply count_unknown_cells | apply matrix_cells].
Qed.

Lemma solve_with_backtrack_terminates_witness :
  let b := fresh_board 3 3 in
  let hints := [[1]; [1]; [1]] in
  solve_with_backtrack 9 b hints hints <> TooDeep /\
  solve_with_backtrack 9 b hints hints
  = solve_with_backtrack (count_unknown b) b hints hints /\
  (count_unknown b <= list_sum (shape b))%nat /\
  (is_matrix b -> list_sum (shape b) = (length b * row_width b)%nat).
Proof.
  apply (solve_with_backtrack_terminates 9 (fresh_board 3 3)).
  vm_compute. lia.
Defined.

(** C2: each line solver, the dispatcher, a propagation pass and the whole
    propagation return a line (a board) of the same length (shape) in which
    every cell that was Filled or Blank before has kept its value: only
    Unknown cells are overwritten. *)
Theorem solvers_keep_determined_cells (hints : clue) (len : Z) (ms res : line)
    (b b' : board) (row_hints col_hints : list clue) (changed : bool) :
  (determine_certain_by_range hints len ms = Ok res ->
   keeps_determined ms res) /\
  (determine_certain_by_patterns hints len ms = Ok res ->
   keeps_determined ms res) /\
  (determine_certain_cells hints len ms = Ok res ->
   keeps_determined ms res) /\
  (propagation_pass b row_hints col_hints = Ok (b', changed) ->
   board_keeps_determined b b') /\
  (solve_with_constraint_propagation b row_hints col_hints = Ok b' ->
   board_keeps_determined b b').
Proof.
  split; [apply by_range_keeps|].
  split; [apply by_patterns_keeps|].
  split; [apply cells_keeps|].
  split; [apply propagation_pass_keeps | apply propagation_keeps].
Qed.

(** C8: when the loop of [solve_with_constraint_propagation] has ended on a
    pass that changed no cell, running it on the board it returned ends
    after one pass and returns that board again. *)
Theorem propagation_idempotent_at_fixpoint (b b' : board)
    (row_hints col_hints : list clue) :
  propagation_loop max_iterations row_hints col_hints b true = Ok (b', false) ->
  solve_with_constraint_propagation b row_hints col_hints = Ok b' /\
  propagation_pass b' row_hints col_hints = Ok (b', false) /\
  solve_with_constraint_propagation b' row_hints col_hints = Ok b'.
Proof.
  intro H. pose proof (propagation_loop_fixpoint _ _ _ _ _ H) as Hpass.
  unfold solve_with_constraint_propagation. rewrite H.
  split; [reflexivity|]. split; [assumption|].
  unfold max_iterations.
  change (propagation_loop 1000 row_hints col_hints b' true)
    with ('(b1, c1) <- propagation_pass b' row_hints col_hints ;;
          propagation_loop 999 row_hints col_hints b1 c1).
  rewrite Hpass. reflexivity.
Qed.

Lemma propagation_idempotent_at_fixpoint_witness :
  solve_with_constraint_propagation (fresh_board 2 2) [[2]; [0]] [[1]; [1]]
  = Ok [[1; 1]; [0; 0]] /\
  propagation_pass [[1; 1]; [0; 0]] [[2]; [0]] [[1]; [1]]
  = Ok ([[1; 1]; [0; 0]], false) /\
  solve_with_constraint_propagation [[1; 1]; [0; 0]] [[2]; [0]] [[1]; [1]]
  = Ok [[1; 1]; [0; 0]].
Proof.
  apply (propagation_idempotent_at_fixpoint (fresh_board 2 2)).
  vm_compute. reflexivity.
Defined.

Lemma solvers_keep_determined_cells_witness :
  keeps_determined [0; -1; -1; -1; -1] [0; -1; 1; -1; -1] /\
  keeps_determined [-1; 0; -1; -1; -1] [1; 0; -1; 1; -1] /\
  board_keeps_determined [[-1; -1]; [0; -1]] [[1; 1]; [0; 0]].
Proof.
  destruct (solvers_keep_determined_cells [3] 5 [0; -1; -1; -1; -1]
              [0; -1; 1; -1; -1] [] [] [] [] false) as (H1 & _).
  destruct (solvers_keep_determined_cells [1; 2] 5 [-1; 0; -1; -1; -1]
              [1; 0; -1; 1; -1] [[-1; -1]; [0; -1]] [[1; 1]; [0; 0]]
              [[2]; [0]] [[1]; [1]] true) as (_ & H2 & H3 & H4 & H5).
  split; [apply H1; reflexivity|].
  split; [apply H3; reflexivity|].
  apply H5. vm_compute. reflexivity.
Defined.

(** ** What a returned board went through *)

Lemma shape_keeps (b b' : board) :
  board_keeps_determined b b' -> shape b' = shape b.
Proof. now intros [H _]. Qed.

Lemma list_eqb_true (xs ys : list Z) : list_eqb xs ys = true -> xs = ys.
Proof.
  unfold list_eqb. destruct (list_eq_dec Z.eq_dec xs ys); [auto|discriminate].
Qed.

Lemma rows_valid_spec (b : board) (row_hints : list clue) (rs : list nat) :
  rows_valid b row_hints rs = Ok true ->
  forall r, In r rs ->
  exists row, nth_error b r = Some row /\
    (all_determined row = true -> nth_error row_hints r = Some (get_blocks row)).
Proof.
  induction rs as [|r0 rs IH]; intros H r Hr; simpl in *; [tauto|].
  inv_bind. apply get_ok in Hm.
  destruct (all_determined a) eqn:Ed.
  - inv_bind. apply get_ok in Hm0.
    destruct (list_eqb (get_blocks a) a0) eqn:Eq; [|inv_bind; discriminate].
    apply list_eqb_true in Eq. subst a0.
    destruct Hr as [<-|Hr]; [eauto|auto].
  - destruct Hr as [<-|Hr]; [|auto].
    exists a. split; [assumption|]. intro. congruence.
Qed.

Lemma cols_valid_spec (b : board) (col_hints : list clue) (cs : list nat) :
  cols_valid b col_hints cs = Ok true ->
  forall c, In c cs ->
  exists col, column b c = Ok col /\
    (all_determined col = true -> nth_error col_hints c = Some (get_blocks col)).
Proof.
  induction cs as [|c0 cs IH]; intros H c Hc; simpl in *; [tauto|].
  inv_bind.
  destruct (all_determined a) eqn:Ed.
  - inv_bind. apply get_ok in Hm0.
    destruct (list_eqb (get_blocks a) a0) eqn:Eq; [|inv_bind; discriminate].
    apply list_eqb_true in Eq. subst a0.
    destruct Hc as [<-|Hc]; [eauto|auto].
  - destruct Hc as [<-|Hc]; [|auto].
    exists a. split; [assumption|]. intro. congruence.
Qed.

Lemma matrix_row (b : board) (r : nat) (row : line) :
  is_matrix b -> nth_error b r = Some row -> length row = row_width b.
Proof.
  unfold is_matrix. rewrite Forall_forall, row_width_shape. intros H Hr.
  apply H. unfold shape. apply in_map. eapply nth_error_In; eauto.
Qed.

Lemma column_cells (b : board) (c : nat) (col : line) :
  column b c = Ok col ->
  length col = length b /\
  forall r x, nth_error col r = Some x -> cell_at b r c = Some x.
Proof.
  unfold column. intro H. apply comprehension_spec in H as [Hl Hpt].
  split; [assumption|]. intros r x Hx.
  assert (Hr : (r < length b)%nat).
  { rewrite <- Hl. apply nth_error_Some. congruence. }
  destruct (nth_error b r) as [row|] eqn:Er; [|apply nth_error_None in Er; lia].
  destruct (Hpt r row Er) as (a & Ha & Hn). apply get_ok in Ha.
  unfold cell_at. rewrite Er. congruence.
Qed.

Lemma all_determined_true (l : line) :
  (forall i x, nth_error l i = Some x -> x <> Unknown) ->
  all_determined l = true.
Proof.
  intro H. unfold all_determined. apply forallb_forall. intros x Hx.
  apply In_nth_error in Hx as (i & Hi).
  apply negb_true_iff, Z.eqb_neq. exact (H i x Hi).
Qed.

(** A board that [solve_with_backtrack] returns has the shape of the board
    given, went through the scan without an unknown cell being found, and
    through the validator. *)
Lemma solved_board (row_hints col_hints : list clue) (b' : board) (depth : nat) :
  forall b,
  solve_with_backtrack depth b row_hints col_hints = Solved b' ->
  shape b' = shape b /\
  first_unknown b' (seq 0 (length b')) (seq 0 (row_width b')) = Ok None /\
  is_valid_board b' row_hints col_hints = Ok true.
Proof.
  induction depth as [|d IH]; intros b H;
    rewrite solve_with_backtrack_unfold in H;
    destruct (solve_with_constraint_propagation b row_hints col_hints)
      as [b1|] eqn:Hp; try discriminate;
    apply propagation_keeps, shape_keeps in Hp;
    destruct (first_unknown b1 (seq 0 (length b1)) (seq 0 (row_width b1)))
      as [[[r c]|]|] eqn:Hf; try discriminate.
  - destruct (is_valid_board b1 row_hints col_hints) as [[|]|] eqn:Hv;
      try discriminate. injection H as <-. auto.
  - destruct (guess b1 r c 1) as [bc|] eqn:Hg1; [|discriminate].
    apply guess_spec in Hg1 as [Hs1 _].
    destruct (solve_with_backtrack d bc row_hints col_hints) eqn:E1;
      try discriminate.
    + rewrite H in E1. destruct (IH _ E1) as (S1 & S2 & S3).
      split; [congruence|auto].
    + destruct (guess b1 r c 0) as [bc0|] eqn:Hg0; [|discriminate].
      apply guess_spec in Hg0 as [Hs0 _].
      destruct (IH _ H) as (S1 & S2 & S3). split; [congruence|auto].
  - destruct (is_valid_board b1 row_hints col_hints) as [[|]|] eqn:Hv;
      try discriminate. injection H as <-. auto.
Qed.

(** C1: on a board that is a matrix, a board returned by
    [solve_with_backtrack] has the shape of the board given, holds no
    Unknown cell, has [get_blocks] of every row equal to the clue of that
    row and [get_blocks] of every column equal to the clue of that column,
    and passes [is_valid_board]. *)
Theorem solve_with_backtrack_returns_valid (depth : nat) (b b' : board)
    (row_hints col_hints : list clue) :
  is_matrix b ->
  solve_with_backtrack depth b row_hints col_hints = Solved b' ->
  shape b' = shape b /\
  (forall r c x, cell_at b' r c = Some x -> x <> Unknown) /\
  (forall r row, nth_error b' r = Some row ->
                 nth_error row_hints r = Some (get_blocks row)) /\
  (forall c, (c < row_width b')%nat ->
             exists col, column b' c = Ok col /\ length col = length b' /\
                         nth_error col_hints c = Some (get_blocks col)) /\
  is_valid_board b' row_hints col_hints = Ok true.
Proof.
  intros Hmat H. apply solved_board in H as (Hshape & Hscan & Hvalid).
  assert (Hmat' : is_matrix b').
  { unfold is_matrix in *. now rewrite Hshape. }
  apply first_unknown_spec in Hscan.
  assert (Hcells : forall r c x, cell_at b' r c = Some x -> x <> Unknown).
  { intros r c x Hx. unfold cell_at in Hx.
    destruct (nth_error b' r) as [row|] eqn:Hr; [|discriminate].
    destruct (Hscan r c) as (y & Hy & Hd).
    - apply in_seq. split; [lia|]. apply nth_error_Some. congruence.
    - apply in_seq. split; [lia|]. rewrite <- (matrix_row _ _ _ Hmat' Hr).
      apply nth_error_Some. congruence.
    - unfold cell_at in Hy. rewrite Hr in Hy. congruence. }
  split; [assumption|]. split; [assumption|].
  pose proof Hvalid as Hv. unfold is_valid_board in Hv. inv_bind.
  destruct a; [|discriminate].
  split; [|split; [|assumption]].
  - intros r row Hr.
    destruct (rows_valid_spec _ _ _ Hm r) as (row' & Hr' & Hblocks).
    { apply in_seq. split; [lia|]. apply nth_error_Some. congruence. }
    assert (row' = row) by congruence. subst row'.
    apply Hblocks, all_determined_true. intros i x Hx.
    apply (Hcells r i x). unfold cell_at. now rewrite Hr.
  - intros c Hc.
    destruct (cols_valid_spec _ _ _ Hk c) as (col & Hcol & Hblocks).
    { apply in_seq. lia. }
    exists col. split; [assumption|].
    destruct (column_cells _ _ _ Hcol) as (Hl & Hpt).
    split; [assumption|].
    apply Hblocks, all_determined_true. intros i x Hx.
    exact (Hcells i c x (Hpt i x Hx)).
Qed.

Lemma solve_with_backtrack_returns_valid_witness :
  let b' := [[1; 0; 0]; [0; 1; 0]; [0; 0; 1]] in
  shape b' = shape (fresh_board 3 3) /\
  (forall r c x, cell_at b' r c = Some x -> x <> Unknown) /\
  (forall r row, nth_error b' r = Some row ->
                 nth_error [[1]; [1]; [1]] r = Some (get_blocks row)) /\
  (forall c, (c < row_width b')%nat ->
             exists col, column b' c = Ok col /\ length col = length b' /\
                         nth_error [[1]; [1]; [1]] c = Some (get_blocks col)) /\
  is_valid_board b' [[1]; [1]; [1]] [[1]; [1]; [1]] = Ok true.
Proof.
  apply (solve_with_backtrack_returns_valid 9 (fresh_board 3 3)).
  - repeat constructor.
  - vm_compute. reflexivity.
Defined.

(** ** The history kept by [solve_puzzle] *)

Lemma last_cons (x d : board) (l : list board) : last (x :: l) d = last l x.
Proof.
  revert x d. induction l as [|y l IH]; intros x d; [reflexivity|].
  change (last (x :: y :: l) d) with (last (y :: l) d).
  now rewrite (IH y d), (IH y x).
Qed.

Lemma puzzle_loop_history (row_hints col_hints : list clue)
    (num_rows num_cols : nat) (its : list nat) :
  forall b0 h0 b history,
  puzzle_loop row_hints col_hints num_rows num_cols its b0 h0
  = Ok (b, history) ->
  exists ext,
    history = h0 ++ ext /\
    snapshots row_hints col_hints num_rows num_cols b0 its ext /\
    (its <> [] -> ext <> []) /\
    (length ext <= length its)%nat /\
    last ext b0 = b.
Proof.
  induction its as [|it its IH]; intros b0 h0 b history H; simpl in H.
  - inv_bind. exists []. rewrite app_nil_r.
    repeat split; auto.
  - inv_bind. destruct a as [b1 changed]. destruct changed.
    + apply IH in Hk as (ext & -> & Hsnap & _ & Hlen & Hlast).
      exists (b1 :: ext). rewrite <- app_assoc. split; [reflexivity|].
      split; [|split; [discriminate|split; [simpl; lia|]]].
      * simpl. exists true. auto.
      * now rewrite last_cons.
    + inv_bind. eexists. split; [reflexivity|].
      split; [|split; [discriminate|split; [simpl; lia|reflexivity]]].
      simpl. exists false. split; [assumption|]. split; [congruence|exact I].
Qed.

(** C9, as the code has it: [solve_puzzle] appends exactly one snapshot
    after each iteration of its loop, where an iteration applies the
    dispatcher either to every column (iterations 0, 2, 4, ...) or to every
    row (iterations 1, 3, 5, ...), never to both; the history holds between
    one and ten snapshots, one per iteration run, the last one being the
    final board. *)
Theorem solve_puzzle_history (row_hints col_hints : list clue) (b : board)
    (history : list board) :
  solve_puzzle row_hints col_hints = Ok (Some b, history) ->
  let num_rows := length row_hints in
  let num_cols := length col_hints in
  snapshots row_hints col_hints num_rows num_cols
    (fresh_board num_rows num_cols) (seq 0 10) history /\
  (1 <= length history <= 10)%nat /\
  last history (fresh_board num_rows num_cols) = b.
Proof.
  unfold solve_puzzle. intro H.
  destruct row_hints as [|rh0 rhs]; [inv_bind; discriminate|].
  destruct col_hints as [|ch0 chs]; [inv_bind; discriminate|].
  inv_bind. destruct a as [b1 h]. inv_bind.
  apply puzzle_loop_history in Hm as (ext & -> & Hsnap & Hne & Hlen & Hlast).
  simpl app. cbv zeta. split; [assumption|]. split; [|assumption].
  split; [|exact Hlen].
  destruct ext; [exfalso; now apply Hne | simpl; lia].
Qed.

Lemma solve_puzzle_history_witness :
  let filled := [[1; 1; 1]; [1; 1; 1]; [1; 1; 1]] in
  snapshots [[3]; [3]; [3]] [[3]; [3]; [3]] 3 3
    (fresh_board 3 3) (seq 0 10) [filled; filled] /\
  (1 <= length [filled; filled] <= 10)%nat /\
  last [filled; filled] (fresh_board 3 3) = filled.
Proof.
  apply (solve_puzzle_history [[3]; [3]; [3]] [[3]; [3]; [3]]).
  vm_compute. reflexivity.
Defined.

(** C9 as stated fails: for row clues [[2]], [[0]] and column clues [[1]],
    [[1]] the history ends with a single snapshot, taken after the columns
    alone were processed (nothing is determined in it), while a pass over
    every column and then every row determines all four cells. *)
Lemma history_snapshot_after_columns_only :
  solve_puzzle [[2]; [0]] [[1]; [1]]
  = Ok (Some (fresh_board 2 2), [fresh_board 2 2]) /\
  propagation_pass (fresh_board 2 2) [[2]; [0]] [[1]; [1]]
  = Ok ([[Filled; Filled]; [Blank; Blank]], true) /\
  fresh_board 2 2 <> [[Filled; Filled]; [Blank; Blank]].
Proof.
  split; [vm_compute; reflexivity|].
  split; [vm_compute; reflexivity|].
  discriminate.
Qed.

(** * Further properties of the line functions *)

(** ** [get_blocks] and the filled cells *)

Lemma finish_loop_blocks (l : line) :
  forall acc c, 0 <= c ->
  exists bs, finish (get_blocks_loop l acc c) = acc ++ bs /\
             Forall (fun b => 0 < b) bs /\
             sum bs = c + Z.of_nat (count_occ Z.eq_dec l Filled).
Proof.
  unfold Filled.
  induction l as [|x l IH]; intros acc c Hc; simpl get_blocks_loop.
  - simpl. destruct (c >? 0) eqn:E.
    + exists [c]. split; [reflexivity|]. split; [|simpl; lia].
      constructor; [lia|constructor].
    + exists []. rewrite app_nil_r. split; [reflexivity|].
      split; [constructor|simpl; lia].
  - simpl count_occ. destruct (Z.eq_dec x 1) as [->|Hx].
    + simpl. destruct (IH acc (c + 1)) as (bs & H1 & H2 & H3); [lia|].
      exists bs. split; [assumption|]. split; [assumption|lia].
    + apply Z.eqb_neq in Hx. rewrite Hx. destruct (c >? 0) eqn:E.
      * destruct (IH (acc ++ [c]) 0) as (bs & H1 & H2 & H3); [lia|].
        exists (c :: bs). rewrite H1, <- app_assoc.
        split; [reflexivity|]. split; [constructor; [lia|assumption]|].
        simpl. fold (sum bs). lia.
      * destruct (IH acc c Hc) as (bs & H1 & H2 & H3).
        exists bs. split; [assumption|]. split; assumption.
Qed.

Lemma positive_sum (bs : list Z) :
  Forall (fun b => 0 < b) bs -> sum bs = 0 -> bs = [].
Proof.
  intros H. destruct H as [|b bs Hb Hbs]; [reflexivity|].
  pose proof (sum_nonneg bs (positive_nonneg _ Hbs)). simpl. fold (sum bs). lia.
Qed.

(** X1: [get_blocks] never returns an empty list; the lengths it returns add
    up to the number of Filled cells of the line; it returns [[0]] when the
    line has no Filled cell, and only positive lengths otherwise. *)
Theorem get_blocks_counts_filled (l : line) :
  get_blocks l <> [] /\
  sum (get_blocks l) = Z.of_nat (count_occ Z.eq_dec l Filled) /\
  (count_occ Z.eq_dec l Filled = 0%nat -> get_blocks l = [0]) /\
  (count_occ Z.eq_dec l Filled <> 0%nat ->
   Forall (fun b => 0 < b) (get_blocks l)).
Proof.
  rewrite get_blocks_finish.
  destruct (finish_loop_blocks l [] 0) as (bs & -> & Hpos & Hsum); [lia|].
  simpl app. destruct bs as [|b bs].
  - simpl in Hsum. split; [discriminate|]. split; [simpl; lia|].
    split; [reflexivity|]. intro H. lia.
  - split; [discriminate|]. split; [lia|]. split.
    + intro H. rewrite H in Hsum.
      apply positive_sum in Hsum; [discriminate|assumption].
    + intros _. exact Hpos.
Qed.

(** X2: [get_blocks] reads every cell that is not Filled as a separator: on
    a line with Unknown cells it returns what it returns on the line with
    each of them replaced by a Blank cell. *)
Theorem get_blocks_unknown_as_blank (l : line) :
  get_blocks (map (fun cell => if cell =? Filled then Filled else Blank) l)
  = get_blocks l.
Proof.
  unfold get_blocks.
  assert (H : forall acc c,
    get_blocks_loop
      (map (fun cell => if cell =? Filled then Filled else Blank) l) acc c
    = get_blocks_loop l acc c).
  { unfold Filled, Blank. induction l as [|x l IH]; intros acc c; simpl.
    - reflexivity.
    - destruct (x =? 1) eqn:E; simpl; [apply IH|].
      destruct (c >? 0); apply IH. }
  now rewrite H.
Qed.

(** ** Every completion of a line is a placement *)

Lemma loop_acc (l : line) :
  forall acc c,
  finish (get_blocks_loop l acc c) = acc ++ finish (get_blocks_loop l [] c).
Proof.
  induction l as [|x l IH]; intros acc c; simpl get_blocks_loop.
  - simpl. destruct (c >? 0); [reflexivity|now rewrite app_nil_r].
  - destruct (x =? 1); [apply IH|]. destruct (c >? 0); [|apply IH].
    rewrite (IH (acc ++ [c])), (IH ([] ++ [c])). now rewrite <- app_assoc.
Qed.

Lemma times_succ (v n : Z) : 0 <= n -> times v (n + 1) = v :: times v n.
Proof.
  intro H. unfold times. replace (Z.to_nat (n + 1)) with (S (Z.to_nat n)) by lia.
  reflexivity.
Qed.

Lemma times_zero (v : Z) : times v 0 = [].
Proof. reflexivity. Qed.

Lemma no_filled_blank (l : line) :
  Forall binary l -> count_occ Z.eq_dec l Filled = 0%nat ->
  l = times Blank (Py.len l).
Proof.
  unfold binary, Filled, Blank, Py.len.
  induction 1 as [|x l Hx Hl IH]; intro Hc; [reflexivity|].
  simpl in Hc. destruct (Z.eq_dec x 1) as [|Hne]; [discriminate|].
  destruct Hx as [E | E]; [contradiction|]. subst x.
  simpl length. rewrite Nat2Z.inj_succ, <- Z.add_1_r, times_succ by lia.
  f_equal. auto.
Qed.

Lemma split_blanks (p : line) :
  Forall binary p ->
  exists g rest, p = times 0 g ++ rest /\ 0 <= g /\
                 (rest = [] \/ exists r', rest = 1 :: r').
Proof.
  unfold binary, Filled, Blank.
  induction 1 as [|x l Hx Hl IH].
  - exists 0, []. split; [reflexivity|]. split; [lia|now left].
  - destruct Hx as [E | E]; subst x.
    + exists 0, (1 :: l). split; [reflexivity|]. split; [lia|]. right. eauto.
    + destruct IH as (g & rest & -> & Hg & Hrest).
      exists (g + 1), rest. rewrite times_succ by assumption.
      split; [reflexivity|]. split; [lia|assumption].
Qed.

Lemma split_filled (p : line) :
  Forall binary p ->
  exists n rest, p = times 1 n ++ rest /\ 0 <= n /\
                 (rest = [] \/ exists r', rest = 0 :: r').
Proof.
  unfold binary, Filled, Blank.
  induction 1 as [|x l Hx Hl IH].
  - exists 0, []. split; [reflexivity|]. split; [lia|now left].
  - destruct Hx as [E | E]; subst x.
    + destruct IH as (n & rest & -> & Hn & Hrest).
      exists (n + 1), rest. rewrite times_succ by assumption.
      split; [reflexivity|]. split; [lia|assumption].
    + exists 0, (0 :: l). split; [reflexivity|]. split; [lia|]. right. eauto.
Qed.

Lemma no_block_blank (l : line) :
  Forall binary l -> finish (get_blocks_loop l [] 0) = [] ->
  l = times 0 (Py.len l).
Proof.
  intros Hb Hf. apply no_filled_blank; [assumption|].
  destruct (finish_loop_blocks l [] 0) as (bs & Hbs & _ & Hsum); [lia|].
  rewrite Hf in Hbs. simpl in Hbs. subst bs. simpl in Hsum. lia.
Qed.

Lemma blocks_placed (len : Z) (blocks : clue) :
  forall pos p,
  Forall (fun b => 0 < b) blocks ->
  Forall binary p ->
  Py.len p = len - pos ->
  finish (get_blocks_loop p [] 0) = blocks ->
  placed len blocks pos p.
Proof.
  induction blocks as [|b later IH]; intros pos p Hpos Hbin Hlen Hf.
  - simpl. rewrite <- Hlen. now apply no_block_blank.
  - pose proof (Forall_inv_tail Hpos) as Hl.
    destruct (split_blanks p Hbin) as (g & rest & -> & Hg & Hrest).
    rewrite loop_blanks in Hf.
    apply Forall_app in Hbin as [_ Hbin].
    rewrite len_app, len_times in Hlen.
    destruct Hrest as [->|(r' & Hr')]; [discriminate|].
    destruct (split_filled rest Hbin) as (n & rest2 & -> & Hn & Hrest2).
    assert (Hn1 : 0 < n).
    { destruct (Z.eq_dec n 0) as [->|]; [|lia]. simpl in Hr'.
      destruct Hrest2 as [->|(r3 & ->)]; discriminate. }
    rewrite loop_filled in Hf by assumption. rewrite Z.add_0_l in Hf.
    apply Forall_app in Hbin as [_ Hbin2].
    rewrite len_app, len_times in Hlen.
    destruct Hrest2 as [->|(r3 & ->)].
    + simpl in Hf. destruct (n >? 0) eqn:E; [|lia].
      injection Hf as <- <-. unfold Py.len in Hlen. simpl in Hlen.
      simpl. exists (pos + g), []. unfold Py.len. simpl.
      split; [lia|]. split.
      * replace (pos + g - pos) with g by lia. reflexivity.
      * replace (len - (pos + g + n)) with 0 by lia. reflexivity.
    + simpl get_blocks_loop in Hf. destruct (n >? 0) eqn:E; [|lia].
      rewrite loop_acc in Hf. simpl in Hf. injection Hf as <- Hlater.
      pose proof (Forall_inv_tail Hbin2) as Hbin3.
      change (0 :: r3) with ([0] ++ r3) in Hlen. rewrite len_app in Hlen.
      change (Py.len [0]) with 1 in Hlen.
      pose proof (Zle_0_nat (length r3)) as Hr3. fold (Py.len r3) in Hr3.
      destruct later as [|b2 l2].
      * simpl. exists (pos + g), (0 :: r3). unfold Py.len at 1. simpl length.
        split; [simpl; lia|]. split.
        -- replace (pos + g - pos) with g by lia. reflexivity.
        -- rewrite (no_block_blank r3 Hbin3 Hlater).
           replace (len - (pos + g + n)) with (Py.len r3 + 1) by lia.
           now rewrite times_succ.
      * assert (Hp : placed len (b2 :: l2) (pos + g + n + 1) r3).
        { apply IH; auto. lia. }
        simpl. exists (pos + g), r3. split; [|split].
        -- simpl in Hp. destruct Hp as (s2 & t2 & Hs2 & _).
           cbn [sum fold_right]. fold (sum l2).
           unfold Py.len in *. simpl length. lia.
        -- replace (pos + g - pos) with g by lia. reflexivity.
        -- exact Hp.
Qed.

(** ** Every compatible placement is enumerated *)

Lemma compatible_holds (ms p : line) (idxs : list nat) :
  (forall i, In i idxs ->
   exists m, nth_error ms i = Some m /\ (m = -1 \/ nth_error p i = Some m)) ->
  compatible ms p idxs = Ok true.
Proof.
  induction idxs as [|k idxs IH]; intro H; simpl; [reflexivity|].
  destruct (H k) as (m & Hm & Hcase); [simpl; auto|].
  unfold conflict. apply get_ok in Hm. rewrite Hm. simpl.
  destruct (m =? -1) eqn:E; simpl.
  - apply IH. intros. apply H. simpl. auto.
  - apply Z.eqb_neq in E. destruct Hcase as [|Hp]; [contradiction|].
    apply get_ok in Hp. rewrite Hp. simpl. rewrite Z.eqb_refl. simpl.
    apply IH. intros. apply H. simpl. auto.
Qed.

Lemma agreement_compatible (ms p : line) (idxs : list nat) :
  (forall i, In i idxs -> (i < length ms)%nat) ->
  (forall i x, nth_error ms i = Some x -> x <> Unknown ->
               nth_error p i = Some x) ->
  compatible ms p idxs = Ok true.
Proof.
  intros Hr Ha. apply compatible_holds. intros i Hi.
  destruct (nth_error ms i) as [m|] eqn:Hm.
  - exists m. split; [reflexivity|].
    destruct (Z.eq_dec m (-1)); [now left|right; now apply Ha].
  - apply nth_error_None in Hm. specialize (Hr i Hi). lia.
Qed.

Lemma backtrack_complete (len : Z) (ms : line) (blocks : clue) :
  Py.len ms = len ->
  forall pos cur t res,
  Forall (fun b => 0 <= b) blocks ->
  Py.len cur = pos ->
  placed len blocks pos t ->
  (forall i x, nth_error ms i = Some x -> x <> Unknown ->
               nth_error (cur ++ t) i = Some x) ->
  backtrack len ms blocks pos cur = Ok res ->
  In (cur ++ t) res.
Proof.
  intro Hms. induction blocks as [|b later IH];
    intros pos cur t res Hnn Hcur Hpl Hag Hres.
  - simpl in Hpl, Hres. subst t. rewrite agreement_compatible in Hres.
    + simpl in Hres. inv_bind. simpl. auto.
    + intros i Hi. apply in_range in Hi. unfold Py.len in Hms. lia.
    + assumption.
  - simpl in Hpl. destruct Hpl as (s & t' & Hs & -> & Hpl).
    pose proof (Forall_inv Hnn) as Hb. pose proof (Forall_inv_tail Hnn) as Hl.
    pose proof (sum_nonneg _ Hl) as Hsum. cbv beta in Hb.
    pose proof (Zle_0_nat (length later)) as Hll. fold (Py.len later) in Hll.
    simpl in Hres. apply (for_starts_in _ _ _ _ Hres). right.
    set (new_pattern := cur ++ times 0 (s - pos) ++ times 1 b) in *.
    assert (Hnew : Py.len new_pattern = s + b).
    { unfold new_pattern. rewrite !len_app, !len_times. lia. }
    assert (Hc : compatible ms new_pattern (seq 0 (length new_pattern))
                 = Ok true).
    { apply compatible_holds. intros i Hi. apply in_seq in Hi.
      destruct (nth_error ms i) as [m|] eqn:Hm.
      - exists m. split; [reflexivity|].
        destruct (Z.eq_dec m (-1)) as [|Hd]; [now left|right].
        specialize (Hag i m Hm Hd). unfold new_pattern in *.
        rewrite !app_assoc in Hag. rewrite <- !app_assoc in Hag.
        rewrite app_assoc, app_assoc in Hag.
        rewrite nth_error_app1 in Hag; [|rewrite <- !app_assoc; lia].
        now rewrite <- !app_assoc in Hag.
      - apply nth_error_None in Hm. unfold Py.len in *. lia. }
    destruct later as [|b2 l2].
    + destruct (backtrack_total len ms [] Hms Hl (s + b) new_pattern Hnew)
        as (found & Hfound).
      exists s, found. split; [apply in_range_from; simpl in Hs |- *; lia|].
      split; [cbv beta; fold new_pattern; rewrite Hc; exact Hfound|].
      replace (cur ++ times 0 (s - pos) ++ times 1 b ++ t')
        with (new_pattern ++ t')
        by (unfold new_pattern; now rewrite <- !app_assoc).
      apply (IH (s + b) new_pattern t' found); auto.
      unfold new_pattern. rewrite <- !app_assoc. exact Hag.
    + destruct (backtrack_total len ms (b2 :: l2) Hms Hl (s + b + 1)
                  (new_pattern ++ [0])) as (found & Hfound).
      { rewrite len_app, Hnew. reflexivity. }
      exists s, found. split; [apply in_range_from; lia|].
      split; [cbv beta; fold new_pattern; rewrite Hc; exact Hfound|].
      replace (cur ++ times 0 (s - pos) ++ times 1 b ++ 0 :: t')
        with ((new_pattern ++ [0]) ++ t')
        by (unfold new_pattern; now rewrite <- !app_assoc).
      apply (IH (s + b + 1) (new_pattern ++ [0]) t' found); auto.
      * rewrite len_app, Hnew. reflexivity.
      * unfold new_pattern. rewrite <- !app_assoc. exact Hag.
Qed.

(** ** Completions of a line state *)

Lemma completion_clue (hints : clue) (len : Z) (ms p : line) :
  is_completion hints len ms p ->
  no_blocks hints = true \/ Forall (fun b => 0 < b) hints.
Proof.
  intros (_ & _ & _ & Hb). destruct (no_blocks hints) eqn:Hz; [now left|right].
  rewrite get_blocks_finish in Hb.
  destruct (finish_loop_blocks p [] 0) as (bs & Hbs & Hpos & _); [lia|].
  rewrite Hbs in Hb. simpl in Hb. destruct bs; [|now subst hints].
  subst hints. discriminate.
Qed.

Lemma completion_nonneg (hints : clue) (len : Z) (ms p : line) :
  is_completion hints len ms p -> Forall (fun b => 0 <= b) hints.
Proof.
  intro H. destruct (completion_clue _ _ _ _ H);
    [now apply no_blocks_nonneg | now apply positive_nonneg].
Qed.

Lemma completion_placed (hints : clue) (len : Z) (ms p : line) :
  is_completion hints len ms p -> no_blocks hints = false ->
  placed len hints 0 p.
Proof.
  intros H Hz. pose proof (completion_clue _ _ _ _ H) as [Hc|Hc]; [congruence|].
  destruct H as (Hlen & Hbin & _ & Hb). rewrite Hz in Hb.
  apply blocks_placed; auto; [lia|].
  rewrite get_blocks_finish in Hb.
  destruct (finish (get_blocks_loop p [] 0)); [|assumption].
  subst hints. apply Forall_inv in Hc. lia.
Qed.

Lemma completion_blank (hints : clue) (len : Z) (ms p : line) :
  is_completion hints len ms p -> no_blocks hints = true -> p = times 0 len.
Proof.
  intros (Hlen & Hbin & _ & Hb) Hz. rewrite Hz in Hb. rewrite <- Hlen.
  apply no_block_blank; [assumption|].
  rewrite get_blocks_finish in Hb.
  destruct (finish_loop_blocks p [] 0) as (bs & Hbs & Hpos & _); [lia|].
  rewrite Hbs in *. simpl in *. destruct bs as [|b bs]; [reflexivity|].
  injection Hb as -> _. apply Forall_inv in Hpos. lia.
Qed.

Lemma completion_cell (hints : clue) (len : Z) (ms p : line) (i : nat) :
  is_completion hints len ms p -> Z.of_nat i < len ->
  exists v, nth_error p i = Some v /\ binary v.
Proof.
  intros (Hlen & Hbin & _) Hi.
  destruct (nth_error p i) as [v|] eqn:Hv.
  - exists v. split; [reflexivity|].
    rewrite Forall_forall in Hbin. apply Hbin. eapply nth_error_In; eauto.
  - apply nth_error_None in Hv. unfold Py.len in Hlen. lia.
Qed.

Lemma placed_completion (hints : clue) (len : Z) (ms p : line) :
  0 <= len -> no_blocks hints = false ->
  Forall (fun b => 0 < b) hints ->
  placed len hints 0 p ->
  (forall i x, nth_error ms i = Some x -> x <> Unknown ->
               nth_error p i = Some x) ->
  is_completion hints len ms p.
Proof.
  intros Hlen Hz Hpos Hpl Hag. split; [|split; [|split]].
  - rewrite (placed_length _ _ _ _ (positive_nonneg _ Hpos) Hlen Hpl). lia.
  - exact (placed_values _ _ _ _ Hpl).
  - assumption.
  - rewrite Hz, get_blocks_finish, (placed_blocks len hints 0 p [] Hpos Hpl).
    simpl. destruct hints; [discriminate|reflexivity].
Qed.

Lemma has_filled_holds (ms : line) (idxs : list nat) :
  (forall i, In i idxs ->
             nth_error ms i = Some (-1) \/ nth_error ms i = Some 0) ->
  has_filled ms idxs = Ok false.
Proof.
  induction idxs as [|k idxs IH]; intro H; simpl; [reflexivity|].
  assert (Hk : get ms k = Ok (-1) \/ get ms k = Ok 0).
  { destruct (H k) as [E|E]; [simpl; auto| |]; apply get_ok in E; auto. }
  destruct Hk as [-> | ->]; simpl; apply IH; intros; apply H; simpl; auto.
Qed.

(** The enumeration is the set of completions. *)
Lemma patterns_exact (hints : clue) (len : Z) (ms : line) :
  Py.len ms = len ->
  no_blocks hints = true \/ Forall (fun b => 0 < b) hints ->
  exists pats, generate_all_patterns hints len ms = Ok pats /\
    forall p, In p pats <-> is_completion hints len ms p.
Proof.
  intros Hlen Hclue.
  assert (H0 : 0 <= len) by (unfold Py.len in Hlen; lia).
  assert (Hnn : Forall (fun b => 0 <= b) hints).
  { destruct Hclue; [now apply no_blocks_nonneg | now apply positive_nonneg]. }
  destruct (generate_all_patterns_sound hints len ms Hlen Hnn)
    as (pats & Hg & Hsound).
  exists pats. split; [assumption|]. intro p. split.
  - intro Hin. destruct (Hsound p Hin) as (H1 & H2 & H3 & H4).
    destruct (no_blocks hints) eqn:Hz.
    + subst p. repeat split; auto. rewrite Hz. apply get_blocks_blank.
    + destruct Hclue as [|Hpos]; [discriminate|].
      now apply placed_completion.
  - intro Hc. unfold generate_all_patterns in Hg.
    destruct (no_blocks hints) eqn:Hz.
    + pose proof (completion_blank _ _ _ _ Hc Hz) as ->.
      rewrite has_filled_holds in Hg.
      * simpl in Hg. inv_bind. simpl. auto.
      * intros i Hi. apply in_range in Hi.
        destruct (nth_error ms i) as [x|] eqn:Hx;
          [|apply nth_error_None in Hx; unfold Py.len in Hlen; lia].
        destruct (Z.eq_dec x (-1)) as [->|Hd]; [now left|right].
        destruct Hc as (_ & _ & Hag & _). specialize (Hag i x Hx Hd).
        rewrite nth_error_times in Hag by assumption. congruence.
    + pose proof (completion_placed _ _ _ _ Hc Hz) as Hpl.
      destruct Hc as (_ & _ & Hag & _).
      apply (backtrack_complete len ms hints Hlen 0 [] p pats); auto.
Qed.

(** X3: [generate_all_patterns] returns exactly the completions of the line
    state: for a clue of positive block lengths, [[0]] or the empty clue, on
    a line state of the declared length, a line is in the list it returns
    if and only if it has that length, holds only Filled and Blank cells,
    repeats the determined cells of the state and has the blocks of the
    clue. *)
Theorem generate_all_patterns_exact (hints : clue) (len : Z) (ms : line) :
  Py.len ms = len ->
  no_blocks hints = true \/ Forall (fun b => 0 < b) hints ->
  exists pats, generate_all_patterns hints len ms = Ok pats /\
    forall p, In p pats <-> is_completion hints len ms p.
Proof. exact (patterns_exact hints len ms). Qed.

Lemma generate_all_patterns_exact_witness :
  exists pats, generate_all_patterns [1; 2] 5 [-1; 0; -1; -1; -1] = Ok pats /\
    forall p, In p pats <-> is_completion [1; 2] 5 [-1; 0; -1; -1; -1] p.
Proof.
  apply (generate_all_patterns_exact [1; 2] 5 [-1; 0; -1; -1; -1]).
  - reflexivity.
  - right. repeat constructor.
Defined.

(** ** The line solvers lose no completion *)

Lemma all_agree_true (pats : list line) (i : nat) (v : Z) :
  all_agree pats i v = Ok true ->
  forall p, In p pats -> nth_error p i = Some v.
Proof.
  induction pats as [|q pats IH]; intros H p Hp; simpl in *; [tauto|].
  inv_bind. apply get_ok in Hm. destruct (a =? v) eqn:E.
  - apply Z.eqb_eq in E. subst a. destruct Hp as [<-|Hp]; auto.
  - inv_bind. discriminate.
Qed.

Lemma all_agree_false (pats : list line) (i : nat) (v : Z) :
  all_agree pats i v = Ok false ->
  exists q w, In q pats /\ nth_error q i = Some w /\ w <> v.
Proof.
  induction pats as [|q pats IH]; intro H; simpl in *.
  - inv_bind. discriminate.
  - inv_bind. apply get_ok in Hm. destruct (a =? v) eqn:E.
    + destruct (IH Hk) as (q' & w & Hin & Hw & Hne). exists q', w. auto.
    + apply Z.eqb_neq in E. exists q, a. auto.
Qed.

Lemma agreed_value_some (pats : list line) (i : nat) (v : Z) :
  agreed_value pats i = Ok (Some v) ->
  forall p, In p pats -> nth_error p i = Some v.
Proof.
  unfold agreed_value. intro H.
  destruct (get pats 0) as [first|] eqn:E1; [|discriminate]. simpl in H.
  destruct (get first i) as [fv|] eqn:E2; [|discriminate]. simpl in H.
  destruct (all_agree pats i fv) as [[|]|] eqn:E3; try discriminate.
  simpl in H. injection H as <-. now apply all_agree_true.
Qed.

Lemma agreed_value_none (pats : list line) (i : nat) :
  agreed_value pats i = Ok None ->
  exists p q, In p pats /\ In q pats /\ nth_error p i <> nth_error q i.
Proof.
  unfold agreed_value. intro H.
  destruct (get pats 0) as [first|] eqn:E1; [|discriminate]. simpl in H.
  destruct (get first i) as [fv|] eqn:E2; [|discriminate]. simpl in H.
  destruct (all_agree pats i fv) as [[|]|] eqn:E3; try discriminate.
  apply get_ok in E1, E2. apply nth_error_In in E1.
  destruct (all_agree_false _ _ _ E3) as (q & w & Hq & Hw & Hne).
  exists first, q. split; [assumption|]. split; [assumption|]. congruence.
Qed.

Lemma by_range_sound (hints : clue) (len : Z) (ms p : line) :
  Py.len ms = len ->
  is_completion hints len ms p ->
  exists res, determine_certain_by_range hints len ms = Ok res /\
              is_completion hints len res p.
Proof.
  intros Hlen Hc.
  destruct (by_range_cells hints len ms Hlen) as (res & Hres & Hl & Hcells).
  exists res. split; [assumption|].
  pose proof Hc as (H1 & H2 & Hag & H4).
  split; [assumption|]. split; [assumption|]. split; [|assumption].
  intros i y Hy Hd.
  assert (Hi : (i < length ms)%nat).
  { rewrite <- Hl. apply nth_error_Some. congruence. }
  destruct (nth_error ms i) as [x|] eqn:Hx; [|apply nth_error_None in Hx; lia].
  destruct (Hcells i x Hx) as (C1 & C2 & C3 & C4).
  destruct (Z.eq_dec x Unknown) as [->|Hx'].
  - destruct (no_blocks hints) eqn:Hz.
    + rewrite (C2 eq_refl eq_refl) in Hy. injection Hy as <-.
      rewrite (completion_blank _ _ _ _ Hc Hz).
      apply nth_error_times. unfold Py.len in Hlen. lia.
    + destruct (in_forced_range_dec hints len i) as [D|D].
      * rewrite (C3 eq_refl eq_refl D) in Hy. injection Hy as <-.
        destruct D as (j & b & Hj & Hlo & Hhi).
        pose proof (completion_placed _ _ _ _ Hc Hz) as Hpl.
        destruct (placed_covers len hints 0 p (completion_nonneg _ _ _ _ Hc)
                    Hpl j b (Z.of_nat i) Hj) as [_ Hn].
        -- exact Hlo.
        -- unfold left_start in Hhi. lia.
        -- rewrite Z.sub_0_r, Nat2Z.id in Hn. exact Hn.
      * rewrite (C4 eq_refl eq_refl D) in Hy. congruence.
  - rewrite (C1 Hx') in Hy. injection Hy as <-. now apply Hag.
Qed.

(** What the pattern method leaves in each cell, when the line state has a
    completion. *)
Lemma by_patterns_cells (hints : clue) (len : Z) (ms : line) :
  Py.len ms = len ->
  (exists p0, is_completion hints len ms p0) ->
  exists res, determine_certain_by_patterns hints len ms = Ok res /\
    length res = length ms /\
    forall i x, nth_error ms i = Some x ->
      (x <> Unknown -> nth_error res i = Some x) /\
      (x = Unknown ->
       (exists v, binary v /\ nth_error res i = Some v /\
                  forall p, is_completion hints len ms p ->
                            nth_error p i = Some v) \/
       (nth_error res i = Some Unknown /\
        exists p q, is_completion hints len ms p /\
                    is_completion hints len ms q /\
                    nth_error p i <> nth_error q i)).
Proof.
  intros Hlen (p0 & Hp0). unfold determine_certain_by_patterns.
  destruct (no_blocks hints) eqn:Hz.
  - destruct (mark_all_spec 0 len ms Hlen) as (res & Hres & Hl & Hpt).
    exists res. split; [assumption|]. split; [assumption|].
    intros i x Hx. rewrite (Hpt i x Hx). unfold Unknown. split.
    + intro Hd. apply Z.eqb_neq in Hd. now rewrite Hd.
    + intros ->. left. exists 0. split; [now right|]. split; [reflexivity|].
      intros p Hp. rewrite (completion_blank _ _ _ _ Hp Hz).
      apply nth_error_times. rewrite <- Hlen. eapply nth_error_len; eauto.
  - destruct (patterns_exact hints len ms Hlen (completion_clue _ _ _ _ Hp0))
      as (pats & Hg & Hex).
    rewrite Hg. cbn [Py.bind].
    assert (Hne : pats <> []).
    { intros ->. now apply (Hex p0) in Hp0. }
    destruct (mark_loop_total (agreed_value pats) (range len) ms) as (res & Hres).
    { intros k Hk. apply in_range in Hk. unfold Py.len in Hlen. lia. }
    { intros k Hk. apply in_range in Hk. apply agreed_value_total; [assumption|].
      intros q Hq. apply Hex in Hq as (Hql & _). unfold Py.len in Hql. lia. }
    exists res. split; [destruct pats; [congruence|exact Hres]|].
    apply mark_loop_spec in Hres as (Hl & _ & Hpt).
    split; [assumption|]. intros i x Hx.
    destruct (Hpt i x Hx) as (P1 & _ & P3). split; [assumption|].
    intros ->. destruct (P3 eq_refl) as (d & Hd & Hr).
    { apply in_range. rewrite <- Hlen. eapply nth_error_len; eauto. }
    destruct d as [v|]; simpl in Hr.
    + left. exists v. pose proof (agreed_value_some _ _ _ Hd) as Hall.
      split; [|split; [assumption|]].
      * destruct (completion_cell _ _ _ _ i Hp0) as (w & Hw & Hb).
        { rewrite <- Hlen. eapply nth_error_len; eauto. }
        apply Hex in Hp0. rewrite (Hall p0 Hp0) in Hw. congruence.
      * intros p Hp. apply Hall, Hex, Hp.
    + right. split; [assumption|].
      destruct (agreed_value_none _ _ Hd) as (p & q & Hp & Hq & Hne').
      exists p, q. split; [now apply Hex|]. split; [now apply Hex|assumption].
Qed.

Lemma by_patterns_sound (hints : clue) (len : Z) (ms p : line) :
  Py.len ms = len ->
  is_completion hints len ms p ->
  exists res, determine_certain_by_patterns hints len ms = Ok res /\
              is_completion hints len res p.
Proof.
  intros Hlen Hc.
  destruct (by_patterns_cells hints len ms Hlen (ex_intro _ p Hc))
    as (res & Hres & Hl & Hcells).
  exists res. split; [assumption|].
  pose proof Hc as (H1 & H2 & Hag & H4).
  split; [assumption|]. split; [assumption|]. split; [|assumption].
  intros i y Hy Hd.
  assert (Hi : (i < length ms)%nat).
  { rewrite <- Hl. apply nth_error_Some. congruence. }
  destruct (nth_error ms i) as [x|] eqn:Hx; [|apply nth_error_None in Hx; lia].
  destruct (Hcells i x Hx) as (C1 & C2).
  destruct (Z.eq_dec x Unknown) as [->|Hx'].
  - destruct (C2 eq_refl) as [(v & _ & Hv & Hall)|(Hu & _)]; [|congruence].
    rewrite (Hall p Hc). congruence.
  - rewrite (C1 Hx') in Hy. injection Hy as <-. now apply Hag.
Qed.

Lemma cells_sound (hints : clue) (len : Z) (ms p : line) :
  Py.len ms = len ->
  is_completion hints len ms p ->
  exists res, determine_certain_cells hints len ms = Ok res /\
              is_completion hints len res p.
Proof.
  unfold determine_certain_cells. destruct (has_marked ms).
  - apply by_patterns_sound.
  - apply by_range_sound.
Qed.

Lemma completion_of_result (hints : clue) (len : Z) (ms res p : line) :
  keeps_determined ms res ->
  is_completion hints len res p -> is_completion hints len ms p.
Proof.
  intros [_ Hk] (H1 & H2 & Hag & H4).
  split; [assumption|]. split; [assumption|]. split; [|assumption].
  intros i x Hx Hd. apply Hag; auto.
Qed.

(** Checks a concrete instance of [is_completion]. *)
Ltac check_completion :=
  split; [reflexivity|];
  split; [repeat constructor; first [now left | now right]|];
  split; [|reflexivity];
  let i := fresh "i" in
  let x := fresh "x" in
  let Hx := fresh "Hx" in
  let Hd := fresh "Hd" in
  intros i x Hx Hd;
  repeat (destruct i as [|i]; simpl in Hx;
          [injection Hx as <-;
           first [reflexivity | exfalso; apply Hd; reflexivity]|]);
  destruct i; discriminate.

(** X4: when the line state has at least one completion,
    [determine_certain_by_patterns] raises no error, keeps every determined
    cell, sets an Unknown cell to a value exactly when every completion of
    the line state has that value there, and leaves it Unknown exactly when
    two completions differ there. *)
Theorem determine_certain_by_patterns_exact (hints : clue) (len : Z)
    (ms : line) :
  Py.len ms = len ->
  (exists p0, is_completion hints len ms p0) ->
  exists res, determine_certain_by_patterns hints len ms = Ok res /\
    length res = length ms /\
    forall i x, nth_error ms i = Some x ->
      (x <> Unknown -> nth_error res i = Some x) /\
      (x = Unknown ->
       (exists v, binary v /\ nth_error res i = Some v /\
                  forall p, is_completion hints len ms p ->
                            nth_error p i = Some v) \/
       (nth_error res i = Some Unknown /\
        exists p q, is_completion hints len ms p /\
                    is_completion hints len ms q /\
                    nth_error p i <> nth_error q i)).
Proof. exact (by_patterns_cells hints len ms). Qed.

Lemma determine_certain_by_patterns_exact_witness :
  exists res,
    determine_certain_by_patterns [1; 2] 5 [-1; 0; -1; -1; -1] = Ok res /\
    length res = 5%nat /\
    forall i x, nth_error [-1; 0; -1; -1; -1] i = Some x ->
      (x <> Unknown -> nth_error res i = Some x) /\
      (x = Unknown ->
       (exists v, binary v /\ nth_error res i = Some v /\
                  forall p, is_completion [1; 2] 5 [-1; 0; -1; -1; -1] p ->
                            nth_error p i = Some v) \/
       (nth_error res i = Some Unknown /\
        exists p q, is_completion [1; 2] 5 [-1; 0; -1; -1; -1] p /\
                    is_completion [1; 2] 5 [-1; 0; -1; -1; -1] q /\
                    nth_error p i <> nth_error q i)).
Proof.
  apply (determine_certain_by_patterns_exact [1; 2] 5 [-1; 0; -1; -1; -1]).
  - reflexivity.
  - exists [1; 0; 1; 1; 0]. check_completion.
Defined.

(** X5: [determine_certain_by_range] loses no completion: on a line state of
    the declared length, every completion of the line state is still a
    completion of the line it returns, whatever marks the state holds. *)
Theorem determine_certain_by_range_sound (hints : clue) (len : Z)
    (ms p : line) :
  Py.len ms = len ->
  is_completion hints len ms p ->
  exists res, determine_certain_by_range hints len ms = Ok res /\
              is_completion hints len res p.
Proof. exact (by_range_sound hints len ms p). Qed.

Lemma determine_certain_by_range_sound_witness :
  exists res, determine_certain_by_range [3] 5 [-1; -1; -1; 1; 0] = Ok res /\
              is_completion [3] 5 res [0; 1; 1; 1; 0].
Proof.
  apply (determine_certain_by_range_sound [3] 5 [-1; -1; -1; 1; 0]).
  - reflexivity.
  - check_completion.
Defined.

(** X6: on a line state of the declared length that has a completion,
    [determine_certain_cells] raises no error and returns a line with the
    same completions: none is lost and none is added. *)
Theorem determine_certain_cells_keeps_completions (hints : clue) (len : Z)
    (ms : line) :
  Py.len ms = len ->
  (exists p0, is_completion hints len ms p0) ->
  exists res, determine_certain_cells hints len ms = Ok res /\
    forall p, is_completion hints len ms p <-> is_completion hints len res p.
Proof.
  intros Hlen (p0 & Hp0).
  destruct (cells_sound hints len ms p0 Hlen Hp0) as (res & Hres & _).
  exists res. split; [assumption|]. intro p. split.
  - intro Hp. destruct (cells_sound hints len ms p Hlen Hp) as (r & Hr & Hc).
    congruence.
  - apply completion_of_result. now apply cells_keeps in Hres.
Qed.

Lemma determine_certain_cells_keeps_completions_witness :
  exists res, determine_certain_cells [1; 2] 5 [-1; 0; -1; -1; -1] = Ok res /\
    forall p, is_completion [1; 2] 5 [-1; 0; -1; -1; -1] p <->
              is_completion [1; 2] 5 res p.
Proof.
  apply (determine_certain_cells_keeps_completions [1; 2] 5
           [-1; 0; -1; -1; -1]).
  - reflexivity.
  - exists [1; 0; 1; 1; 0]. check_completion.
Defined.

(** * Further properties of propagation and search *)

(** ** Nothing is raised on a matrix with fitting clues *)

Lemma for_each_preserves {I S : Type} (body : S -> I -> exc S) (P : S -> Prop)
    (items : list I) :
  (forall s i, In i items -> P s -> exists s', body s i = Ok s' /\ P s') ->
  forall s, P s -> exists s', for_each body items s = Ok s' /\ P s'.
Proof.
  induction items as [|i items IH]; intros Hstep s Hs; simpl.
  - eauto.
  - destruct (Hstep s i) as (s1 & H1 & P1); [simpl; auto|assumption|].
    rewrite H1. simpl. apply IH; [|assumption].
    intros. apply Hstep; simpl; auto.
Qed.

Lemma comprehension_total {I A : Type} (f : I -> exc A) (items : list I) :
  (forall i, In i items -> exists a, f i = Ok a) ->
  exists l, comprehension f items = Ok l.
Proof.
  induction items as [|i items IH]; intro H; simpl; [eauto|].
  destruct (H i) as (a & ->); [simpl; auto|]. simpl.
  destruct IH as (l & ->); [intros; apply H; simpl; auto|]. simpl. eauto.
Qed.

Lemma cell_at_shape (b : board) (r c : nat) :
  (exists x, cell_at b r c = Some x) <->
  (exists n, nth_error (shape b) r = Some n /\ (c < n)%nat).
Proof.
  unfold cell_at, shape. rewrite nth_error_map.
  destruct (nth_error b r) as [row|]; simpl.
  - split.
    + intros (x & Hx). exists (length row). split; [reflexivity|].
      apply nth_error_Some. congruence.
    + intros (n & Hn & Hc). injection Hn as <-.
      destruct (nth_error row c) eqn:E; [eauto|].
      apply nth_error_None in E. lia.
  - split; [intros (x & Hx)|intros (n & Hn & _)]; discriminate.
Qed.

Lemma cell_exists_shape (b b' : board) (r c : nat) :
  shape b' = shape b ->
  (exists x, cell_at b r c = Some x) -> exists x, cell_at b' r c = Some x.
Proof.
  intros Hs H. apply cell_at_shape. rewrite Hs. now apply cell_at_shape.
Qed.

Lemma matrix_cell (b : board) (r c : nat) :
  is_matrix b -> (r < length b)%nat -> (c < row_width b)%nat ->
  exists x, cell_at b r c = Some x.
Proof.
  intros Hm Hr Hc. unfold cell_at.
  destruct (nth_error b r) as [row|] eqn:Er; [|apply nth_error_None in Er; lia].
  pose proof (matrix_row _ _ _ Hm Er) as Hl.
  destruct (nth_error row c) eqn:Ec; [eauto|].
  apply nth_error_None in Ec. lia.
Qed.

Lemma length_shape (b b' : board) : shape b' = shape b -> length b' = length b.
Proof.
  unfold shape. intro H. apply (f_equal (@length nat)) in H.
  now rewrite !length_map in H.
Qed.

Lemma row_width_same (b b' : board) :
  shape b' = shape b -> row_width b' = row_width b.
Proof. intro H. now rewrite !row_width_shape, H. Qed.

Lemma is_matrix_shape (b b' : board) :
  shape b' = shape b -> is_matrix b -> is_matrix b'.
Proof. unfold is_matrix. now intros ->. Qed.

Lemma clues_fit_shape (b b' : board) (row_hints col_hints : list clue) :
  shape b' = shape b -> clues_fit b row_hints col_hints ->
  clues_fit b' row_hints col_hints.
Proof.
  intros Hs [Hr Hc]. split.
  - intros r H. apply Hr. now rewrite <- (length_shape _ _ Hs).
  - intros c H. apply Hc. now rewrite <- (row_width_same _ _ Hs).
Qed.

Lemma write_cell_total (r col : nat) (news : line) (k : nat) (b : board)
    (ch : bool) :
  (exists x, cell_at b r col = Some x) ->
  (k < length news)%nat ->
  exists st', write_cell r col news k (b, ch) = Ok st'.
Proof.
  intros (x & Hx) Hk. unfold write_cell, cell_at in *.
  destruct (nth_error b r) as [row|] eqn:Er; [|discriminate].
  assert (Hg : get b r = Ok row) by now apply get_ok.
  assert (Hg2 : get row col = Ok x) by now apply get_ok.
  destruct (get_in_range news k Hk) as (v & Hv).
  rewrite Hg. simpl. rewrite Hg2. simpl. rewrite Hv. simpl.
  destruct (x =? v); [eauto|].
  rewrite set_in_range by (apply nth_error_Some; congruence). simpl.
  rewrite set_in_range by (apply nth_error_Some; congruence). simpl. eauto.
Qed.

Lemma write_loop_total (fr fc : nat -> nat) (news : line) (items : list nat)
    (st : board * bool) :
  (forall i, In i items ->
             (exists x, cell_at (fst st) (fr i) (fc i) = Some x) /\
             (i < length news)%nat) ->
  exists st',
    for_each (fun st i => write_cell (fr i) (fc i) news i st) items st = Ok st'.
Proof.
  intro H.
  destruct (for_each_preserves
              (fun st i => write_cell (fr i) (fc i) news i st)
              (fun s => shape (fst s) = shape (fst st)) items) with (s := st)
    as (st' & Hst' & _); [|reflexivity|eauto].
  intros [b ch] i Hi Hs. simpl in Hs.
  destruct (H i Hi) as (Hcell & Hk).
  destruct (write_cell_total (fr i) (fc i) news i b ch) as (s' & Hs');
    [eapply cell_exists_shape; eauto|assumption|].
  exists s'. split; [assumption|].
  apply write_cell_spec in Hs' as (_ & _ & _ & _ & Hshape & _). congruence.
Qed.

Lemma cells_total (hints : clue) (len : Z) (ms : line) :
  Py.len ms = len -> Forall (fun b => 0 <= b) hints ->
  exists res, determine_certain_cells hints len ms = Ok res.
Proof.
  intros Hlen Hnn. unfold determine_certain_cells. destruct (has_marked ms).
  - unfold determine_certain_by_patterns. destruct (no_blocks hints).
    + destruct (mark_all_spec 0 len ms Hlen) as (res & Hres & _). eauto.
    + destruct (generate_all_patterns_sound hints len ms Hlen Hnn)
        as (pats & Hg & Hsound).
      rewrite Hg. cbn [Py.bind]. destruct pats as [|p0 ps]; [eauto|].
      apply mark_loop_total.
      * intros k Hk. apply in_range in Hk. unfold Py.len in Hlen. lia.
      * intros k Hk. apply in_range in Hk.
        apply agreed_value_total; [discriminate|].
        intros q Hq. destruct (Hsound q Hq) as (Hql & _).
        unfold Py.len in Hql. lia.
  - destruct (by_range_cells hints len ms Hlen) as (res & Hres & _). eauto.
Qed.

Lemma sweep_column_total (row_hints col_hints : list clue)
    (st : board * bool) (col : nat) :
  is_matrix (fst st) -> clues_fit (fst st) row_hints col_hints ->
  (col < row_width (fst st))%nat ->
  exists st', sweep_column col_hints (length (fst st)) st col = Ok st'.
Proof.
  intros Hmat [_ Hfit] Hcol. unfold sweep_column.
  destruct (comprehension_total
              (fun r => row <- get (fst st) r ;; get row col)
              (seq 0 (length (fst st)))) as (col_state & Hcs).
  { intros r Hr. apply in_seq in Hr.
    destruct (matrix_cell (fst st) r col Hmat) as (x & Hx); [lia|assumption|].
    unfold cell_at in Hx.
    destruct (nth_error (fst st) r) as [row|] eqn:Er; [|discriminate].
    assert (Hg : get (fst st) r = Ok row) by now apply get_ok.
    rewrite Hg. simpl. exists x. now apply get_ok. }
  rewrite Hcs. simpl.
  destruct (Hfit col Hcol) as (h & Hh & Hnn).
  assert (Hg : get col_hints col = Ok h) by now apply get_ok.
  rewrite Hg. simpl.
  pose proof (comprehension_spec _ _ _ Hcs) as [Hl _]. rewrite length_seq in Hl.
  destruct (cells_total h (Z.of_nat (length (fst st))) col_state) as (news & Hn);
    [unfold Py.len; now rewrite Hl|assumption|].
  rewrite Hn. simpl. apply cells_keeps in Hn as [Hnl _].
  apply (write_loop_total (fun i => i) (fun _ => col)).
  intros i Hi. apply in_seq in Hi. split; [|lia].
  apply matrix_cell; auto; lia.
Qed.

Lemma sweep_row_total (row_hints col_hints : list clue)
    (st : board * bool) (r : nat) :
  is_matrix (fst st) -> clues_fit (fst st) row_hints col_hints ->
  (r < length (fst st))%nat ->
  exists st', sweep_row row_hints (row_width (fst st)) st r = Ok st'.
Proof.
  intros Hmat [Hfit _] Hr. unfold sweep_row.
  destruct (nth_error (fst st) r) as [row|] eqn:Er;
    [|apply nth_error_None in Er; lia].
  assert (Hg : get (fst st) r = Ok row) by now apply get_ok.
  rewrite Hg. simpl.
  destruct (Hfit r Hr) as (h & Hh & Hnn).
  assert (Hg2 : get row_hints r = Ok h) by now apply get_ok.
  rewrite Hg2. simpl.
  pose proof (matrix_row _ _ _ Hmat Er) as Hl.
  destruct (cells_total h (Z.of_nat (row_width (fst st))) row) as (news & Hn);
    [unfold Py.len; now rewrite Hl|assumption|].
  rewrite Hn. simpl. apply cells_keeps in Hn as [Hnl _].
  apply (write_loop_total (fun _ => r) (fun c => c)).
  intros i Hi. apply in_seq in Hi. split; [|lia].
  apply matrix_cell; auto; lia.
Qed.

Lemma sweep_columns_total (row_hints col_hints : list clue) (b0 : board)
    (st : board * bool) :
  is_matrix b0 -> clues_fit b0 row_hints col_hints ->
  shape (fst st) = shape b0 ->
  exists st', sweep_columns col_hints (length b0) (row_width b0) st = Ok st' /\
              shape (fst st') = shape b0.
Proof.
  intros Hmat Hfit Hs. unfold sweep_columns.
  apply (for_each_preserves _ (fun s => shape (fst s) = shape b0));
    [|assumption].
  intros s col Hcol Hss. apply in_seq in Hcol.
  destruct (sweep_column_total row_hints col_hints s col) as (s' & Hs').
  - now apply (is_matrix_shape b0).
  - now apply (clues_fit_shape b0).
  - rewrite (row_width_same _ _ Hss). lia.
  - rewrite (length_shape _ _ Hss) in Hs'. exists s'. split; [assumption|].
    apply sweep_column_keeps, shape_keeps in Hs'. congruence.
Qed.

Lemma sweep_rows_total (row_hints col_hints : list clue) (b0 : board)
    (st : board * bool) :
  is_matrix b0 -> clues_fit b0 row_hints col_hints ->
  shape (fst st) = shape b0 ->
  exists st', sweep_rows row_hints (length b0) (row_width b0) st = Ok st' /\
              shape (fst st') = shape b0.
Proof.
  intros Hmat Hfit Hs. unfold sweep_rows.
  apply (for_each_preserves _ (fun s => shape (fst s) = shape b0));
    [|assumption].
  intros s r Hr Hss. apply in_seq in Hr.
  destruct (sweep_row_total row_hints col_hints s r) as (s' & Hs').
  - now apply (is_matrix_shape b0).
  - now apply (clues_fit_shape b0).
  - rewrite (length_shape _ _ Hss). lia.
  - rewrite (row_width_same _ _ Hss) in Hs'. exists s'. split; [assumption|].
    apply sweep_row_keeps, shape_keeps in Hs'. congruence.
Qed.

Lemma propagation_pass_total (b : board) (row_hints col_hints : list clue) :
  is_matrix b -> clues_fit b row_hints col_hints ->
  exists b' changed,
    propagation_pass b row_hints col_hints = Ok (b', changed).
Proof.
  intros Hmat Hfit. unfold propagation_pass.
  destruct (sweep_columns_total row_hints col_hints b (b, false))
    as (st1 & H1 & S1); auto.
  rewrite H1. simpl.
  destruct (sweep_rows_total row_hints col_hints b st1)
    as ([b' c'] & H2 & _); auto.
  rewrite H2. eauto.
Qed.

Lemma propagation_loop_total (row_hints col_hints : list clue) (n : nat) :
  forall b changed,
  is_matrix b -> clues_fit b row_hints col_hints ->
  exists b' changed',
    propagation_loop n row_hints col_hints b changed = Ok (b', changed').
Proof.
  induction n as [|n IH]; intros b changed Hmat Hfit; simpl; [eauto|].
  destruct changed; [|eauto].
  destruct (propagation_pass_total b row_hints col_hints Hmat Hfit)
    as (b1 & c1 & H1).
  rewrite H1. simpl. apply propagation_pass_keeps, shape_keeps in H1.
  apply IH; [now apply (is_matrix_shape b) | now apply (clues_fit_shape b)].
Qed.

Lemma propagation_total (b : board) (row_hints col_hints : list clue) :
  is_matrix b -> clues_fit b row_hints col_hints ->
  exists b', solve_with_constraint_propagation b row_hints col_hints = Ok b'.
Proof.
  intros Hmat Hfit. unfold solve_with_constraint_propagation.
  destruct (propagation_loop_total row_hints col_hints max_iterations b true
              Hmat Hfit) as (b' & c' & ->).
  simpl. eauto.
Qed.

Lemma first_unknown_in_row_total (row : line) (cs : list nat) :
  (forall c, In c cs -> (c < length row)%nat) ->
  exists found, first_unknown_in_row row cs = Ok found.
Proof.
  induction cs as [|c cs IH]; intro H; simpl; [eauto|].
  destruct (get_in_range row c) as (x & ->); [apply H; simpl; auto|]. simpl.
  destruct (x =? -1); [eauto|]. apply IH. intros. apply H. simpl. auto.
Qed.

Lemma first_unknown_total (b : board) (rs cs : list nat) :
  (forall r, In r rs -> exists row, nth_error b r = Some row /\
                                    forall c, In c cs -> (c < length row)%nat) ->
  exists found, first_unknown b rs cs = Ok found.
Proof.
  induction rs as [|r rs IH]; intro H; simpl; [eauto|].
  destruct (H r) as (row & Hr & Hc); [simpl; auto|].
  apply get_ok in Hr. rewrite Hr. simpl.
  destruct (first_unknown_in_row_total row cs Hc) as ([c|] & ->); simpl;
    [eauto|].
  apply IH. intros. apply H. simpl. auto.
Qed.

Lemma first_unknown_matrix (b : board) :
  is_matrix b ->
  exists found,
    first_unknown b (seq 0 (length b)) (seq 0 (row_width b)) = Ok found.
Proof.
  intro Hmat. apply first_unknown_total. intros r Hr. apply in_seq in Hr.
  destruct (nth_error b r) as [row|] eqn:Er; [|apply nth_error_None in Er; lia].
  exists row. split; [reflexivity|]. intros c Hc. apply in_seq in Hc.
  rewrite (matrix_row _ _ _ Hmat Er). lia.
Qed.

Lemma column_total (b : board) (c : nat) :
  is_matrix b -> (c < row_width b)%nat -> exists col, column b c = Ok col.
Proof.
  intros Hmat Hc. unfold column. apply comprehension_total.
  intros row Hrow. apply In_nth_error in Hrow as (r & Hr).
  apply get_in_range. rewrite (matrix_row _ _ _ Hmat Hr). exact Hc.
Qed.

Lemma rows_valid_total (b : board) (row_hints : list clue) (rs : list nat) :
  (forall r, In r rs -> (r < length b)%nat /\ (r < length row_hints)%nat) ->
  exists v, rows_valid b row_hints rs = Ok v.
Proof.
  induction rs as [|r rs IH]; intro H; simpl; [eauto|].
  destruct (H r) as [H1 H2]; [simpl; auto|].
  destruct (get_in_range b r H1) as (row & ->). simpl.
  assert (IH' : exists v, rows_valid b row_hints rs = Ok v)
    by (apply IH; intros; apply H; simpl; auto).
  destruct (all_determined row); [|assumption].
  destruct (get_in_range row_hints r H2) as (h & ->). simpl.
  destruct (list_eqb (get_blocks row) h); [assumption|eauto].
Qed.

Lemma cols_valid_total (b : board) (col_hints : list clue) (cs : list nat) :
  is_matrix b ->
  (forall c, In c cs -> (c < row_width b)%nat /\ (c < length col_hints)%nat) ->
  exists v, cols_valid b col_hints cs = Ok v.
Proof.
  intro Hmat. induction cs as [|c cs IH]; intro H; simpl; [eauto|].
  destruct (H c) as [H1 H2]; [simpl; auto|].
  destruct (column_total b c Hmat H1) as (col & ->). simpl.
  assert (IH' : exists v, cols_valid b col_hints cs = Ok v)
    by (apply IH; intros; apply H; simpl; auto).
  destruct (all_determined col); [|assumption].
  destruct (get_in_range col_hints c H2) as (h & ->). simpl.
  destruct (list_eqb (get_blocks col) h); [assumption|eauto].
Qed.

Lemma is_valid_board_total (b : board) (row_hints col_hints : list clue) :
  is_matrix b -> clues_fit b row_hints col_hints ->
  exists v, is_valid_board b row_hints col_hints = Ok v.
Proof.
  intros Hmat [Hr Hc]. unfold is_valid_board.
  destruct (rows_valid_total b row_hints (seq 0 (length b))) as (v & ->).
  { intros r H. apply in_seq in H. split; [lia|].
    destruct (Hr r) as (h & Hh & _); [lia|]. apply nth_error_Some. congruence. }
  simpl. destruct v; [|eauto].
  apply cols_valid_total; [assumption|].
  intros c H. apply in_seq in H. split; [lia|].
  destruct (Hc c) as (h & Hh & _); [lia|]. apply nth_error_Some. congruence.
Qed.

Lemma solve_with_backtrack_no_raise (row_hints col_hints : list clue)
    (depth : nat) :
  forall b, is_matrix b -> clues_fit b row_hints col_hints ->
  solve_with_backtrack depth b row_hints col_hints <> Raised.
Proof.
  induction depth as [|d IH]; intros b Hmat Hfit;
    rewrite solve_with_backtrack_unfold;
    destruct (propagation_total b row_hints col_hints Hmat Hfit) as (b1 & Hp);
    rewrite Hp; apply propagation_keeps, shape_keeps in Hp;
    pose proof (is_matrix_shape _ _ Hp Hmat) as Hmat1;
    pose proof (clues_fit_shape _ _ _ _ Hp Hfit) as Hfit1;
    destruct (first_unknown_matrix b1 Hmat1) as (found & Hf); rewrite Hf;
    (destruct found as [[r c]|];
     [|destruct (is_valid_board_total b1 row_hints col_hints Hmat1 Hfit1)
         as ([|] & ->); discriminate]).
  - discriminate.
  - apply first_unknown_spec in Hf.
    destruct (guess_total b1 r c 1 _ Hf) as (bc & Hg1). rewrite Hg1.
    destruct (guess_total b1 r c 0 _ Hf) as (bc0 & Hg0). rewrite Hg0.
    apply guess_spec in Hg1 as [Hs1 _]. apply guess_spec in Hg0 as [Hs0 _].
    assert (H1 : solve_with_backtrack d bc row_hints col_hints <> Raised).
    { apply IH; [now apply (is_matrix_shape b1)
                | now apply (clues_fit_shape b1)]. }
    destruct (solve_with_backtrack d bc row_hints col_hints);
      try discriminate; [|contradiction].
    apply IH; [now apply (is_matrix_shape b1) | now apply (clues_fit_shape b1)].
Qed.

(** ** Propagation keeps every solution *)

Lemma write_loop_cells (fr fc : nat -> nat) (news : line) (items : list nat) :
  forall st st',
  for_each (fun st i => write_cell (fr i) (fc i) news i st) items st = Ok st' ->
  forall r c x, cell_at (fst st') r c = Some x ->
    cell_at (fst st) r c = Some x \/
    exists i, In i items /\ fr i = r /\ fc i = c /\ nth_error news i = Some x.
Proof.
  induction items as [|k items IH]; intros st st' H r c x Hx; simpl in H.
  - inv_bind. now left.
  - inv_bind. destruct st as [b ch].
    apply write_cell_spec in Hm
      as (old & v & Hold & Hv & _ & Hnew & Hother & _).
    destruct (IH _ _ Hk r c x Hx) as [H1|(i & Hi & Hr & Hc & Hn)].
    + destruct (Nat.eq_dec r (fr k)) as [->|Hr];
        [destruct (Nat.eq_dec c (fc k)) as [->|Hc]|].
      * right. exists k. simpl. repeat split; auto. congruence.
      * left. rewrite Hother in H1 by auto. exact H1.
      * left. rewrite Hother in H1 by auto. exact H1.
    + right. exists i. simpl. auto.
Qed.

Lemma get_blocks_nonneg (l : line) : Forall (fun b => 0 <= b) (get_blocks l).
Proof.
  rewrite get_blocks_finish.
  destruct (finish_loop_blocks l [] 0) as (bs & -> & Hpos & _); [lia|].
  simpl. destruct bs; [repeat constructor; lia|now apply positive_nonneg].
Qed.

Lemma get_blocks_as_clue (l : line) :
  get_blocks l = if no_blocks (get_blocks l) then [0] else get_blocks l.
Proof.
  rewrite get_blocks_finish.
  destruct (finish (get_blocks_loop l [] 0)) as [|b [|b' bs]]; simpl; auto.
  destruct (b =? 0) eqn:E; [|reflexivity]. apply Z.eqb_eq in E. now subst b.
Qed.

Lemma column_nth (b : board) (c r : nat) (col : line) :
  column b c = Ok col -> (r < length b)%nat ->
  nth_error col r = cell_at b r c.
Proof.
  intros H Hr. destruct (column_cells _ _ _ H) as (Hl & Hpt).
  destruct (nth_error col r) as [x|] eqn:E.
  - symmetry. now apply Hpt.
  - apply nth_error_None in E. lia.
Qed.

Lemma solves_clues_fit (row_hints col_hints : list clue) (s b : board) :
  solves row_hints col_hints s -> shape s = shape b ->
  clues_fit b row_hints col_hints.
Proof.
  intros (_ & Hrows & Hcols) Hs. split.
  - intros r Hr. rewrite <- (length_shape _ _ Hs) in Hr.
    destruct (nth_error s r) as [row|] eqn:Er;
      [|apply nth_error_None in Er; lia].
    exists (get_blocks row). split; [now apply Hrows|apply get_blocks_nonneg].
  - intros c Hc. rewrite <- (row_width_same _ _ Hs) in Hc.
    destruct (Hcols c Hc) as (col & _ & Hh).
    exists (get_blocks col). split; [assumption|apply get_blocks_nonneg].
Qed.

Lemma sweep_column_sound (row_hints col_hints : list clue) (s : board)
    (st st' : board * bool) (col : nat) :
  solves row_hints col_hints s ->
  is_matrix (fst st) ->
  board_keeps_determined (fst st) s ->
  (col < row_width (fst st))%nat ->
  sweep_column col_hints (length (fst st)) st col = Ok st' ->
  board_keeps_determined (fst st') s.
Proof.
  intros (Hbin & _ & Hcols) Hmat [Hshape Hext] Hcol H.
  pose proof (sweep_column_keeps _ _ _ _ _ H) as [Hshape' _].
  unfold sweep_column in H. inv_bind.
  rename a into col_state, a0 into hint, a1 into news.
  destruct (Hcols col) as (colS & HcolS & Hhint);
    [now rewrite (row_width_same _ _ Hshape)|].
  apply get_ok in Hm0. assert (hint = get_blocks colS) by congruence.
  subst hint. clear Hhint.
  pose proof (comprehension_spec _ _ _ Hm) as [Hl Hcs]. rewrite length_seq in Hl.
  pose proof (length_shape _ _ Hshape) as HlS.
  destruct (column_cells _ _ _ HcolS) as (HlcolS & HptS).
  assert (Hcompl : is_completion (get_blocks colS)
                     (Z.of_nat (length (fst st))) col_state colS).
  { split; [unfold Py.len; congruence|]. split; [|split].
    - apply Forall_forall. intros x Hx.
      apply In_nth_error in Hx as (r & Hr). eapply Hbin. eauto.
    - intros i x Hx Hd.
      assert (Hi : (i < length (fst st))%nat).
      { rewrite <- Hl. apply nth_error_Some. congruence. }
      destruct (Hcs i i (nth_error_seq0 _ _ Hi)) as (y & Hy & Hnth).
      assert (y = x) by congruence. subst y. clear Hk. inv_bind.
      apply get_ok in Hm2, Hk.
      rewrite (column_nth _ _ _ _ HcolS) by lia.
      apply Hext; [|assumption]. unfold cell_at. now rewrite Hm2.
    - apply get_blocks_as_clue. }
  destruct (cells_sound _ _ _ _ ltac:(unfold Py.len; now rewrite Hl) Hcompl)
    as (res & Hres & (_ & _ & Hag & _)).
  assert (res = news) by congruence. subst res.
  split; [congruence|]. intros r c x Hx Hd.
  destruct (write_loop_cells (fun i => i) (fun _ => col) news _ _ _ Hk r c x Hx)
    as [H0|(i & Hi & <- & <- & Hn)].
  - now apply Hext.
  - apply in_seq in Hi. rewrite <- (column_nth _ _ _ _ HcolS) by lia.
    now apply Hag.
Qed.

Lemma sweep_row_sound (row_hints col_hints : list clue) (s : board)
    (st st' : board * bool) (r : nat) :
  solves row_hints col_hints s ->
  is_matrix (fst st) ->
  board_keeps_determined (fst st) s ->
  sweep_row row_hints (row_width (fst st)) st r = Ok st' ->
  board_keeps_determined (fst st') s.
Proof.
  intros (Hbin & Hrows & _) Hmat [Hshape Hext] H.
  pose proof (sweep_row_keeps _ _ _ _ _ H) as [Hshape' _].
  unfold sweep_row in H. inv_bind.
  rename a into row_state, a0 into hint, a1 into news.
  pose proof (get_lt _ _ _ Hm) as Hr. apply get_ok in Hm, Hm0.
  pose proof (length_shape _ _ Hshape) as HlS.
  destruct (nth_error s r) as [rowS|] eqn:ErS;
    [|apply nth_error_None in ErS; lia].
  assert (hint = get_blocks rowS) by (rewrite (Hrows r rowS ErS) in Hm0; congruence).
  subst hint.
  pose proof (is_matrix_shape _ _ Hshape Hmat) as HmatS.
  assert (Hcompl : is_completion (get_blocks rowS)
                     (Z.of_nat (row_width (fst st))) row_state rowS).
  { split; [|split; [|split]].
    - unfold Py.len. rewrite (matrix_row _ _ _ HmatS ErS).
      now rewrite (row_width_same _ _ Hshape).
    - apply Forall_forall. intros x Hx.
      apply In_nth_error in Hx as (c & Hc). apply (Hbin r c).
      unfold cell_at. now rewrite ErS.
    - intros i x Hx Hd.
      assert (Hc : cell_at s r i = Some x).
      { apply Hext; [|assumption]. unfold cell_at. now rewrite Hm. }
      unfold cell_at in Hc. now rewrite ErS in Hc.
    - apply get_blocks_as_clue. }
  destruct (cells_sound _ _ _ _
              ltac:(unfold Py.len; now rewrite (matrix_row _ _ _ Hmat Hm))
              Hcompl) as (res & Hres & (_ & _ & Hag & _)).
  assert (res = news) by congruence. subst res.
  split; [congruence|]. intros r' c x Hx Hd.
  destruct (write_loop_cells (fun _ => r) (fun c => c) news _ _ _ Hk r' c x Hx)
    as [H0|(i & Hi & <- & <- & Hn)].
  - now apply Hext.
  - unfold cell_at. rewrite ErS. now apply Hag.
Qed.

Lemma sweep_columns_sound (row_hints col_hints : list clue) (s b0 : board)
    (st st' : board * bool) :
  solves row_hints col_hints s -> is_matrix b0 ->
  shape (fst st) = shape b0 ->
  board_keeps_determined (fst st) s ->
  sweep_columns col_hints (length b0) (row_width b0) st = Ok st' ->
  shape (fst st') = shape b0 /\ board_keeps_determined (fst st') s.
Proof.
  intros Hsol Hmat Hs Hext H. unfold sweep_columns in H.
  revert Hs Hext.
  apply (for_each_invariant (sweep_column col_hints (length b0))
    (fun x y => shape (fst x) = shape b0 -> board_keeps_determined (fst x) s ->
                shape (fst y) = shape b0 /\ board_keeps_determined (fst y) s))
    with (items := seq 0 (row_width b0)) (s := st) (s' := st'); auto.
  - intros s1 s2 s3 H12 H23 A B. destruct (H12 A B). auto.
  - intros x col y Hcol Hstep Hsx Hex. apply in_seq in Hcol.
    rewrite <- (length_shape _ _ Hsx) in Hstep. split.
    + apply sweep_column_keeps, shape_keeps in Hstep. congruence.
    + eapply sweep_column_sound; eauto.
      * now apply (is_matrix_shape b0).
      * rewrite (row_width_same _ _ Hsx). lia.
Qed.

Lemma sweep_rows_sound (row_hints col_hints : list clue) (s b0 : board)
    (st st' : board * bool) :
  solves row_hints col_hints s -> is_matrix b0 ->
  shape (fst st) = shape b0 ->
  board_keeps_determined (fst st) s ->
  sweep_rows row_hints (length b0) (row_width b0) st = Ok st' ->
  shape (fst st') = shape b0 /\ board_keeps_determined (fst st') s.
Proof.
  intros Hsol Hmat Hs Hext H. unfold sweep_rows in H.
  revert Hs Hext.
  apply (for_each_invariant (sweep_row row_hints (row_width b0))
    (fun x y => shape (fst x) = shape b0 -> board_keeps_determined (fst x) s ->
                shape (fst y) = shape b0 /\ board_keeps_determined (fst y) s))
    with (items := seq 0 (length b0)) (s := st) (s' := st'); auto.
  - intros s1 s2 s3 H12 H23 A B. destruct (H12 A B). auto.
  - intros x r y Hr Hstep Hsx Hex.
    rewrite <- (row_width_same _ _ Hsx) in Hstep. split.
    + apply sweep_row_keeps, shape_keeps in Hstep. congruence.
    + eapply sweep_row_sound; eauto. now apply (is_matrix_shape b0).
Qed.

Lemma propagation_pass_sound (row_hints col_hints : list clue) (s b b' : board)
    (changed : bool) :
  solves row_hints col_hints s -> is_matrix b ->
  board_keeps_determined b s ->
  propagation_pass b row_hints col_hints = Ok (b', changed) ->
  board_keeps_determined b' s.
Proof.
  intros Hsol Hmat Hext H. unfold propagation_pass in H. inv_bind.
  destruct (sweep_columns_sound _ _ s b (b, false) a Hsol Hmat eq_refl Hext Hm)
    as [S1 E1].
  destruct (sweep_rows_sound _ _ _ _ _ _ Hsol Hmat S1 E1 Hk) as [_ E2].
  exact E2.
Qed.

Lemma propagation_loop_sound (row_hints col_hints : list clue) (s : board)
    (n : nat) :
  solves row_hints col_hints s ->
  forall b changed b' changed',
  is_matrix b -> board_keeps_determined b s ->
  propagation_loop n row_hints col_hints b changed = Ok (b', changed') ->
  board_keeps_determined b' s.
Proof.
  intro Hsol. induction n as [|n IH]; intros b changed b' changed' Hmat Hext H;
    simpl in H.
  - inv_bind. assumption.
  - destruct changed; [|inv_bind; assumption].
    inv_bind. destruct a as [b1 c1].
    pose proof (propagation_pass_sound _ _ _ _ _ _ Hsol Hmat Hext Hm) as E1.
    apply propagation_pass_keeps, shape_keeps in Hm.
    apply (IH b1 c1 b' changed'); auto. now apply (is_matrix_shape b).
Qed.

Lemma propagation_sound (row_hints col_hints : list clue) (s b b' : board) :
  solves row_hints col_hints s -> is_matrix b ->
  board_keeps_determined b s ->
  solve_with_constraint_propagation b row_hints col_hints = Ok b' ->
  board_keeps_determined b' s.
Proof.
  intros Hsol Hmat Hext H. unfold solve_with_constraint_propagation in H.
  inv_bind. destruct a as [b1 c1]. inv_bind.
  eapply propagation_loop_sound; eauto.
Qed.

(** ** The search finds a solution whenever there is one *)

Lemma board_ext (b b' : board) :
  shape b' = shape b ->
  (forall r c, cell_at b r c = cell_at b' r c) -> b = b'.
Proof.
  intros Hs Hc. apply nth_error_ext. intro r.
  pose proof (f_equal (fun l => nth_error l r) Hs) as Hr. simpl in Hr.
  unfold shape in Hr. rewrite !nth_error_map in Hr.
  specialize (Hc r). unfold cell_at in Hc.
  destruct (nth_error b r) as [row|], (nth_error b' r) as [row'|];
    try discriminate; [|reflexivity].
  f_equal. apply nth_error_ext. exact Hc.
Qed.

Lemma guess_cells (b b' : board) (r c : nat) (v : Z) :
  guess b r c v = Ok b' ->
  cell_at b' r c = Some v /\
  forall r' c', r' <> r \/ c' <> c -> cell_at b' r' c' = cell_at b r' c'.
Proof.
  unfold guess. intro H. inv_bind.
  pose proof (get_lt _ _ _ Hm) as Hr. apply get_ok in Hm.
  apply set_ok in Hm0 as [-> Hc]. apply set_ok in Hk0 as [-> _]. split.
  - rewrite cell_at_replace_row by assumption. now apply nth_error_replace_eq.
  - intros r' c' Hne. destruct (Nat.eq_dec r' r) as [->|Hr'].
    + rewrite cell_at_replace_row by assumption.
      rewrite nth_error_replace_neq by tauto. unfold cell_at. now rewrite Hm.
    + now apply cell_at_replace_other.
Qed.

Lemma list_eqb_refl (xs : list Z) : list_eqb xs xs = true.
Proof.
  unfold list_eqb. destruct (list_eq_dec Z.eq_dec xs xs); congruence.
Qed.

Lemma rows_valid_holds (b : board) (row_hints : list clue) (rs : list nat) :
  (forall r, In r rs -> exists row, nth_error b r = Some row /\
                        nth_error row_hints r = Some (get_blocks row)) ->
  rows_valid b row_hints rs = Ok true.
Proof.
  induction rs as [|r rs IH]; intro H; simpl; [reflexivity|].
  destruct (H r) as (row & Hr & Hh); [simpl; auto|].
  apply get_ok in Hr, Hh. rewrite Hr. simpl.
  assert (IH' : rows_valid b row_hints rs = Ok true)
    by (apply IH; intros; apply H; simpl; auto).
  destruct (all_determined row); [|assumption].
  rewrite Hh. simpl. now rewrite list_eqb_refl.
Qed.

Lemma cols_valid_holds (b : board) (col_hints : list clue) (cs : list nat) :
  (forall c, In c cs -> exists col, column b c = Ok col /\
                        nth_error col_hints c = Some (get_blocks col)) ->
  cols_valid b col_hints cs = Ok true.
Proof.
  induction cs as [|c cs IH]; intro H; simpl; [reflexivity|].
  destruct (H c) as (col & Hc & Hh); [simpl; auto|].
  apply get_ok in Hh. rewrite Hc. simpl.
  assert (IH' : cols_valid b col_hints cs = Ok true)
    by (apply IH; intros; apply H; simpl; auto).
  destruct (all_determined col); [|assumption].
  rewrite Hh. simpl. now rewrite list_eqb_refl.
Qed.

Lemma solves_valid (row_hints col_hints : list clue) (s : board) :
  solves row_hints col_hints s ->
  is_valid_board s row_hints col_hints = Ok true.
Proof.
  intros (_ & Hrows & Hcols). unfold is_valid_board.
  rewrite rows_valid_holds.
  - simpl. apply cols_valid_holds. intros c Hc. apply in_seq in Hc.
    apply Hcols. lia.
  - intros r Hr. apply in_seq in Hr.
    destruct (nth_error s r) as [row|] eqn:Er;
      [|apply nth_error_None in Er; lia].
    exists row. auto.
Qed.

Lemma determined_board_is_solution (b s : board) :
  is_matrix b -> board_keeps_determined b s ->
  first_unknown b (seq 0 (length b)) (seq 0 (row_width b)) = Ok None ->
  b = s.
Proof.
  intros Hmat [Hs Hext] Hscan. apply first_unknown_spec in Hscan.
  apply board_ext; [assumption|]. intros r c.
  destruct (cell_at b r c) as [x|] eqn:Hx.
  - symmetry. apply Hext; [assumption|].
    pose proof Hx as Hx'. unfold cell_at in Hx'.
    destruct (nth_error b r) as [row|] eqn:Er; [|discriminate].
    destruct (Hscan r c) as (y & Hy & Hd).
    + apply in_seq. split; [lia|]. apply nth_error_Some. congruence.
    + apply in_seq. split; [lia|]. rewrite <- (matrix_row _ _ _ Hmat Er).
      apply nth_error_Some. congruence.
    + congruence.
  - destruct (cell_at s r c) as [y|] eqn:Hy; [|reflexivity].
    destruct (cell_exists_shape s b r c) as (z & Hz); [congruence|eauto|].
    congruence.
Qed.

Lemma guess_keeps_solution (b bc s : board) (r c : nat) (v : Z) :
  board_keeps_determined b s -> cell_at s r c = Some v ->
  guess b r c v = Ok bc -> board_keeps_determined bc s.
Proof.
  intros [Hs Hext] Hv Hg. pose proof (guess_spec _ _ _ _ _ Hg) as [Hsg _].
  apply guess_cells in Hg as [Hnew Hother]. split; [congruence|].
  intros r' c' x Hx Hd.
  destruct (Nat.eq_dec r' r) as [->|Hr];
    [destruct (Nat.eq_dec c' c) as [->|Hc]|].
  - congruence.
  - rewrite Hother in Hx by auto. now apply Hext.
  - rewrite Hother in Hx by auto. now apply Hext.
Qed.

Lemma search_complete (row_hints col_hints : list clue) (s : board)
    (depth : nat) :
  solves row_hints col_hints s ->
  forall b, is_matrix b -> board_keeps_determined b s ->
  (count_unknown b <= depth)%nat ->
  exists b', solve_with_backtrack depth b row_hints col_hints = Solved b'.
Proof.
  intro Hsol. induction depth as [|d IH]; intros b Hmat Hext Hc;
    pose proof (solves_clues_fit _ _ _ _ Hsol (proj1 Hext)) as Hfit;
    rewrite solve_with_backtrack_unfold;
    destruct (propagation_total b row_hints col_hints Hmat Hfit) as (b1 & Hp);
    rewrite Hp;
    pose proof (propagation_sound _ _ _ _ _ Hsol Hmat Hext Hp) as Hext1;
    apply propagation_keeps in Hp;
    pose proof (count_unknown_keeps _ _ Hp) as Hc1;
    apply shape_keeps in Hp;
    pose proof (is_matrix_shape _ _ Hp Hmat) as Hmat1;
    destruct (first_unknown_matrix b1 Hmat1) as (found & Hf); rewrite Hf;
    (destruct found as [[r c]|];
     [|rewrite (determined_board_is_solution b1 s Hmat1 Hext1 Hf),
         (solves_valid _ _ _ Hsol); eauto]);
    apply first_unknown_spec in Hf.
  - apply count_unknown_pos in Hf. lia.
  - destruct (guess_total b1 r c 1 _ Hf) as (bc & Hg1). rewrite Hg1.
    destruct (guess_total b1 r c 0 _ Hf) as (bc0 & Hg0). rewrite Hg0.
    pose proof (guess_spec _ _ _ _ _ Hg1) as [Hs1 Hn1].
    pose proof (guess_spec _ _ _ _ _ Hg0) as [Hs0 Hn0].
    specialize (Hn1 Hf ltac:(discriminate)).
    specialize (Hn0 Hf ltac:(discriminate)).
    destruct (cell_exists_shape b1 s r c (proj1 Hext1)) as (v & Hv); [eauto|].
    destruct Hsol as (Hbin & Hrest). pose proof (Hbin r c v Hv) as [-> | ->].
    + destruct (IH bc) as (b' & ->); eauto.
      * now apply (is_matrix_shape b1).
      * eapply guess_keeps_solution; eauto.
      * lia.
    + assert (H1 : solve_with_backtrack d bc row_hints col_hints <> Raised).
      { apply solve_with_backtrack_no_raise;
          [now apply (is_matrix_shape b1)|].
        apply (clues_fit_shape b); [congruence|assumption]. }
      assert (H2 : solve_with_backtrack d bc row_hints col_hints <> TooDeep).
      { apply solve_with_backtrack_depth. lia. }
      destruct (solve_with_backtrack d bc row_hints col_hints);
        try contradiction; [eauto|].
      apply IH.
      * now apply (is_matrix_shape b1).
      * eapply guess_keeps_solution; eauto.
      * lia.
Qed.

(** ** Cell values stay in the data model *)












(** ** What the validator accepts *)

Lemma rows_valid_accepts (b : board) (row_hints : list clue) (rs : list nat) :
  (forall r, In r rs ->
   exists row, nth_error b r = Some row /\
     (all_determined row = true ->
      nth_error row_hints r = Some (get_blocks row))) ->
  rows_valid b row_hints rs = Ok true.
Proof.
  induction rs as [|r rs IH]; intro H; simpl; [reflexivity|].
  destruct (H r) as (row & Hr & Hh); [simpl; auto|].
  apply get_ok in Hr. rewrite Hr. simpl.
  assert (IH' : rows_valid b row_hints rs = Ok true)
    by (apply IH; intros; apply H; simpl; auto).
  destruct (all_determined row); [|assumption].
  specialize (Hh eq_refl). apply get_ok in Hh. rewrite Hh. simpl.
  now rewrite list_eqb_refl.
Qed.

Lemma cols_valid_accepts (b : board) (col_hints : list clue) (cs : list nat) :
  (forall c, In c cs ->
   exists col, column b c = Ok col /\
     (all_determined col = true ->
      nth_error col_hints c = Some (get_blocks col))) ->
  cols_valid b col_hints cs = Ok true.
Proof.
  induction cs as [|c cs IH]; intro H; simpl; [reflexivity|].
  destruct (H c) as (col & Hc & Hh); [simpl; auto|].
  rewrite Hc. simpl.
  assert (IH' : cols_valid b col_hints cs = Ok true)
    by (apply IH; intros; apply H; simpl; auto).
  destruct (all_determined col); [|assumption].
  specialize (Hh eq_refl). apply get_ok in Hh. rewrite Hh. simpl.
  now rewrite list_eqb_refl.
Qed.

(** X7: [is_valid_board] returns [True] exactly when every row and every
    column without an Unknown cell has the blocks of its clue; a line that
    still holds an Unknown cell is not checked and its clue is not read. *)
Theorem is_valid_board_accepts (b : board) (row_hints col_hints : list clue) :
  is_valid_board b row_hints col_hints = Ok true <->
  (forall r row, nth_error b r = Some row -> all_determined row = true ->
                 nth_error row_hints r = Some (get_blocks row)) /\
  (forall c, (c < row_width b)%nat ->
             exists col, column b c = Ok col /\
               (all_determined col = true ->
                nth_error col_hints c = Some (get_blocks col))).
Proof.
  unfold is_valid_board. split.
  - intro H. inv_bind. destruct a; [|discriminate]. split.
    + intros r row Hr Hd.
      destruct (rows_valid_spec _ _ _ Hm r) as (row' & Hr' & Hb).
      { apply in_seq. split; [lia|]. apply nth_error_Some. congruence. }
      assert (row' = row) by congruence. subst row'. auto.
    + intros c Hc. apply (cols_valid_spec _ _ _ Hk c). apply in_seq. lia.
  - intros [Hrows Hcols]. rewrite rows_valid_accepts.
    + simpl. apply cols_valid_accepts. intros c Hc. apply in_seq in Hc.
      apply Hcols. lia.
    + intros r Hr. apply in_seq in Hr.
      destruct (nth_error b r) as [row|] eqn:Er;
        [|apply nth_error_None in Er; lia].
      exists row. split; [reflexivity|]. now apply Hrows.
Qed.

(** ** Main results on propagation and search *)

(** Case analysis on the position of a cell of a concrete board. *)
Ltac cell_cases H :=
  unfold cell_at in H;
  repeat match type of H with
         | context [nth_error (_ :: _) ?n] => is_var n; destruct n; simpl in H
         | context [nth_error [] ?n] => is_var n; destruct n; simpl in H
         end;
  try discriminate H.

(** X8: propagation rules out no solution: on a matrix, for every solution
    of the puzzle that agrees with the determined cells of the board,
    [solve_with_constraint_propagation] raises no error and the board it
    returns still agrees with that solution. *)
Theorem propagation_keeps_solutions (row_hints col_hints : list clue)
    (b s : board) :
  is_matrix b ->
  solves row_hints col_hints s ->
  board_keeps_determined b s ->
  exists b', solve_with_constraint_propagation b row_hints col_hints = Ok b' /\
             board_keeps_determined b b' /\
             board_keeps_determined b' s.
Proof.
  intros Hmat Hsol Hext.
  pose proof (solves_clues_fit _ _ _ _ Hsol (proj1 Hext)) as Hfit.
  destruct (propagation_total b row_hints col_hints Hmat Hfit) as (b' & Hp).
  exists b'. split; [assumption|]. split.
  - now apply propagation_keeps in Hp.
  - eapply propagation_sound; eauto.
Qed.

Lemma propagation_keeps_solutions_witness :
  exists b',
    solve_with_constraint_propagation [[-1; -1]; [-1; 0]]
      [[1]; [1]] [[1]; [1]] = Ok b' /\
    board_keeps_determined [[-1; -1]; [-1; 0]] b' /\
    board_keeps_determined b' [[0; 1]; [1; 0]].
Proof.
  apply (propagation_keeps_solutions [[1]; [1]] [[1]; [1]]
           [[-1; -1]; [-1; 0]] [[0; 1]; [1; 0]]).
  - repeat constructor.
  - split; [|split].
    + intros r c x H. cell_cases H; injection H as <-;
        first [now left | now right].
    + intros r row H.
      repeat (destruct r as [|r]; simpl in H;
              [injection H as <-; reflexivity|]).
      destruct r; discriminate.
    + intros c Hc. simpl in Hc.
      destruct c as [|[|c]]; [eexists; split; reflexivity ..|lia].
  - split; [reflexivity|]. intros r c x H Hd.
    cell_cases H; injection H as <-;
      first [reflexivity | exfalso; apply Hd; reflexivity].
Defined.

(** X12: the search is complete: on a matrix, when some solution of the
    puzzle agrees with the determined cells of the board,
    [solve_with_backtrack] returns a board, neither [None] nor an error,
    within as many nested calls as the board has Unknown cells. *)
Theorem solve_with_backtrack_complete (row_hints col_hints : list clue)
    (b s : board) (depth : nat) :
  is_matrix b ->
  solves row_hints col_hints s ->
  board_keeps_determined b s ->
  (count_unknown b <= depth)%nat ->
  exists b', solve_with_backtrack depth b row_hints col_hints = Solved b'.
Proof.
  intros Hmat Hsol Hext Hc. eapply search_complete; eauto.
Qed.

Lemma solve_with_backtrack_complete_witness :
  exists b',
    solve_with_backtrack 3 [[-1; -1]; [-1; 0]] [[1]; [1]] [[1]; [1]]
    = Solved b'.
Proof.
  apply (solve_with_backtrack_complete [[1]; [1]] [[1]; [1]]
           [[-1; -1]; [-1; 0]] [[0; 1]; [1; 0]]).
  - repeat constructor.
  - split; [|split].
    + intros r c x H. cell_cases H; injection H as <-;
        first [now left | now right].
    + intros r row H.
      repeat (destruct r as [|r]; simpl in H;
              [injection H as <-; reflexivity|]).
      destruct r; discriminate.
    + intros c Hc. simpl in Hc.
      destruct c as [|[|c]]; [eexists; split; reflexivity ..|lia].
  - split; [reflexivity|]. intros r c x H Hd.
    cell_cases H; injection H as <-;
      first [reflexivity | exfalso; apply Hd; reflexivity].
  - vm_compute. lia.
Defined.

(** ** The entry point [solve] *)

Lemma fresh_board_shape (num_rows num_cols : nat) :
  shape (fresh_board num_rows num_cols) = repeat num_cols num_rows.
Proof.
  unfold shape, fresh_board. induction num_rows; simpl; [reflexivity|].
  now rewrite IHnum_rows, repeat_length.
Qed.

Lemma fresh_board_matrix (num_rows num_cols : nat) :
  is_matrix (fresh_board num_rows num_cols).
Proof.
  unfold is_matrix. rewrite fresh_board_shape. apply Forall_forall.
  intros n Hn. pose proof (repeat_spec _ _ _ Hn) as ->.
  destruct num_rows; [destruct Hn|reflexivity].
Qed.

Lemma fresh_board_cells (num_rows num_cols r c : nat) (x : Z) :
  cell_at (fresh_board num_rows num_cols) r c = Some x -> x = Unknown.
Proof.
  unfold cell_at, fresh_board. intro H.
  destruct (nth_error (repeat (repeat (-1) num_cols) num_rows) r) as [row|] eqn:E;
    [|discriminate].
  apply nth_error_In, repeat_spec in E. subst row.
  apply nth_error_In, repeat_spec in H. exact H.
Qed.







(** ** Every pass that changes something determines a cell *)

Lemma progress_refl (st : board * bool) : progress st st.
Proof. split; [apply board_keeps_refl|now left]. Qed.

Lemma progress_trans (s1 s2 s3 : board * bool) :
  progress s1 s2 -> progress s2 s3 -> progress s1 s3.
Proof.
  intros [K1 P1] [K2 P2]. split; [eapply board_keeps_trans; eauto|].
  pose proof (count_unknown_keeps _ _ K1). pose proof (count_unknown_keeps _ _ K2).
  destruct P1 as [E1|[T1 C1]], P2 as [E2|[T2 C2]].
  - left. congruence.
  - right. split; [assumption|lia].
  - right. split; [congruence|lia].
  - right. split; [assumption|lia].
Qed.

Lemma single_cell_count (b b' : board) (r c : nat) (v : Z) :
  shape b' = shape b ->
  cell_at b r c = Some Unknown -> cell_at b' r c = Some v -> v <> Unknown ->
  (forall r' c', r' <> r \/ c' <> c -> cell_at b' r' c' = cell_at b r' c') ->
  S (count_unknown b') = count_unknown b.
Proof.
  intros Hs Hold Hnew Hv Hother.
  destruct (guess_total b r c v _ Hold) as (bg & Hg).
  pose proof (guess_spec _ _ _ _ _ Hg) as [Hsg Hcount].
  pose proof (guess_cells _ _ _ _ _ Hg) as [Hgn Hgo].
  assert (bg = b').
  { apply board_ext; [congruence|]. intros r' c'.
    destruct (Nat.eq_dec r' r) as [->|Hr];
      [destruct (Nat.eq_dec c' c) as [->|Hc]|].
    - congruence.
    - rewrite Hgo, Hother by auto. reflexivity.
    - rewrite Hgo, Hother by auto. reflexivity. }
  subst bg. auto.
Qed.

Lemma write_loop_progress (fr fc : nat -> nat) (news : line) (b0 : board)
    (items : list nat) :
  (forall i k, fr i = fr k -> fc i = fc k -> i = k) ->
  (forall i x v, In i items -> cell_at b0 (fr i) (fc i) = Some x ->
                 x <> Unknown -> nth_error news i = Some v -> v = x) ->
  forall st st',
  for_each (fun st i => write_cell (fr i) (fc i) news i st) items st = Ok st' ->
  (forall i, cell_at (fst st) (fr i) (fc i) = cell_at b0 (fr i) (fc i) \/
             cell_at (fst st) (fr i) (fc i) = nth_error news i) ->
  progress st st'.
Proof.
  intros Hinj. induction items as [|k items IH]; intros Hnews st st' H Hinv;
    simpl in H.
  - inv_bind. apply progress_refl.
  - inv_bind. rename a into st1. destruct st as [b ch].
    apply write_cell_spec in Hm
      as (old & v & Hold & Hv & Hshape & Hnew & Hother & Hsame & Hdiff).
    simpl in Hinv.
    assert (Hstep : old = v \/ old = Unknown).
    { destruct (Z.eq_dec old Unknown) as [|Hd]; [now right|left].
      destruct (Hinv k) as [E|E].
      - symmetry. apply (Hnews k old v); simpl; auto. congruence.
      - congruence. }
    apply progress_trans with st1.
    + destruct (Z.eq_dec old v) as [E|E].
      * rewrite (Hsame E). apply progress_refl.
      * destruct Hstep as [|Hu]; [contradiction|]. subst old. split.
        -- simpl. split; [assumption|]. intros r c x Hx Hd.
           destruct (Nat.eq_dec r (fr k)) as [->|Hr];
             [destruct (Nat.eq_dec c (fc k)) as [->|Hc]|].
           ++ congruence.
           ++ rewrite Hother by auto. exact Hx.
           ++ rewrite Hother by auto. exact Hx.
        -- right. split; [auto|]. simpl.
           pose proof (single_cell_count b (fst st1) (fr k) (fc k) v
                         Hshape Hold Hnew ltac:(congruence) Hother). lia.
    + apply IH; [|assumption|].
      * intros. eapply Hnews; simpl; eauto.
      * intro i.
        destruct (Nat.eq_dec (fr i) (fr k)) as [Er|Er];
          [destruct (Nat.eq_dec (fc i) (fc k)) as [Ec|Ec]|].
        -- rewrite (Hinj i k Er Ec). right. congruence.
        -- rewrite Hother by auto. apply Hinv.
        -- rewrite Hother by auto. apply Hinv.
Qed.

Lemma sweep_column_progress (col_hints : list clue) (num_rows : nat)
    (st st' : board * bool) (col : nat) :
  sweep_column col_hints num_rows st col = Ok st' -> progress st st'.
Proof.
  unfold sweep_column. intro H. inv_bind.
  rename a into col_state, a1 into news.
  apply cells_keeps in Hm1 as [_ Hkeep].
  apply comprehension_spec in Hm as [_ Hcol].
  apply (write_loop_progress (fun i => i) (fun _ => col) news (fst st)
           (seq 0 num_rows)); [auto | | exact Hk | auto].
  intros i x v Hi Hx Hd Hv. apply in_seq in Hi.
  destruct (Hcol i i) as (y & Hy & Hnth); [apply nth_error_seq0; lia|].
  clear Hk. inv_bind. apply get_ok in Hm, Hk.
  unfold cell_at in Hx. rewrite Hm in Hx.
  assert (y = x) by congruence. subst y.
  rewrite (Hkeep i x Hnth Hd) in Hv. congruence.
Qed.

Lemma sweep_row_progress (row_hints : list clue) (num_cols : nat)
    (st st' : board * bool) (r : nat) :
  sweep_row row_hints num_cols st r = Ok st' -> progress st st'.
Proof.
  unfold sweep_row. intro H. inv_bind.
  rename a into row_state, a1 into news.
  apply cells_keeps in Hm1 as [_ Hkeep]. apply get_ok in Hm.
  apply (write_loop_progress (fun _ => r) (fun c => c) news (fst st)
           (seq 0 num_cols)); [auto | | exact Hk | auto].
  intros c x v _ Hx Hd Hv.
  unfold cell_at in Hx. rewrite Hm in Hx.
  rewrite (Hkeep c x Hx Hd) in Hv. congruence.
Qed.

Lemma sweep_columns_progress (col_hints : list clue) (num_rows num_cols : nat)
    (st st' : board * bool) :
  sweep_columns col_hints num_rows num_cols st = Ok st' -> progress st st'.
Proof.
  unfold sweep_columns. apply for_each_invariant.
  - apply progress_refl.
  - apply progress_trans.
  - intros s i s' _. apply sweep_column_progress.
Qed.

Lemma sweep_rows_progress (row_hints : list clue) (num_rows num_cols : nat)
    (st st' : board * bool) :
  sweep_rows row_hints num_rows num_cols st = Ok st' -> progress st st'.
Proof.
  unfold sweep_rows. apply for_each_invariant.
  - apply progress_refl.
  - apply progress_trans.
  - intros s i s' _. apply sweep_row_progress.
Qed.

Lemma propagation_pass_progress (b b' : board) (row_hints col_hints : list clue) :
  propagation_pass b row_hints col_hints = Ok (b', true) ->
  (count_unknown b' < count_unknown b)%nat.
Proof.
  unfold propagation_pass. intro H. inv_bind.
  apply sweep_columns_progress in Hm. apply sweep_rows_progress in Hk.
  destruct (progress_trans _ _ _ Hm Hk) as [_ [E|[_ C]]]; simpl in *;
    [discriminate|assumption].
Qed.

Lemma propagation_loop_ends_quiet (row_hints col_hints : list clue) (n : nat) :
  forall b b' changed',
  (count_unknown b < n)%nat ->
  propagation_loop n row_hints col_hints b true = Ok (b', changed') ->
  changed' = false.
Proof.
  induction n as [|n IH]; intros b b' changed' Hc H; [lia|].
  simpl in H. inv_bind. destruct a as [b1 c1]. destruct c1.
  - apply propagation_pass_progress in Hm. eapply IH; [|exact Hk]. lia.
  - destruct n; simpl in Hk; inv_bind; reflexivity.
Qed.

(** X9: on a board with fewer Unknown cells than [max_iterations] (1000) the
    iteration cap never ends the propagation: every pass that changes a
    cell leaves at least one Unknown cell fewer, so the loop ends on a pass
    that changes nothing, and the board returned is a fixpoint of the pass
    and of the whole propagation. *)
Theorem propagation_ends_at_fixpoint (b b' : board)
    (row_hints col_hints : list clue) :
  (count_unknown b < max_iterations)%nat ->
  solve_with_constraint_propagation b row_hints col_hints = Ok b' ->
  propagation_loop max_iterations row_hints col_hints b true = Ok (b', false) /\
  propagation_pass b' row_hints col_hints = Ok (b', false) /\
  solve_with_constraint_propagation b' row_hints col_hints = Ok b'.
Proof.
  intros Hc H. unfold solve_with_constraint_propagation in H.
  destruct (propagation_loop max_iterations row_hints col_hints b true)
    as [[b1 c1]|] eqn:E; [|discriminate].
  simpl in H. injection H as ->.
  pose proof (propagation_loop_ends_quiet _ _ _ _ _ _ Hc E) as ->.
  pose proof (propagation_loop_fixpoint _ _ _ _ _ E) as Hpass.
  split; [reflexivity|]. split; [assumption|].
  unfold solve_with_constraint_propagation, max_iterations.
  change (propagation_loop 1000 row_hints col_hints b' true)
    with ('(b1, c1) <- propagation_pass b' row_hints col_hints ;;
          propagation_loop 999 row_hints col_hints b1 c1).
  rewrite Hpass. reflexivity.
Qed.

Lemma propagation_ends_at_fixpoint_witness :
  propagation_loop max_iterations [[2]; [0]] [[1]; [1]] (fresh_board 2 2) true
  = Ok ([[1; 1]; [0; 0]], false) /\
  propagation_pass [[1; 1]; [0; 0]] [[2]; [0]] [[1]; [1]]
  = Ok ([[1; 1]; [0; 0]], false) /\
  solve_with_constraint_propagation [[1; 1]; [0; 0]] [[2]; [0]] [[1]; [1]]
  = Ok [[1; 1]; [0; 0]].
Proof.
  apply (propagation_ends_at_fixpoint (fresh_board 2 2)).
  - vm_compute. lia.
  - vm_compute. reflexivity.
Defined.

(** ** The snapshots of [solve_puzzle] *)

Lemma puzzle_iteration_progress (row_hints col_hints : list clue)
    (num_rows num_cols it : nat) (b b' : board) (changed : bool) :
  puzzle_iteration row_hints col_hints num_rows num_cols it b
  = Ok (b', changed) ->
  board_keeps_determined b b' /\
  (changed = true -> (count_unknown b' < count_unknown b)%nat) /\
  (changed = false -> b' = b).
Proof.
  unfold puzzle_iteration. intro H.
  assert (P : progress (b, false) (b', changed)).
  { destruct (Nat.even it);
      [now apply sweep_columns_progress in H
      | now apply sweep_rows_progress in H]. }
  assert (Q : quiet_is_unchanged (b, false) (b', changed)).
  { destruct (Nat.even it);
      [now apply sweep_columns_quiet in H | now apply sweep_rows_quiet in H]. }
  destruct P as [K [E|[_ C]]]; simpl in *.
  - subst changed. split; [assumption|]. split; [discriminate|].
    intros _. specialize (Q eq_refl). congruence.
  - split; [assumption|]. split; [auto|]. intros ->.
    specialize (Q eq_refl). congruence.
Qed.

Lemma snapshots_grow (row_hints col_hints : list clue) (num_rows num_cols : nat)
    (history : list board) :
  forall b its,
  snapshots row_hints col_hints num_rows num_cols b its history ->
  forall k prev next,
  nth_error (b :: history) k = Some prev ->
  nth_error history k = Some next ->
  board_keeps_determined prev next /\
  ((S k < length history)%nat ->
   (count_unknown next < count_unknown prev)%nat).
Proof.
  induction history as [|snap later IH]; intros b its Hs k prev next Hp Hn.
  - destruct k; discriminate.
  - destruct its as [|it its']; [destruct Hs|].
    simpl in Hs. destruct Hs as (changed & Hit & Hch & Hrest).
    destruct k as [|k].
    + simpl in Hp, Hn. injection Hp as <-. injection Hn as <-.
      apply puzzle_iteration_progress in Hit as (K & C & _).
      split; [assumption|]. intro Hlen. apply C, Hch.
      destruct later; [simpl in Hlen; lia|discriminate].
    + simpl in Hp, Hn. destruct (IH snap its' Hrest k prev next Hp Hn) as [K C].
      split; [assumption|]. intro Hlen. apply C. simpl in Hlen. lia.
Qed.

(** X14: in the history that [solve_puzzle] records, each snapshot has the
    shape of the one before it (the fresh board for the first) and repeats
    its determined cells, so two consecutive snapshots differ only in cells
    that went from Unknown to determined; every snapshot but the last has
    strictly fewer Unknown cells than the one before it. *)
Theorem solve_puzzle_history_grows (row_hints col_hints : list clue)
    (b : board) (history : list board) :
  solve_puzzle row_hints col_hints = Ok (Some b, history) ->
  forall k prev next,
  nth_error
    (fresh_board (length row_hints) (length col_hints) :: history) k
  = Some prev ->
  nth_error history k = Some next ->
  board_keeps_determined prev next /\
  ((S k < length history)%nat ->
   (count_unknown next < count_unknown prev)%nat).
Proof.
  unfold solve_puzzle. intro H.
  destruct row_hints as [|rh0 rhs]; [inv_bind; discriminate|].
  destruct col_hints as [|ch0 chs]; [inv_bind; discriminate|].
  inv_bind. destruct a as [b1 h]. inv_bind.
  apply puzzle_loop_history in Hm as (ext & -> & Hsnap & _).
  simpl app. eapply snapshots_grow; eauto.
Qed.

Lemma solve_puzzle_history_grows_witness :
  let filled := [[1; 1; 1]; [1; 1; 1]; [1; 1; 1]] in
  board_keeps_determined (fresh_board 3 3) filled /\
  ((1 < 2)%nat ->
   (count_unknown filled < count_unknown (fresh_board 3 3))%nat).
Proof.
  apply (solve_puzzle_history_grows [[3]; [3]; [3]] [[3]; [3]; [3]]
           [[1; 1; 1]; [1; 1; 1]; [1; 1; 1]]
           [[[1; 1; 1]; [1; 1; 1]; [1; 1; 1]];
            [[1; 1; 1]; [1; 1; 1]; [1; 1; 1]]]) with (k := 0%nat).
  - vm_compute. reflexivity.
  - reflexivity.
  - reflexivity.
Defined.

Lemma snapshots_sound (row_hints col_hints : list clue) (s b0 : board)
    (history : list board) :
  solves row_hints col_hints s -> is_matrix b0 ->
  forall b its,
  shape b = shape b0 -> board_keeps_determined b s ->
  snapshots row_hints col_hints (length b0) (row_width b0) b its history ->
  forall snap, In snap history -> board_keeps_determined snap s.
Proof.
  intros Hsol Hmat.
  induction history as [|x later IH]; intros b its Hs Hext Hsn snap Hin.
  - destruct Hin.
  - destruct its as [|it its']; [destruct Hsn|].
    simpl in Hsn. destruct Hsn as (changed & Hit & _ & Hrest).
    assert (Hx : shape x = shape b0 /\ board_keeps_determined x s).
    { unfold puzzle_iteration in Hit. destruct (Nat.even it).
      - exact (sweep_columns_sound _ _ s b0 (b, false) (x, changed)
                 Hsol Hmat Hs Hext Hit).
      - exact (sweep_rows_sound _ _ s b0 (b, false) (x, changed)
                 Hsol Hmat Hs Hext Hit). }
    destruct Hx as [Hsx Hex]. destruct Hin as [<-|Hin]; [assumption|].
    eapply IH; eauto.
Qed.

Lemma solve_puzzle_loop (row_hints col_hints : list clue) (b : board)
    (history : list board) :
  solve_puzzle row_hints col_hints = Ok (Some b, history) ->
  row_hints <> [] /\
  puzzle_loop row_hints col_hints (length row_hints) (length col_hints)
    (seq 0 10) (fresh_board (length row_hints) (length col_hints)) []
  = Ok (b, history).
Proof.
  unfold solve_puzzle. intro H.
  destruct row_hints as [|rh0 rhs]; [inv_bind; discriminate|].
  destruct col_hints as [|ch0 chs]; [inv_bind; discriminate|].
  split; [discriminate|].
  destruct (puzzle_loop _ _ _ _ _ _ _) as [[b1 h]|]; [|discriminate].
  simpl in H. now injection H as -> ->.
Qed.

Lemma last_in (x : board) (l : list board) : In (last l x) (x :: l).
Proof.
  revert x. induction l as [|y l IH]; intro x; [simpl; auto|].
  rewrite last_cons. right. apply IH.
Qed.

(** X15: [solve_puzzle] marks nothing against a solution: every cell that
    is determined in a snapshot of its history, and so in the board it
    leaves, has the value it has in every solution of the puzzle. *)
Theorem solve_puzzle_sound (row_hints col_hints : list clue) (b s : board)
    (history : list board) :
  solve_puzzle row_hints col_hints = Ok (Some b, history) ->
  solves row_hints col_hints s ->
  shape s = repeat (length col_hints) (length row_hints) ->
  board_keeps_determined b s /\
  forall snap, In snap history -> board_keeps_determined snap s.
Proof.
  intros H Hsol Hshape. apply solve_puzzle_loop in H as [Hne H].
  set (b0 := fresh_board (length row_hints) (length col_hints)) in *.
  apply puzzle_loop_history in H as (ext & -> & Hsnap & Hext & _ & Hlast).
  simpl app.
  assert (Hl : length b0 = length row_hints).
  { unfold b0, fresh_board. apply repeat_length. }
  assert (Hw : row_width b0 = length col_hints).
  { unfold b0. destruct row_hints; [congruence|]. simpl. apply repeat_length. }
  rewrite <- Hl, <- Hw in Hsnap.
  assert (Hb0 : board_keeps_determined b0 s).
  { split; [unfold b0; now rewrite fresh_board_shape|].
    intros r c x Hx Hd. apply fresh_board_cells in Hx. contradiction. }
  assert (Hall : forall snap, In snap ext -> board_keeps_determined snap s).
  { apply (snapshots_sound row_hints col_hints s b0 ext Hsol
             (fresh_board_matrix _ _) b0 (seq 0 10) eq_refl Hb0 Hsnap). }
  split; [|assumption].
  destruct (last_in b0 ext) as [E|Hin]; rewrite Hlast in *.
  - now rewrite <- E.
  - now apply Hall.
Qed.

Lemma solve_puzzle_sound_witness :
  let s := [[1; 1; 1]; [1; 1; 1]; [1; 1; 1]] in
  board_keeps_determined s s /\
  forall snap, In snap [s; s] -> board_keeps_determined snap s.
Proof.
  apply (solve_puzzle_sound [[3]; [3]; [3]] [[3]; [3]; [3]]).
  - vm_compute. reflexivity.
  - split; [|split].
    + intros r c x H. cell_cases H; injection H as <-; now left.
    + intros r row H.
      repeat (destruct r as [|r]; simpl in H;
              [injection H as <-; reflexivity|]).
      destruct r; discriminate.
    + intros c Hc. simpl in Hc.
      destruct c as [|[|[|c]]]; [eexists; split; reflexivity ..|lia].
  - reflexivity.
Defined.

(** ** The highlight of [draw_board] after [solve_puzzle] *)

Lemma puzzle_loop_last_quiet (row_hints col_hints : list clue)
    (num_rows num_cols : nat) (its : list nat) :
  forall b0 h0 b history,
  puzzle_loop row_hints col_hints num_rows num_cols its b0 h0
  = Ok (b, history) ->
  exists ext,
    history = h0 ++ ext /\
    (its <> [] -> ext <> []) /\
    ((length ext < length its)%nat ->
     nth_error (b0 :: ext) (length ext - 1) = Some b).
Proof.
  induction its as [|it its IH]; intros b0 h0 b history H; simpl in H.
  - inv_bind. exists []. rewrite app_nil_r.
    split; [reflexivity|]. split; [congruence|]. simpl. lia.
  - inv_bind. destruct a as [b1 changed]. destruct changed.
    + apply IH in Hk as (ext & -> & Hne & Hq).
      exists (b1 :: ext). rewrite <- app_assoc.
      split; [reflexivity|]. split; [discriminate|].
      intro Hlen. simpl in Hlen.
      assert (Hext : ext <> []).
      { apply Hne. destruct its; [simpl in Hlen; lia|discriminate]. }
      destruct ext as [|x ext]; [congruence|].
      specialize (Hq ltac:(lia)). simpl length in *.
      replace (S (S (length ext)) - 1)%nat with (S (S (length ext) - 1)) by lia.
      exact Hq.
    + apply puzzle_iteration_progress in Hm as (_ & _ & Hsame).
      specialize (Hsame eq_refl). inv_bind. eexists.
      split; [reflexivity|]. split; [discriminate|]. intros _. reflexivity.
Qed.

Lemma flag_after_early_stop (row_hints col_hints : list clue)
    (b : board) (history : list board) (r c : nat) (flag : bool) :
  solve_puzzle row_hints col_hints = Ok (Some b, history) ->
  (length history < 10)%nat ->
  is_new_this_iteration b history r c = Ok flag ->
  flag = false.
Proof.
  intros H Hlen Hflag. apply solve_puzzle_loop in H as [_ H].
  apply puzzle_loop_last_quiet in H as (ext & -> & _ & Hq).
  simpl app in *. specialize (Hq Hlen).
  unfold is_new_this_iteration in Hflag. inv_bind.
  destruct (2 <=? length ext)%nat eqn:E; [|now inv_bind].
  apply Nat.leb_le in E. inv_bind.
  replace (length ext - 1)%nat with (S (length ext - 2)) in Hq by lia.
  simpl in Hq. apply get_ok in Hm1. assert (a1 = b) by congruence. subst a1.
  assert (a2 = a) by congruence. subst a2.
  assert (a3 = a0) by congruence. subst a3.
  destruct (a0 =? -1); reflexivity.
Qed.

(** X16: when [solve_puzzle] has stopped before its tenth iteration, the
    board it leaves is the snapshot before the last one (whenever the
    history has two), so [draw_board] flags no cell as new in this
    iteration: the flag can only be raised after a run of all ten
    iterations. *)
Theorem draw_board_flags_nothing_new (row_hints col_hints : list clue)
    (b : board) (history : list board) (r c : nat) :
  solve_puzzle row_hints col_hints = Ok (Some b, history) ->
  (length history < 10)%nat ->
  is_new_this_iteration b history r c <> Ok true.
Proof.
  intros H Hlen Hflag.
  now pose proof (flag_after_early_stop _ _ _ _ _ _ _ H Hlen Hflag).
Qed.

Lemma draw_board_flags_nothing_new_witness :
  is_new_this_iteration [[1; 1; 1]; [1; 1; 1]; [1; 1; 1]]
    [[[1; 1; 1]; [1; 1; 1]; [1; 1; 1]]; [[1; 1; 1]; [1; 1; 1]; [1; 1; 1]]]
    1 1 <> Ok true.
Proof.
  apply (draw_board_flags_nothing_new [[3]; [3]; [3]] [[3]; [3]; [3]]).
  - vm_compute. reflexivity.
  - simpl. lia.
Defined.

(** ** Missing clues *)

Lemma for_each_raises {I S : Type} (body : S -> I -> exc S) (items : list I)
    (i : I) :
  In i items -> (forall s, body s i = IndexError) ->
  forall s, for_each body items s = IndexError.
Proof.
  induction items as [|j items IH]; intros Hin Hraise s; [destruct Hin|].
  simpl. destruct Hin as [->|Hin].
  - now rewrite Hraise.
  - destruct (body s j); simpl; auto.
Qed.

Lemma get_out_of_range {A : Type} (xs : list A) (i : nat) :
  (length xs <= i)%nat -> get xs i = IndexError.
Proof.
  intro H. unfold get. apply nth_error_None in H. now rewrite H.
Qed.

Lemma propagation_pass_missing_clue (b : board)
    (row_hints col_hints : list clue) :
  (length row_hints < length b)%nat \/
  (length col_hints < row_width b)%nat ->
  propagation_pass b row_hints col_hints = IndexError.
Proof.
  intro H. unfold propagation_pass.
  destruct (sweep_columns col_hints (length b) (row_width b) (b, false))
    as [st|] eqn:Ecols; [|reflexivity].
  simpl. destruct H as [H|H].
  - unfold sweep_rows.
    apply (for_each_raises _ _ (length row_hints)); [apply in_seq; lia|].
    intro s. unfold sweep_row. destruct (get (fst s) (length row_hints));
      [|reflexivity].
    simpl. now rewrite get_out_of_range.
  - exfalso. unfold sweep_columns in Ecols.
    rewrite (for_each_raises _ _ (length col_hints)) in Ecols;
      [discriminate|apply in_seq; lia|].
    intro s. unfold sweep_column.
    destruct (comprehension _ _); [|reflexivity].
    simpl. now rewrite get_out_of_range.
Qed.

(** X10: a board with more rows than there are row clues, or wider than
    there are column clues, makes the propagation raise [IndexError], and
    with it the search: no board and no "no solution" is returned for a
    puzzle that lacks a clue. *)
Theorem missing_clue_raises (b : board) (row_hints col_hints : list clue)
    (depth : nat) :
  (length row_hints < length b)%nat \/
  (length col_hints < row_width b)%nat ->
  solve_with_constraint_propagation b row_hints col_hints = IndexError /\
  solve_with_backtrack depth b row_hints col_hints = Raised.
Proof.
  intro H.
  assert (Hp : solve_with_constraint_propagation b row_hints col_hints
               = IndexError).
  { unfold solve_with_constraint_propagation, max_iterations.
    change (propagation_loop 1000 row_hints col_hints b true)
      with ('(b1, c1) <- propagation_pass b row_hints col_hints ;;
            propagation_loop 999 row_hints col_hints b1 c1).
    now rewrite propagation_pass_missing_clue. }
  split; [assumption|].
  rewrite solve_with_backtrack_unfold, Hp. reflexivity.
Qed.

Lemma missing_clue_raises_witness :
  solve_with_constraint_propagation (fresh_board 2 2) [[1]] [[1]; [1]]
  = IndexError /\
  solve_with_backtrack 4 (fresh_board 2 2) [[1]] [[1]; [1]] = Raised.
Proof.
  apply (missing_clue_raises (fresh_board 2 2) [[1]] [[1]; [1]] 4).
  left. simpl. lia.
Defined.

(** X11: on a matrix whose rows and columns all have a clue without negative
    lengths, neither the propagation nor the search raises [IndexError]:
    the propagation returns a board and the search ends in a board, in
    "no solution" or at its depth allowance. *)
Theorem fitting_clues_never_raise (b : board) (row_hints col_hints : list clue)
    (depth : nat) :
  is_matrix b ->
  clues_fit b row_hints col_hints ->
  (exists b', solve_with_constraint_propagation b row_hints col_hints = Ok b') /\
  solve_with_backtrack depth b row_hints col_hints <> Raised.
Proof.
  intros Hmat Hfit. split.
  - now apply propagation_total.
  - now apply solve_with_backtrack_no_raise.
Qed.

Lemma fitting_clues_never_raise_witness :
  (exists b', solve_with_constraint_propagation [[-1; -1]; [-1; 0]]
                [[1]; [1]] [[1]; [1]] = Ok b') /\
  solve_with_backtrack 3 [[-1; -1]; [-1; 0]] [[1]; [1]] [[1]; [1]] <> Raised.
Proof.
  apply (fitting_clues_never_raise [[-1; -1]; [-1; 0]] [[1]; [1]] [[1]; [1]] 3).
  - repeat constructor.
  - split; intros i Hi; simpl in Hi;
      (destruct i as [|[|i]];
       [eexists; split; [reflexivity|repeat constructor; lia] ..|lia]).
Defined.

(** ** Which solution the search returns *)

Lemma first_unknown_in_row_first (row : line) (m : nat) :
  forall s c, first_unknown_in_row row (seq s m) = Ok (Some c) ->
  (s <= c)%nat /\
  forall c', (s <= c' < c)%nat ->
             exists x, nth_error row c' = Some x /\ x <> Unknown.
Proof.
  induction m as [|m IH]; intros s c H; simpl in H.
  - inv_bind. discriminate.
  - inv_bind. apply get_ok in Hm. destruct (a =? -1) eqn:E.
    + inv_bind. split; [lia|]. intros c' Hc'. lia.
    + apply Z.eqb_neq in E. destruct (IH _ _ Hk) as [Hle Hpre].
      split; [lia|]. intros c' Hc'.
      destruct (Nat.eq_dec c' s) as [->|Hne]; [eauto|]. apply Hpre. lia.
Qed.

Lemma first_unknown_first (b : board) (cs : list nat) (n : nat) :
  forall s r c, first_unknown b (seq s n) cs = Ok (Some (r, c)) ->
  (s <= r)%nat /\
  (forall r' c', (s <= r' < r)%nat -> In c' cs ->
                 exists x, cell_at b r' c' = Some x /\ x <> Unknown) /\
  exists row, nth_error b r = Some row /\
              first_unknown_in_row row cs = Ok (Some c).
Proof.
  induction n as [|n IH]; intros s r c H; simpl in H.
  - inv_bind. discriminate.
  - inv_bind. apply get_ok in Hm. destruct a0 as [c0|].
    + inv_bind. split; [lia|]. split; [intros; lia|]. eauto.
    + destruct (IH _ _ _ Hk0) as (Hle & Hpre & Hrow).
      split; [lia|]. split; [|assumption].
      intros r' c' Hr' Hc'.
      destruct (Nat.eq_dec r' s) as [->|Hne]; [|apply Hpre; [lia|assumption]].
      apply first_unknown_in_row_spec in Hm0.
      unfold cell_at. rewrite Hm. now apply Hm0.
Qed.

Lemma guess_keeps (b bc : board) (r c : nat) (v : Z) :
  cell_at b r c = Some Unknown -> guess b r c v = Ok bc ->
  board_keeps_determined b bc.
Proof.
  intros Hu Hg. pose proof (guess_spec _ _ _ _ _ Hg) as [Hs _].
  apply guess_cells in Hg as [_ Hother]. split; [assumption|].
  intros r' c' x Hx Hd.
  destruct (Nat.eq_dec r' r) as [->|Hr];
    [destruct (Nat.eq_dec c' c) as [->|Hc]|].
  - congruence.
  - rewrite Hother by auto. exact Hx.
  - rewrite Hother by auto. exact Hx.
Qed.

Lemma solved_keeps_start (row_hints col_hints : list clue) (b' : board)
    (depth : nat) :
  forall b,
  solve_with_backtrack depth b row_hints col_hints = Solved b' ->
  board_keeps_determined b b'.
Proof.
  induction depth as [|d IH]; intros b H;
    rewrite solve_with_backtrack_unfold in H;
    destruct (solve_with_constraint_propagation b row_hints col_hints)
      as [b1|] eqn:Hp; try discriminate;
    apply propagation_keeps in Hp;
    destruct (first_unknown b1 (seq 0 (length b1)) (seq 0 (row_width b1)))
      as [[[r c]|]|] eqn:Hf; try discriminate.
  - destruct (is_valid_board b1 row_hints col_hints) as [[|]|];
      try discriminate. now injection H as <-.
  - apply first_unknown_spec in Hf.
    destruct (guess b1 r c 1) as [bc|] eqn:Hg1; [|discriminate].
    apply (guess_keeps _ _ _ _ _ Hf) in Hg1.
    destruct (solve_with_backtrack d bc row_hints col_hints) eqn:E1;
      try discriminate.
    + rewrite H in E1. apply IH in E1.
      eauto using board_keeps_trans.
    + destruct (guess b1 r c 0) as [bc0|] eqn:Hg0; [|discriminate].
      apply (guess_keeps _ _ _ _ _ Hf) in Hg0. apply IH in H.
      eauto using board_keeps_trans.
  - destruct (is_valid_board b1 row_hints col_hints) as [[|]|];
      try discriminate. now injection H as <-.
Qed.

Lemma agree_before (b1 b' s : board) (r c : nat) :
  is_matrix b1 ->
  board_keeps_determined b1 b' -> board_keeps_determined b1 s ->
  first_unknown b1 (seq 0 (length b1)) (seq 0 (row_width b1))
  = Ok (Some (r, c)) ->
  forall r' c', before r' c' r c -> cell_at b' r' c' = cell_at s r' c'.
Proof.
  intros Hmat [Hs' He'] [Hs He] Hf r' c' Hbefore.
  destruct (first_unknown_first _ _ _ _ _ _ Hf) as (_ & Hrows & row & Hrow & Hc).
  destruct (first_unknown_in_row_first _ _ _ _ Hc) as (_ & Hcols).
  destruct (cell_at b1 r' c') as [x|] eqn:Hx.
  - assert (Hd : x <> Unknown).
    { pose proof Hx as Hx'. unfold cell_at in Hx'.
      destruct (nth_error b1 r') as [row'|] eqn:Er; [|discriminate].
      destruct Hbefore as [Hlt|[-> Hlt]].
      - destruct (Hrows r' c') as (y & Hy & Hd); [lia| |congruence].
        apply in_seq. split; [lia|].
        rewrite <- (matrix_row _ _ _ Hmat Er). apply nth_error_Some. congruence.
      - assert (row' = row) by congruence. subst row'.
        destruct (Hcols c') as (y & Hy & Hd); [lia|congruence]. }
    rewrite (He' _ _ _ Hx Hd), (He _ _ _ Hx Hd). reflexivity.
  - destruct (cell_at b' r' c') as [y|] eqn:Hy.
    + destruct (cell_exists_shape b' b1 r' c') as (z & Hz);
        [congruence|eauto|congruence].
    + destruct (cell_at s r' c') as [z|] eqn:Hz; [|reflexivity].
      destruct (cell_exists_shape s b1 r' c') as (w & Hw);
        [congruence|eauto|congruence].
Qed.

Lemma search_greatest (row_hints col_hints : list clue) (s b' : board)
    (depth : nat) :
  solves row_hints col_hints s ->
  forall b, is_matrix b -> board_keeps_determined b s ->
  (count_unknown b <= depth)%nat ->
  solve_with_backtrack depth b row_hints col_hints = Solved b' ->
  row_major_ge b' s.
Proof.
  intro Hsol. induction depth as [|d IH]; intros b Hmat Hext Hc H;
    pose proof (solved_keeps_start _ _ _ _ _ H) as Hstart;
    rewrite solve_with_backtrack_unfold in H;
    destruct (solve_with_constraint_propagation b row_hints col_hints)
      as [b1|] eqn:Hp; try discriminate;
    pose proof (propagation_sound _ _ _ _ _ Hsol Hmat Hext Hp) as Hext1;
    apply propagation_keeps in Hp;
    pose proof (count_unknown_keeps _ _ Hp) as Hc1;
    pose proof (is_matrix_shape _ _ (shape_keeps _ _ Hp) Hmat) as Hmat1;
    destruct (first_unknown b1 (seq 0 (length b1)) (seq 0 (row_width b1)))
      as [[[r c]|]|] eqn:Hf; try discriminate.
  - destruct (is_valid_board b1 row_hints col_hints) as [[|]|];
      try discriminate. injection H as <-. left.
    now apply determined_board_is_solution.
  - pose proof (first_unknown_spec _ _ _ _ Hf) as Hu. simpl in Hu.
    destruct (guess b1 r c 1) as [bc|] eqn:Hg1; [|discriminate].
    pose proof (guess_spec _ _ _ _ _ Hg1) as [Hs1 Hn1].
    specialize (Hn1 Hu ltac:(discriminate)).
    pose proof (guess_cells _ _ _ _ _ Hg1) as [Hnew1 _].
    pose proof (is_matrix_shape _ _ Hs1 Hmat1) as Hmatc.
    destruct (cell_exists_shape b1 s r c (proj1 Hext1)) as (v & Hv); [eauto|].
    pose proof Hsol as (Hbin & _).
    destruct (solve_with_backtrack d bc row_hints col_hints) eqn:E1;
      try discriminate.
    + rewrite H in E1.
      pose proof (solved_keeps_start _ _ _ _ _ E1) as Hk1.
      assert (Hb'1 : cell_at b' r c = Some Filled).
      { apply Hk1; [assumption|discriminate]. }
      destruct (Hbin r c v Hv) as [-> | ->].
      * apply (IH bc); auto; [|lia]. eapply guess_keeps_solution; eauto.
      * right. exists r, c. split; [assumption|]. split; [assumption|].
        apply (agree_before b1); auto.
        eapply board_keeps_trans; [|exact Hk1].
        eapply guess_keeps; eauto.
    + destruct (guess b1 r c 0) as [bc0|] eqn:Hg0; [|discriminate].
      pose proof (guess_spec _ _ _ _ _ Hg0) as [Hs0 Hn0].
      specialize (Hn0 Hu ltac:(discriminate)).
      destruct (Hbin r c v Hv) as [-> | ->].
      * exfalso.
        destruct (search_complete row_hints col_hints s d Hsol bc Hmatc)
          as (b2 & Hb2); [|lia|congruence].
        eapply guess_keeps_solution; eauto.
      * apply (IH bc0); auto; [|eapply guess_keeps_solution; eauto|lia].
        now apply (is_matrix_shape b1).
  - destruct (is_valid_board b1 row_hints col_hints) as [[|]|];
      try discriminate. injection H as <-. left.
    now apply determined_board_is_solution.
Qed.

(** X17: the board that [solve_with_backtrack] returns repeats every
    determined cell of the board it was given: the search fills in Unknown
    cells only. *)
Theorem solve_with_backtrack_keeps_given_cells (depth : nat) (b b' : board)
    (row_hints col_hints : list clue) :
  solve_with_backtrack depth b row_hints col_hints = Solved b' ->
  board_keeps_determined b b'.
Proof. apply solved_keeps_start. Qed.

Lemma solve_with_backtrack_keeps_given_cells_witness :
  board_keeps_determined [[-1; -1]; [-1; 0]] [[0; 1]; [1; 0]].
Proof.
  apply (solve_with_backtrack_keeps_given_cells 3 [[-1; -1]; [-1; 0]]
           [[0; 1]; [1; 0]] [[1]; [1]] [[1]; [1]]).
  vm_compute. reflexivity.
Defined.

(** X18: among the solutions of the puzzle that agree with the determined
    cells of the given matrix, [solve_with_backtrack] returns the greatest
    in row-major order with Filled above Blank: the board returned equals
    any such solution or is Filled where that solution is Blank at the
    first cell where the two differ.  In particular a puzzle with a single
    solution gets that solution. *)
Theorem solve_with_backtrack_returns_greatest (row_hints col_hints : list clue)
    (b b' s : board) (depth : nat) :
  is_matrix b ->
  (count_unknown b <= depth)%nat ->
  solve_with_backtrack depth b row_hints col_hints = Solved b' ->
  solves row_hints col_hints s ->
  board_keeps_determined b s ->
  row_major_ge b' s.
Proof.
  intros Hmat Hc H Hsol Hext. eapply search_greatest; eauto.
Qed.

Lemma solve_with_backtrack_returns_greatest_witness :
  row_major_ge [[1; 0]; [0; 1]] [[0; 1]; [1; 0]].
Proof.
  apply (solve_with_backtrack_returns_greatest [[1]; [1]] [[1]; [1]]
           (fresh_board 2 2) [[1; 0]; [0; 1]] [[0; 1]; [1; 0]] 4).
  - repeat constructor.
  - vm_compute. lia.
  - vm_compute. reflexivity.
  - split; [|split].
    + intros r c x H. cell_cases H; injection H as <-;
        first [now left | now right].
    + intros r row H.
      repeat (destruct r as [|r]; simpl in H;
              [injection H as <-; reflexivity|]).
      destruct r; discriminate.
    + intros c Hc. simpl in Hc.
      destruct c as [|[|c]]; [eexists; split; reflexivity ..|lia].
  - split; [reflexivity|]. intros r c x H Hd.
    apply fresh_board_cells in H. contradiction.
Defined.
